(** * Windy: the HTML <-> schema engine of the visual editor

    A shallow embedding of [src/utils/schemaParser.js]: the extractor
    [parseHTMLToSchema] with its classifier [isRepeatableElement], the
    serializer [schemaToHTML] and the field projector [generateFormFields].

    The repository carries two revisions of the file.  They agree on the
    extractor, the classifier and the projector; they differ in the
    serializer.  Module [SchemaParser] embeds the revision that defines
    [escapeHTML] and [isValidTagName]; module [Unescaped] embeds the
    serializer of the other revision, which emits tag, class, attribute and
    text strings as they are.

    Module [Editor] embeds the handlers of [src/components/Editor.jsx] that
    compute a new record collection from the one the editor holds:
    [updateElementText], [handleFormUpdate], [addRepeatableElement] and
    [removeElement].

    The document tree comes from the browser's [DOMParser]: the extractor is
    a function of the tree, and the parser is a parameter wherever markup is
    given as a string.  Module [Browser] models the parser on markup of the
    shape that the serializer emits; the round trip of escaping is stated
    for every parser that reads such markup as the model does.

    A string is the sequence of its code units, each below 256: the ASCII
    characters and those of the Latin-1 supplement, U+0080 to U+00FF.  On
    these strings the primitives of JavaScript are modelled as they are; a
    string with a higher code unit has no counterpart here. *)

From Stdlib Require Import String Ascii List Bool Arith NArith Lia.
From Stdlib Require Import Permutation Sorted ListDec Relations.
From Stdlib Require Import OrderedTypeEx DecimalString DecimalNat.
Import ListNotations.
Set Warnings "-register-all".
Local Open Scope string_scope.
Local Open Scope list_scope.

(* ================================================================== *)
(** ** JavaScript primitives used by the source *)
(* ================================================================== *)

Module JS.

(** A parameter that the caller may leave [undefined] or pass as [null]. *)
Inductive nullable (A : Type) : Type :=
| undefined : nullable A
| null : nullable A
| value (a : A) : nullable A.
Arguments undefined {A}.
Arguments null {A}.
Arguments value {A} a.

(** [Array.prototype.join] on an array of strings. *)
Definition join (sep : string) (l : list string) : string :=
  String.concat sep l.

(** [Array.prototype.push], as a new array value. *)
Definition push {A : Type} (l : list A) (x : A) : list A := l ++ [x].

Definition code (c : ascii) : nat := nat_of_ascii c.

Definition between (lo hi : nat) (c : ascii) : bool :=
  (lo <=? code c)%nat && (code c <=? hi)%nat.

Definition is_upper (c : ascii) : bool := between 65 90 c.
Definition is_lower (c : ascii) : bool := between 97 122 c.
Definition is_alpha (c : ascii) : bool := is_upper c || is_lower c.
Definition is_digit (c : ascii) : bool := between 48 57 c.

(** The white space and the line terminators that [String.prototype.trim]
    removes, among the code units below 256: TAB, LF, VT, FF, CR, SPACE and
    the no-break space U+00A0. *)
Definition is_space (c : ascii) : bool :=
  between 9 13 c || (code c =? 32)%nat || (code c =? 160)%nat.

(** The capital letters among the code units below 256: A to Z, and U+00C0
    to U+00DE apart from the multiplication sign U+00D7. *)
Definition is_capital (c : ascii) : bool :=
  is_upper c || between 192 214 c || between 216 222 c.

Fixpoint string_map (f : ascii -> ascii) (s : string) : string :=
  match s with
  | EmptyString => EmptyString
  | String c s' => String (f c) (string_map f s')
  end.

Fixpoint string_forallb (f : ascii -> bool) (s : string) : bool :=
  match s with
  | EmptyString => true
  | String c s' => f c && string_forallb f s'
  end.

(** [String.prototype.toLowerCase]: the small letter of each of these
    capitals stands 32 code units above it; no other code unit below 256
    changes. *)
Definition lower (c : ascii) : ascii :=
  if is_capital c then ascii_of_nat (code c + 32) else c.

Definition toLowerCase (s : string) : string := string_map lower s.

Fixpoint trimStart (s : string) : string :=
  match s with
  | EmptyString => EmptyString
  | String c s' => if is_space c then trimStart s' else s
  end.

Fixpoint trimEnd (s : string) : string :=
  match s with
  | EmptyString => EmptyString
  | String c s' =>
      match trimEnd s' with
      | EmptyString => if is_space c then EmptyString else String c EmptyString
      | t => String c t
      end
  end.

(** [String.prototype.trim]. *)
Definition trim (s : string) : string := trimEnd (trimStart s).

(** [str.replace(/c/g, by)] for a pattern that is one literal character. *)
Fixpoint replace (c : ascii) (by_ : string) (s : string) : string :=
  match s with
  | EmptyString => EmptyString
  | String a s' =>
      if Ascii.eqb a c then by_ ++ replace c by_ s'
      else String a (replace c by_ s')
  end.

(** Number-to-string conversion of a template literal, for an array
    length. *)
Definition Number_toString (n : nat) : string :=
  NilEmpty.string_of_uint (Nat.to_uint n).

(** [Array.prototype.sort] with the default comparator, on an array of
    strings: ascending in the code-unit order.  The order is total and
    antisymmetric, so the result does not depend on the sorting algorithm; an
    insertion sort is used here. *)
Fixpoint insert (x : string) (l : list string) : list string :=
  match l with
  | [] => [x]
  | y :: l' => if String.leb x y then x :: l else y :: insert x l'
  end.

Fixpoint sort (l : list string) : list string :=
  match l with
  | [] => []
  | x :: l' => insert x (sort l')
  end.

(** The regular expression [/^[a-z][a-z0-9\-]*$/i] applied with [test]: a
    letter of either case, then letters, digits and hyphens up to the end of
    the string. *)
Definition name_char (c : ascii) : bool :=
  is_alpha c || is_digit c || (code c =? 45)%nat.

Definition safe_name_test (s : string) : bool :=
  match s with
  | EmptyString => false
  | String c s' => is_alpha c && string_forallb name_char s'
  end.

(** *** Plain objects used as string-to-string maps

    An object is kept as the list of its own properties in the order in which
    [Object.entries] lists them: properties whose key is an array index first,
    in ascending numeric order, then the other keys in the order of their
    creation. *)
Definition obj : Type := list (string * string).

Definition entries (o : obj) : list (string * string) := o.

(** The array index a key denotes, if it is the canonical decimal form of an
    integer below 2^32 - 1. *)
Definition array_index (k : string) : option N :=
  match NilEmpty.uint_of_string k with
  | Some d =>
      let n := N.of_uint d in
      if (NilEmpty.string_of_uint (N.to_uint n) =? k)
         && negb (k =? "") && (n <? 4294967295)%N
      then Some n else None
  | None => None
  end.

Fixpoint has_key (k : string) (o : obj) : bool :=
  match o with
  | [] => false
  | (k', _) :: o' => (k' =? k) || has_key k o'
  end.

Fixpoint overwrite (k v : string) (o : obj) : obj :=
  match o with
  | [] => []
  | (k', v') :: o' =>
      if k' =? k then (k', v) :: o' else (k', v') :: overwrite k v o'
  end.

Fixpoint insert_index (n : N) (k v : string) (o : obj) : obj :=
  match o with
  | [] => [(k, v)]
  | (k', v') :: o' =>
      match array_index k' with
      | Some n' =>
          if (n' <? n)%N then (k', v') :: insert_index n k v o'
          else (k, v) :: o
      | None => (k, v) :: o
      end
  end.

(** The assignment [o[k] = v] of a string [v].  Assigning a string to
    ["__proto__"] creates no property. *)
Definition obj_set (k v : string) (o : obj) : obj :=
  if k =? "__proto__" then o
  else if has_key k o then overwrite k v o
  else match array_index k with
       | Some n => insert_index n k v o
       | None => o ++ [(k, v)]
       end.

End JS.

(* ================================================================== *)
(** ** The document tree handed over by [DOMParser] *)
(* ================================================================== *)

Module DOM.

(** A node with its [childNodes].  For an element, [attributes] lists every
    attribute of the element, [class] included, and [classList] is its token
    list. *)
Inductive Node : Type :=
| Element (tagName : string) (classList : list string)
          (attributes : list (string * string)) (childNodes : list Node)
| Text (textContent : string)
| Comment (data : string).

(** ASCII white space, at which a [class] attribute is split into tokens:
    TAB, LF, FF, CR and SPACE. *)
Definition is_ascii_whitespace (c : ascii) : bool :=
  let n := nat_of_ascii c in
  (n =? 9)%nat || (n =? 10)%nat || (n =? 12)%nat || (n =? 13)%nat
  || (n =? 32)%nat.

Definition isElement (n : Node) : bool :=
  match n with Element _ _ _ _ => true | _ => false end.

Definition isText (n : Node) : bool :=
  match n with Text _ => true | _ => false end.

Definition tagName (n : Node) : string :=
  match n with Element t _ _ _ => t | _ => "" end.

Definition classList (n : Node) : list string :=
  match n with Element _ c _ _ => c | _ => [] end.

Definition attributes (n : Node) : list (string * string) :=
  match n with Element _ _ a _ => a | _ => [] end.

Definition childNodes (n : Node) : list Node :=
  match n with Element _ _ _ cs => cs | _ => [] end.

Definition textContent (n : Node) : string :=
  match n with Text s => s | _ => "" end.

(** [node.children]: the element children, in document order. *)
Definition children (n : Node) : list Node :=
  filter isElement (childNodes n).

End DOM.

(* ================================================================== *)
(** ** The extractor, the classifier and the projector *)
(* ================================================================== *)

Module SchemaParser.
Import JS.

(** One record per element of the markup.  [text] is [None] where the
    property is [undefined]; the extractor always defines it. *)
Record ElementRecord : Type := mkElementRecord {
  id : string;
  tag : string;
  classes : list string;
  attributes : obj;
  text : option string;
  path : list nat;
  children : list string;
  isRepeatable : bool
}.

Definition with_children (cs : list string) (e : ElementRecord)
  : ElementRecord :=
  {| id := id e; tag := tag e; classes := classes e;
     attributes := attributes e; text := text e; path := path e;
     children := cs; isRepeatable := isRepeatable e |}.

(** [elements[i].children = cs]: the assignment through the reference that
    the array slot [i] and the local variable [element] share. *)
Fixpoint assign_children (i : nat) (cs : list string)
  (elements : list ElementRecord) : list ElementRecord :=
  match elements, i with
  | [], _ => []
  | e :: es, 0 => with_children cs e :: es
  | e :: es, S i' => e :: assign_children i' cs es
  end.

Definition repeatableTags : list string :=
  ["span"; "a"; "button"; "div"; "article"; "section"].

Definition listParentTags : list string := ["ul"; "ol"; "nav"; "menu"].

Definition includes (l : list string) (s : string) : bool :=
  existsb (String.eqb s) l.

(** [isRepeatableElement(node)].  [parentElement] is [node.parentElement],
    [None] where the property is [null]. *)
Definition isRepeatableElement (parentElement : option DOM.Node)
  (node : DOM.Node) : bool :=
  let tag := toLowerCase (DOM.tagName node) in
  if tag =? "li" then true
  else if
    match parentElement with
    | Some parent =>
        let siblings :=
          filter (fun child => DOM.tagName child =? DOM.tagName node)
                 (DOM.children parent) in
        if (1 <? List.length siblings)%nat then
          let nodeClasses := join " " (sort (DOM.classList node)) in
          let similarSiblings :=
            filter (fun sibling =>
                      join " " (sort (DOM.classList sibling)) =? nodeClasses)
                   siblings in
          (1 <? List.length similarSiblings)%nat
        else false
    | None => false
    end
  then true
  else if
    includes repeatableTags tag &&
    match parentElement with
    | Some parent =>
        includes listParentTags (toLowerCase (DOM.tagName parent))
    | None => false
    end
  then true
  else false.

(** The loop [for (const attr of node.attributes)] of [traverseNode]. *)
Definition collectAttributes (attrs : list (string * string)) : obj :=
  fold_left
    (fun o attr => if negb (fst attr =? "class")
                   then obj_set (fst attr) (snd attr) o else o)
    attrs [].

(** The direct text of an element: its text nodes, each trimmed, the empty
    ones dropped, joined by one space. *)
Definition directText (childNodes : list DOM.Node) : string :=
  join " "
    (filter (fun t => negb (String.length t =? 0)%nat)
       (map (fun child => trim (DOM.textContent child))
          (filter DOM.isText childNodes))).

(** [traverseNode(node, path)], threading the array [elements].  The result
    is the record of [node] ([None] for [null]) and the array afterwards.
    [node.children] holds the element children only: the loop walks
    [childNodes] and passes over the other nodes. *)
Fixpoint traverseNode (parentElement : option DOM.Node) (node : DOM.Node)
  (path : list nat) (elements : list ElementRecord) {struct node}
  : option ElementRecord * list ElementRecord :=
  match node with
  | DOM.Element _ classList attrs childNodes =>
      let textContent := directText childNodes in
      let element :=
        {| id := "element-" ++ Number_toString (List.length elements);
           tag := toLowerCase (DOM.tagName node);
           classes := classList;
           attributes := collectAttributes attrs;
           text := Some (if textContent =? "" then "" else textContent);
           path := path ++ [List.length elements];
           children := [];
           isRepeatable := isRepeatableElement parentElement node |} in
      let elements := push elements element in
      let currentIndex := List.length elements - 1 in
      let '(childElements, elements) :=
        (fix each (cs : list DOM.Node) (childElements : list string)
           (elements : list ElementRecord) {struct cs} :=
           match cs with
           | [] => (childElements, elements)
           | child :: cs' =>
               if DOM.isElement child then
                 let '(childSchema, elements) :=
                   traverseNode (Some node) child (path ++ [currentIndex])
                                elements in
                 match childSchema with
                 | Some s => each cs' (push childElements (id s)) elements
                 | None => each cs' childElements elements
                 end
               else each cs' childElements elements
           end) childNodes [] elements in
      (Some (with_children childElements element),
       assign_children currentIndex childElements elements)
  | _ => (None, elements)
  end.

(** The loop over the children of a node again, as a function of its own. *)
Definition traverseChildren (parent : DOM.Node) (path : list nat)
  : list DOM.Node -> list string -> list ElementRecord
    -> list string * list ElementRecord :=
  fix each (cs : list DOM.Node) (childElements : list string)
    (elements : list ElementRecord) {struct cs} :=
    match cs with
    | [] => (childElements, elements)
    | child :: cs' =>
        if DOM.isElement child then
          let '(childSchema, elements) :=
            traverseNode (Some parent) child path elements in
          match childSchema with
          | Some s => each cs' (push childElements (id s)) elements
          | None => each cs' childElements elements
          end
        else each cs' childElements elements
    end.

Section Extractor.

(** [new DOMParser().parseFromString(html, 'text/html').body]: the parser
    belongs to the browser and is a parameter here.  The result is the [body]
    element of the document. *)
Variable parseFromString : string -> DOM.Node.

(** Conversion of the argument to the string that [parseFromString]
    receives. *)
Definition DOMString (html : nullable string) : string :=
  match html with
  | undefined => "undefined"
  | null => "null"
  | value s => s
  end.

(** [parseHTMLToSchema(html)].  The top-level loop calls [traverseNode(child)]
    with the default empty path and drops its result. *)
Definition parseHTMLToSchema (html : nullable string)
  : list ElementRecord :=
  let body := parseFromString (DOMString html) in
  let elements : list ElementRecord := [] in
  fold_left
    (fun elements child =>
       if DOM.isElement child
       then snd (traverseNode (Some body) child [] elements)
       else elements)
    (DOM.childNodes body) elements.

End Extractor.

(** *** The serializer *)

Definition quot : string := String "034"%char EmptyString.
Definition newline : string := String "010"%char EmptyString.

(** [escapeHTML(str)], for a string argument. *)
Definition escapeHTML (str : string) : string :=
  if str =? "" then ""
  else
    replace "'"%char "&#039;"
      (replace "034"%char "&quot;"
         (replace ">"%char "&gt;"
            (replace "<"%char "&lt;"
               (replace "&"%char "&amp;" str)))).

(** [isValidTagName(tag)]. *)
Definition isValidTagName (tag : string) : bool := safe_name_test tag.

(** [element.text || ''] *)
Definition text_or_empty (t : option string) : string :=
  match t with
  | Some s => if s =? "" then "" else s
  | None => ""
  end.

(** [xs.map(f)] for an [f] that may fail to return: the calls are made from
    left to right and the first one that does not return ends the loop. *)
Fixpoint map_returning {A B : Type} (f : A -> option B) (xs : list A)
  : option (list B) :=
  match xs with
  | [] => Some []
  | x :: xs' =>
      match f x with
      | None => None
      | Some y =>
          match map_returning f xs' with
          | None => None
          | Some ys => Some (y :: ys)
          end
      end
  end.

(** A [Set] of strings, by insertion order. *)
Definition set_has (s : list string) (x : string) : bool :=
  existsb (String.eqb x) s.

Definition set_add (s : list string) (x : string) : list string :=
  if set_has s x then s else s ++ [x].

(** The [attrs] array of [buildElement]. *)
Definition buildAttrs (element : ElementRecord) : list string :=
  let attrs : list string := [] in
  let attrs :=
    if (0 <? List.length (classes element))%nat then
      let escapedClasses := join " " (map escapeHTML (classes element)) in
      push attrs ("class=" ++ quot ++ escapedClasses ++ quot)%string
    else attrs in
  fold_left
    (fun attrs kv =>
       if safe_name_test (fst kv)
       then push attrs
              (escapeHTML (fst kv) ++ "=" ++ quot ++ escapeHTML (snd kv)
               ++ quot)%string
       else attrs)
    (entries (attributes element)) attrs.

Definition attrString (attrs : list string) : string :=
  if (0 <? List.length attrs)%nat then (" " ++ join " " attrs)%string
  else "".

(** What a call returns: the markup, and the lines it wrote with
    [console.warn], oldest first. *)
Definition Output : Type := (string * list string)%type.

Definition markup (o : Output) : string := fst o.
Definition warnings (o : Output) : list string := snd o.

Section Serializer.

Variable elements : list ElementRecord.

Definition findElement (elementId : string) : option ElementRecord :=
  find (fun el => id el =? elementId) elements.

(** [buildElement(elementId)].  [fuel] bounds the depth of the recursion;
    [None] is a recursion deeper than [fuel]. *)
Fixpoint buildElement (fuel : nat) (elementId : string) : option Output :=
  match fuel with
  | 0 => None
  | S fuel' =>
      match findElement elementId with
      | None => Some ("", [])
      | Some element =>
          if negb (isValidTagName (tag element)) then
            Some ("", ["Invalid tag name: " ++ tag element]%string)
          else
            let attrs := buildAttrs element in
            match map_returning (buildElement fuel') (children element) with
            | None => None
            | Some built =>
                let childrenHTML := join "" (map markup built) in
                let textContent := escapeHTML (text_or_empty (text element)) in
                Some (("<" ++ tag element ++ attrString attrs ++ ">"
                       ++ textContent ++ childrenHTML
                       ++ "</" ++ tag element ++ ">")%string,
                      List.concat (map warnings built))
            end
      end
  end.

Definition childIds : list string :=
  fold_left (fun s el => fold_left set_add (children el) s) elements [].

Definition rootElements : list ElementRecord :=
  filter (fun el => negb (set_has childIds (id el))) elements.

Definition buildRoots (fuel : nat) : option Output :=
  match map_returning (fun el => buildElement fuel (id el)) rootElements with
  | None => None
  | Some built =>
      Some (join newline (map markup built), List.concat (map warnings built))
  end.

End Serializer.

(** [schemaToHTML(elements)]. *)
Definition schemaToHTML (fuel : nat)
  (elements : nullable (list ElementRecord)) : option Output :=
  match elements with
  | undefined | null => Some ("", [])
  | JS.value elements =>
      if (List.length elements =? 0)%nat then Some ("", [])
      else buildRoots elements fuel
  end.

(** *** The field projector *)

Record Field : Type := mkField {
  name : string;
  label : string;
  type : string;
  value : string;
  readonly : option bool
}.

(** [generateFormFields(element)]. *)
Definition generateFormFields (element : ElementRecord) : list Field :=
  let fields : list Field := [] in
  let fields :=
    push fields {| name := "tag"; label := "Tag"; type := "text";
                   value := tag element; readonly := Some true |} in
  let fields :=
    match text element with
    | Some t =>
        push fields {| name := "text"; label := "Text Content";
                       type := "textarea"; value := t; readonly := None |}
    | None => fields
    end in
  let fields :=
    push fields {| name := "classes"; label := "Classes"; type := "text";
                   value := join " " (classes element);
                   readonly := None |} in
  fold_left
    (fun fields kv =>
       push fields {| name := "attr_" ++ fst kv; label := fst kv;
                      type := "text"; value := snd kv; readonly := None |})
    (entries (attributes element)) fields.

End SchemaParser.

(* ================================================================== *)
(** ** The serializer of the revision without escaping *)
(* ================================================================== *)

Module Unescaped.
Import JS SchemaParser.

Definition buildAttrs (element : ElementRecord) : list string :=
  let attrs : list string := [] in
  let attrs :=
    if (0 <? List.length (classes element))%nat then
      push attrs
        ("class=" ++ quot ++ join " " (classes element) ++ quot)%string
    else attrs in
  fold_left
    (fun attrs kv =>
       push attrs (fst kv ++ "=" ++ quot ++ snd kv ++ quot)%string)
    (entries (attributes element)) attrs.

Section Serializer.

Variable elements : list ElementRecord.

Fixpoint buildElement (fuel : nat) (elementId : string) : option string :=
  match fuel with
  | 0 => None
  | S fuel' =>
      match findElement elements elementId with
      | None => Some ""
      | Some element =>
          let attrs := buildAttrs element in
          match map_returning (buildElement fuel') (children element) with
          | None => None
          | Some built =>
              let childrenHTML := join "" built in
              let textContent := text_or_empty (text element) in
              Some ("<" ++ tag element ++ attrString attrs ++ ">"
                    ++ textContent ++ childrenHTML
                    ++ "</" ++ tag element ++ ">")%string
          end
      end
  end.

End Serializer.

Definition schemaToHTML (fuel : nat)
  (elements : nullable (list ElementRecord)) : option string :=
  match elements with
  | undefined | null => Some ""
  | JS.value elements =>
      if (List.length elements =? 0)%nat then Some ""
      else
        match map_returning (fun el => buildElement elements fuel (id el))
                (rootElements elements) with
        | None => None
        | Some built => Some (join newline built)
        end
  end.

End Unescaped.


(* ================================================================== *)
(** ** The vocabulary of the statements *)
(* ================================================================== *)

Module Projection.
Import JS SchemaParser.

(** The fields that [generateFormFields] pushes. *)

Definition tagField (e : ElementRecord) : Field :=
  {| name := "tag"; label := "Tag"; type := "text"; value := tag e;
     readonly := Some true |}.

Definition textField (t : string) : Field :=
  {| name := "text"; label := "Text Content"; type := "textarea";
     value := t; readonly := None |}.

Definition classesField (e : ElementRecord) : Field :=
  {| name := "classes"; label := "Classes"; type := "text";
     value := join " " (classes e); readonly := None |}.

Definition attrField (kv : string * string) : Field :=
  {| name := "attr_" ++ fst kv; label := fst kv; type := "text";
     value := snd kv; readonly := None |}.

End Projection.

Module Markup.
Import JS SchemaParser.

(** The shape of the markup that the serializer emits. *)

Definition special (c : ascii) : bool :=
  Ascii.eqb c "&" || Ascii.eqb c "<" || Ascii.eqb c ">"
  || Ascii.eqb c "034" || Ascii.eqb c "'".

(** The replacement of one character by [escapeHTML]. *)
Definition escapeChar (c : ascii) : string :=
  if Ascii.eqb c "&" then "&amp;"
  else if Ascii.eqb c "<" then "&lt;"
  else if Ascii.eqb c ">" then "&gt;"
  else if Ascii.eqb c "034" then "&quot;"
  else if Ascii.eqb c "'" then "&#039;"
  else String c EmptyString.

Fixpoint escapeChars (s : string) : string :=
  match s with
  | EmptyString => EmptyString
  | String c s' => (escapeChar c ++ escapeChars s')%string
  end.

Definition entity_follows (s : string) : bool :=
  String.prefix "amp;" s || String.prefix "lt;" s || String.prefix "gt;" s
  || String.prefix "quot;" s || String.prefix "#039;" s.

(** No raw [<], [>], quote or apostrophe, and every [&] opens one of the five
    character references. *)
Fixpoint escaped (s : string) : bool :=
  match s with
  | EmptyString => true
  | String c s' =>
      if Ascii.eqb c "&" then entity_follows s' && escaped s'
      else negb (special c) && escaped s'
  end.

Inductive Attribute : string -> Prop :=
| Attribute_intro (k v : string) :
    safe_name_test k = true -> escaped v = true ->
    Attribute (k ++ "=" ++ quot ++ v ++ quot).

Inductive Fragment : string -> Prop :=
| Fragment_nothing : Fragment ""
| Fragment_element (tg : string) (attrs : list string) (txt : string)
    (kids : list string) :
    safe_name_test tg = true ->
    Forall Attribute attrs ->
    escaped txt = true ->
    Forall Fragment kids ->
    Fragment ("<" ++ tg ++ attrString attrs ++ ">" ++ txt ++ join "" kids
              ++ "</" ++ tg ++ ">").

Definition renderAttr (kv : string * string) : string :=
  (escapeHTML (fst kv) ++ "=" ++ quot ++ escapeHTML (snd kv) ++ quot)%string.

Definition classAttr (e : ElementRecord) : list string :=
  match classes e with
  | [] => []
  | _ :: _ =>
      ["class=" ++ quot ++ join " " (map escapeHTML (classes e)) ++ quot]%string
  end.

(** The markup of an element that is emitted, around the markup of its
    children. *)
Definition wrap (e : ElementRecord) (inner : string) : string :=
  ("<" ++ tag e ++ attrString (buildAttrs e) ++ ">"
   ++ escapeHTML (text_or_empty (text e)) ++ inner
   ++ "</" ++ tag e ++ ">")%string.

Definition invalidTagWarning (e : ElementRecord) : string :=
  ("Invalid tag name: " ++ tag e)%string.

(** An attribute as it is to be emitted: the key and the value, each with
    every one of the five characters replaced by its reference, the value
    between double quotes. *)
Definition emittedAttr (kv : string * string) : string :=
  (escapeChars (fst kv) ++ "=" ++ quot ++ escapeChars (snd kv) ++ quot)%string.

(** The [class] attribute as it is to be emitted, for a record that has
    classes. *)
Definition emittedClass (e : ElementRecord) : list string :=
  match classes e with
  | [] => []
  | _ :: _ =>
      ["class=" ++ quot ++ join " " (map escapeChars (classes e)) ++ quot]%string
  end.

End Markup.

Module Reachability.
Import JS SchemaParser.

(** The graph of child references of a collection. *)

(** [c] is listed in the [children] of a record whose id is [x]. *)
Definition child_edge (elements : list ElementRecord) (x c : string) : Prop :=
  exists r, In r elements /\ id r = x /\ In c (children r).

(** No id reaches itself along child references. *)
Definition acyclic (elements : list ElementRecord) : Prop :=
  forall x, ~ clos_trans string (child_edge elements) x x.

(** The ids that nested calls of [buildElement] pass through, outermost
    first. *)
Inductive chain (elements : list ElementRecord)
  : string -> list string -> Prop :=
| chain_end (x : string) : chain elements x []
| chain_step (x : string) (e : ElementRecord) (c : string) (l : list string) :
    findElement elements x = Some e -> In c (children e) ->
    chain elements c l -> chain elements x (x :: l).

End Reachability.

Module Preorder.
Import JS SchemaParser.

(** Document order, and the records it determines. *)

Definition elementId (k : nat) : string := "element-" ++ Number_toString k.

(** The number of elements in the subtree of a node. *)
Fixpoint size (n : DOM.Node) : nat :=
  match n with
  | DOM.Element _ _ _ cs =>
      S ((fix sizes (cs : list DOM.Node) : nat :=
            match cs with
            | [] => 0
            | c :: cs' => size c + sizes cs'
            end) cs)
  | _ => 0
  end.

Fixpoint sizes (cs : list DOM.Node) : nat :=
  match cs with
  | [] => 0
  | c :: cs' => size c + sizes cs'
  end.

(** The elements of a subtree in document order, each with its parent
    element: an element comes before its descendants, and these before its
    next sibling. *)
Fixpoint preorder (parent : DOM.Node) (n : DOM.Node)
  : list (DOM.Node * DOM.Node) :=
  match n with
  | DOM.Element _ _ _ cs =>
      (parent, n)
        :: (fix forest (cs : list DOM.Node) : list (DOM.Node * DOM.Node) :=
              match cs with
              | [] => []
              | c :: cs' => preorder n c ++ forest cs'
              end) cs
  | _ => []
  end.

Definition preorderForest (parent : DOM.Node)
  : list DOM.Node -> list (DOM.Node * DOM.Node) :=
  fix forest (cs : list DOM.Node) : list (DOM.Node * DOM.Node) :=
    match cs with
    | [] => []
    | c :: cs' => preorder parent c ++ forest cs'
    end.

(** The pre-order positions of the elements among the siblings [cs], when the
    first position below their parent is [k]. *)
Fixpoint childOrdinals (k : nat) (cs : list DOM.Node) : list nat :=
  match cs with
  | [] => []
  | c :: cs' =>
      if DOM.isElement c then k :: childOrdinals (k + size c) cs'
      else childOrdinals k cs'
  end.

(** The record of an element at pre-order position [k]. *)
Definition recordAt (parentElement : option DOM.Node) (node : DOM.Node)
  (path : list nat) (k : nat) : ElementRecord :=
  {| id := elementId k;
     tag := toLowerCase (DOM.tagName node);
     classes := DOM.classList node;
     attributes := collectAttributes (DOM.attributes node);
     text := Some (directText (DOM.childNodes node));
     path := path ++ [k];
     children := map elementId (childOrdinals (S k) (DOM.childNodes node));
     isRepeatable := isRepeatableElement parentElement node |}.

(** The records of a subtree whose root has position [k]. *)
Fixpoint records (parentElement : option DOM.Node) (node : DOM.Node)
  (path : list nat) (k : nat) {struct node} : list ElementRecord :=
  match node with
  | DOM.Element _ _ _ cs =>
      recordAt parentElement node path k
        :: (fix forest (cs : list DOM.Node) (j : nat) : list ElementRecord :=
              match cs with
              | [] => []
              | c :: cs' =>
                  records (Some node) c (path ++ [k]) j
                    ++ forest cs' (j + size c)
              end) cs (S k)
  | _ => []
  end.

Definition recordsForest (parent : DOM.Node) (path : list nat)
  : list DOM.Node -> nat -> list ElementRecord :=
  fix forest (cs : list DOM.Node) (j : nat) : list ElementRecord :=
    match cs with
    | [] => []
    | c :: cs' => records (Some parent) c path j ++ forest cs' (j + size c)
    end.

(** What a call [traverseNode(node, path)] returns and leaves in the array,
    for a node that is visited when the array holds [els]. *)
Definition traversed (node : DOM.Node) : Prop :=
  forall parent path els,
    traverseNode parent node path els
    = (if DOM.isElement node
       then Some (recordAt parent node path (List.length els)) else None,
       els ++ records parent node path (List.length els)).

(** The record at offset [i] of a subtree is the record of the [i]-th element
    of the subtree. *)
Definition recorded (n : DOM.Node) : Prop :=
  forall parent path k i p m,
    nth_error (preorder parent n) i = Some (p, m) ->
    exists path',
      nth_error (records (Some parent) n path k) i
      = Some (recordAt (Some p) m path' (k + i)).

(** [k] is, counted from [base], a position of the list [pre] that holds the
    element [c] with parent [m]. *)
Definition holds (pre : list (DOM.Node * DOM.Node)) (base : nat)
  (m : DOM.Node) (k : nat) (c : DOM.Node) : Prop :=
  base <= k /\ nth_error pre (k - base) = Some (m, c).

(** In the pre-order list of a subtree, the children of the element at
    offset [i] stand at the positions that [childOrdinals] lists. *)
Definition children_placed (n : DOM.Node) : Prop :=
  forall parent base i p m,
    nth_error (preorder parent n) i = Some (p, m) ->
    Forall2 (holds (preorder parent n) base m)
            (childOrdinals (S (base + i)) (DOM.childNodes m))
            (DOM.children m).

(** The child references made inside a subtree are, with the position of its
    root, a rearrangement of the positions of the subtree. *)
Definition references_once (n : DOM.Node) : Prop :=
  DOM.isElement n = true ->
  forall parent path k,
    exists L,
      flat_map children (records parent n path k) = map elementId L
      /\ Permutation (k :: L) (seq k (size n)).

Section Document.

Variable parseFromString : string -> DOM.Node.

Definition bodyOf (html : nullable string) : DOM.Node :=
  parseFromString (DOMString html).

(** The elements of the parsed markup with their parents, in document order. *)
Definition documentOrder (html : nullable string)
  : list (DOM.Node * DOM.Node) :=
  preorderForest (bodyOf html) (DOM.childNodes (bodyOf html)).

End Document.

End Preorder.

Module Classes.
Import JS SchemaParser Preorder.

(** Token lists, and the rules of the classification. *)

(** A class token as a [DOMTokenList] holds it: not empty, no ASCII white
    space. *)
Definition tokenb (t : string) : bool :=
  negb (t =? "")
  && string_forallb (fun c => negb (DOM.is_ascii_whitespace c)) t.

Fixpoint nodupb (l : list string) : bool :=
  match l with
  | [] => true
  | x :: l' => negb (includes l' x) && nodupb l'
  end.

(** A token list as a [DOMTokenList] holds it: tokens, none of them twice. *)
Definition classListOk (l : list string) : bool :=
  forallb tokenb l && nodupb l.

(** Every element of the subtree has such a token list. *)
Fixpoint documentOk (n : DOM.Node) : bool :=
  match n with
  | DOM.Element _ cl _ cs => classListOk cl && forallb documentOk cs
  | _ => true
  end.

(** The same set of classes, whatever the order: each list is included in the
    other. *)
Definition sameClassSet (a b : list string) : bool :=
  forallb (includes b) a && forallb (includes a) b.

(** The children of [parent] that have the tag name of [node] and its set of
    classes. *)
Definition similarChildren (parent node : DOM.Node) : list DOM.Node :=
  filter (fun c => (DOM.tagName c =? DOM.tagName node)
                   && sameClassSet (DOM.classList c) (DOM.classList node))
         (DOM.children parent).

(** The three rules of the classification, for an element [node] with parent
    element [parent]. *)
Definition Repeatable (parent node : DOM.Node) : Prop :=
  toLowerCase (DOM.tagName node) = "li"
  \/ 2 <= List.length (similarChildren parent node)
  \/ (In (toLowerCase (DOM.tagName node)) repeatableTags
      /\ In (toLowerCase (DOM.tagName parent)) listParentTags).

Definition le (a b : string) : Prop := String.leb a b = true.

Definition spaceless (t : string) : Prop :=
  string_forallb (fun c => negb (Ascii.eqb c " ")) t = true.

(** What follows a token in a joined list: nothing, or a space. *)
Definition boundary (r : string) : Prop :=
  r = "" \/ exists r', r = String " " r'.

Definition rest (l : list string) : string :=
  match l with
  | [] => ""
  | _ :: _ => (" " ++ join " " l)%string
  end.

Definition both_ok (pn : DOM.Node * DOM.Node) : Prop :=
  documentOk (fst pn) = true /\ documentOk (snd pn) = true.

End Classes.

Module Samples.
Import JS SchemaParser.

(** Collections and documents for the examples. *)

Definition leaf (i tg : string) (tx : option string) (cl : list string)
  (at_ : obj) : ElementRecord :=
  {| id := i; tag := tg; classes := cl; attributes := at_; text := tx;
     path := []; children := []; isRepeatable := false |}.

Definition branch (i tg : string) (kids : list string) : ElementRecord :=
  {| id := i; tag := tg; classes := []; attributes := []; text := Some "";
     path := []; children := kids; isRepeatable := false |}.

(** A record whose text is the literal [<script>]. *)
Definition scriptRecord : ElementRecord :=
  leaf "element-0" "div" (Some "<script>") [] [].

Definition scriptMarkup : string := "<div>&lt;script&gt;</div>".

(** A collection with hostile text, class and attribute strings. *)
Definition hostile : list ElementRecord :=
  [ {| id := "element-0"; tag := "div"; classes := ["a&b"; "<c>"];
       attributes :=
         [("title", ("x" ++ quot ++ "><script>")%string); ("data bad", "v")];
       text := Some "1 < 2 && 'q'"; path := [0];
       children := ["element-1"; "element-2"]; isRepeatable := false |};
    leaf "element-1" "123invalid" (Some "lost") [] [];
    leaf "element-2" "span" (Some "<b>") [] [] ].

Definition hostileOutput : Output :=
  (("<div class=" ++ quot ++ "a&amp;b &lt;c&gt;" ++ quot ++ " title=" ++ quot
    ++ "x&quot;&gt;&lt;script&gt;" ++ quot
    ++ ">1 &lt; 2 &amp;&amp; &#039;q&#039;<span>&lt;b&gt;</span></div>")%string,
   ["Invalid tag name: 123invalid"]).

(** A list: a link with an invalid tag between two valid ones. *)
Definition guarded : list ElementRecord :=
  [ branch "element-0" "nav" ["element-1"; "element-2"; "element-3"];
    leaf "element-1" "a" (Some "one") [] [];
    branch "element-2" "123invalid" ["element-4"];
    leaf "element-3" "a" (Some "three") [] [];
    leaf "element-4" "b" (Some "inside") [] [] ].

(** The position of an id of [guarded]. *)
Definition guardedRank (x : string) : nat :=
  if x =? "element-0" then 0
  else if x =? "element-1" then 1
  else if x =? "element-2" then 2
  else if x =? "element-3" then 3
  else 4.

(** A root whose child refers back to it through a cycle. *)
Definition cyclic : list ElementRecord :=
  [ branch "r" "div" ["a"]; branch "a" "div" ["b"]; branch "b" "div" ["a"] ].

(** Three links, two of them with the classes [x] and [y] in different
    orders, and a list of two items. *)
Definition listMarkup : string :=
  ("<div><a class=" ++ quot ++ "x y" ++ quot ++ ">1</a><a class=" ++ quot
   ++ "y x" ++ quot ++ ">2</a><a class=" ++ quot ++ "z" ++ quot
   ++ ">3</a></div>" ++ newline
   ++ "<ul><li>one</li><li>two<b>!</b></li></ul>")%string.

(** The tree a browser builds for [listMarkup]. *)
Definition anchor (cl : list string) (cls tx : string) : DOM.Node :=
  DOM.Element "A" cl [("class", cls)] [DOM.Text tx].

Definition listDiv : DOM.Node :=
  DOM.Element "DIV" [] []
    [anchor ["x"; "y"] "x y" "1"; anchor ["y"; "x"] "y x" "2";
     anchor ["z"] "z" "3"].

Definition listUl : DOM.Node :=
  DOM.Element "UL" [] []
    [DOM.Element "LI" [] [] [DOM.Text "one"];
     DOM.Element "LI" [] []
       [DOM.Text "two"; DOM.Element "B" [] [] [DOM.Text "!"]]].

Definition listBody : DOM.Node :=
  DOM.Element "BODY" [] [] [listDiv; DOM.Text newline; listUl].

Definition scriptBody : DOM.Node :=
  DOM.Element "BODY" [] []
    [DOM.Element "DIV" [] [] [DOM.Text "<script>"]].

Definition emptyBody : DOM.Node := DOM.Element "BODY" [] [] [].

(** A parser for the examples: the trees above for their markup, and a body
    without elements for any other string. *)
Definition sampleParser (html : string) : DOM.Node :=
  if html =? scriptMarkup then scriptBody
  else if html =? listMarkup then listBody
  else emptyBody.

End Samples.

(* ================================================================== *)
(** ** The handlers of the editor component *)
(* ================================================================== *)

Module Editor.
Import JS SchemaParser.

(** The handlers of [src/components/Editor.jsx] that compute a new record
    collection from the current one.  Each is embedded as the collection it
    hands to [setSchema] and to [schemaToHTML]; [schema] is the state the
    handler reads. *)

(** [str.split(sep)] for a separator of one character: the pieces between
    its occurrences, the empty ones included. *)
Fixpoint split (sep : ascii) (s : string) : list string :=
  match s with
  | EmptyString => [EmptyString]
  | String c s' =>
      if Ascii.eqb c sep then EmptyString :: split sep s'
      else
        match split sep s' with
        | [] => [String c EmptyString]
        | piece :: pieces => String c piece :: pieces
        end
  end.

(** The test of [.filter(c => c)] on a string: the empty string is the one
    that is falsy. *)
Definition truthy (s : string) : bool := negb (s =? "").

(** [str.startsWith(p)]. *)
Definition startsWith (p s : string) : bool := String.prefix p s.

Fixpoint skip (n : nat) (s : string) : string :=
  match n, s with
  | 0, _ => s
  | S n', String _ s' => skip n' s'
  | S _, EmptyString => EmptyString
  end.

(** [str.replace(p, by)] for a string [p] and a replacement without [$]:
    the first occurrence of [p] is replaced, the others stay. *)
Fixpoint replaceFirst (p by_ s : string) : string :=
  if String.prefix p s then (by_ ++ skip (String.length p) s)%string
  else
    match s with
    | EmptyString => EmptyString
    | String c s' => String c (replaceFirst p by_ s')
    end.

(** The definition of an own property by an object literal, [{ [k]: v }], or
    by a spread.  Unlike the assignment [o[k] = v] it treats ["__proto__"]
    as any other key. *)
Definition obj_define (k v : string) (o : obj) : obj :=
  if has_key k o then overwrite k v o
  else match array_index k with
       | Some n => insert_index n k v o
       | None => o ++ [(k, v)]
       end.

(** [{ ...o }]: the own properties of [o], defined one by one on a new
    object. *)
Definition spread (o : obj) : obj :=
  fold_left (fun acc kv => obj_define (fst kv) (snd kv) acc) (entries o) [].

(** [{ ...el, id: i }] and the like. *)
Definition with_id (i : string) (e : ElementRecord) : ElementRecord :=
  {| id := i; tag := tag e; classes := classes e;
     attributes := attributes e; text := text e; path := path e;
     children := children e; isRepeatable := isRepeatable e |}.

Definition with_text (t : option string) (e : ElementRecord)
  : ElementRecord :=
  {| id := id e; tag := tag e; classes := classes e;
     attributes := attributes e; text := t; path := path e;
     children := children e; isRepeatable := isRepeatable e |}.

Definition with_classes (cl : list string) (e : ElementRecord)
  : ElementRecord :=
  {| id := id e; tag := tag e; classes := cl;
     attributes := attributes e; text := text e; path := path e;
     children := children e; isRepeatable := isRepeatable e |}.

Definition with_attributes (o : obj) (e : ElementRecord) : ElementRecord :=
  {| id := id e; tag := tag e; classes := classes e;
     attributes := o; text := text e; path := path e;
     children := children e; isRepeatable := isRepeatable e |}.

(** [xs.map((x, idx) => f(x, idx))]. *)
Definition mapi {A B : Type} (f : A -> nat -> B) (xs : list A) : list B :=
  (fix each (xs : list A) (idx : nat) : list B :=
     match xs with
     | [] => []
     | x :: xs' => f x idx :: each xs' (S idx)
     end) xs 0.

(** [updateElementText(elementId, newText)]. *)
Definition updateElementText (schema : list ElementRecord)
  (elementId newText : string) : list ElementRecord :=
  map (fun el =>
         if id el =? elementId then with_text (Some newText) el else el)
      schema.

(** [handleFormUpdate(elementId, field, value)]. *)
Definition handleFormUpdate (schema : list ElementRecord)
  (elementId field value : string) : list ElementRecord :=
  map (fun el =>
         if id el =? elementId then
           if field =? "text" then with_text (Some value) el
           else if field =? "classes" then
             with_classes (filter truthy (split " " value)) el
           else if startsWith "attr_" field then
             let attrName := replaceFirst "attr_" "" field in
             with_attributes
               (obj_define attrName value (spread (attributes el))) el
           else el
         else el)
      schema.

(** [element.text || 'New Item']. *)
Definition text_or_new_item (t : option string) : string :=
  match t with
  | Some s => if s =? "" then "New Item" else s
  | None => "New Item"
  end.

(** [addRepeatableElement(element)]. *)
Definition addRepeatableElement (schema : list ElementRecord)
  (element : ElementRecord) : list ElementRecord :=
  let newElement :=
    with_text (Some (text_or_new_item (text element)))
      (with_id ("element-" ++ Number_toString (List.length schema))
         element) in
  schema ++ [newElement].

(** [removeElement(elementId)]. *)
Definition removeElement (schema : list ElementRecord) (elementId : string)
  : list ElementRecord :=
  let updatedSchema :=
    filter (fun el => negb (id el =? elementId)) schema in
  let reindexed :=
    mapi (fun el idx => with_id ("element-" ++ Number_toString idx) el)
         updatedSchema in
  reindexed.

End Editor.

(* ================================================================== *)
(** ** Further vocabulary: objects, collections and edits *)
(* ================================================================== *)

Module Objects.
Import JS SchemaParser.

(** The keys of an object in the order in which the object lists them: no
    key twice, the array indices first and ascending, then the other keys. *)
Definition is_index (k : string) : bool :=
  match array_index k with Some _ => true | None => false end.

Definition index_above (n : N) (k : string) : bool :=
  match array_index k with Some m => (n <? m)%N | None => true end.

Fixpoint canonicalKeys (ks : list string) : bool :=
  match ks with
  | [] => true
  | k :: ks' =>
      negb (existsb (String.eqb k) ks')
      && match array_index k with
         | Some n => forallb (index_above n) ks'
         | None => forallb (fun k' => negb (is_index k')) ks'
         end
      && canonicalKeys ks'
  end.

Definition keys (o : obj) : list string := map fst o.

Definition canonical (o : obj) : bool := canonicalKeys (keys o).

(** [o[k]], [None] where the object has no such property. *)
Fixpoint get (k : string) (o : obj) : option string :=
  match o with
  | [] => None
  | (k', v) :: o' => if k' =? k then Some v else get k o'
  end.

(** The attribute names that the extractor does not copy: [class], which it
    skips, and [__proto__], which an assignment does not create. *)
Definition dropped (k : string) : bool :=
  (k =? "class") || (k =? "__proto__").

End Objects.

Module Whitespace.
Import JS.

(** A string that starts, and one that ends, with a character that [trim]
    keeps. *)
Definition starts_clean (s : string) : bool :=
  match s with
  | EmptyString => false
  | String c _ => negb (is_space c)
  end.

Fixpoint ends_clean (s : string) : bool :=
  match s with
  | EmptyString => false
  | String c EmptyString => negb (is_space c)
  | String _ s' => ends_clean s'
  end.

Definition tidy (s : string) : bool := starts_clean s && ends_clean s.

End Whitespace.

Module Paths.
Import JS SchemaParser Preorder.

(** The record at offset [i] of the records [rs], which start at position
    [base], has the path [prefix] and its own position if it is one of the
    top-level positions [tops], and the path of the record that lists it as a
    child and its own position otherwise. *)
Definition path_from (rs : list ElementRecord) (prefix : list nat)
  (base : nat) (tops : list nat) (i : nat) (r : ElementRecord) : Prop :=
  id r = elementId (base + i)
  /\ ((path r = prefix ++ [base + i] /\ In (base + i) tops)
      \/ exists j rj,
           j < i /\ nth_error rs j = Some rj /\ In (id r) (children rj)
           /\ path r = path rj ++ [base + i]).

Definition paths_chained (n : DOM.Node) : Prop :=
  forall parent prefix k i r,
    nth_error (records parent n prefix k) i = Some r ->
    path_from (records parent n prefix k) prefix k [k] i r.

End Paths.

Module Editing.
Import JS SchemaParser Preorder Editor Objects.

(** The ids of a collection are [element-0], [element-1], ... in order. *)
Definition consecutive (schema : list ElementRecord) : Prop :=
  map id schema = map elementId (seq 0 (List.length schema)).

(** Every child reference of the record at position [i] is the id of a
    later position. *)
Definition forward (schema : list ElementRecord) : Prop :=
  forall i r c,
    nth_error schema i = Some r -> In c (children r) ->
    exists j, c = elementId j /\ i < j.

(** No record refers to the id [x]. *)
Definition unreferenced (schema : list ElementRecord) (x : string) : Prop :=
  forall r, In r schema -> ~ In x (children r).

(** The clone that [addRepeatableElement] appends. *)
Definition clone (schema : list ElementRecord) (element : ElementRecord)
  : ElementRecord :=
  with_text (Some (text_or_new_item (text element)))
    (with_id (elementId (List.length schema)) element).

(** One step of the editor on its collection.  The inspector offers
    [addRepeatableElement] for the records of the collection. *)
Inductive step (schema : list ElementRecord)
  : list ElementRecord -> Prop :=
| step_text (x t : string) : step schema (updateElementText schema x t)
| step_form (x f v : string) : step schema (handleFormUpdate schema x f v)
| step_add (e : ElementRecord) :
    In e schema -> step schema (addRepeatableElement schema e)
| step_remove (x : string) : step schema (removeElement schema x).

(** An edit that appends no record. *)
Inductive revision (schema : list ElementRecord)
  : list ElementRecord -> Prop :=
| revision_text (x t : string) :
    revision schema (updateElementText schema x t)
| revision_form (x f v : string) :
    revision schema (handleFormUpdate schema x f v)
| revision_remove (x : string) : revision schema (removeElement schema x).

Section States.

Variable parseFromString : string -> DOM.Node.

(** The collections that the editor can hold: the empty one it starts with,
    what [updateSchema] extracts from the markup, and what a handler makes of
    a collection it holds. *)
Inductive reachable : list ElementRecord -> Prop :=
| reachable_initial : reachable []
| reachable_parsed (html : nullable string) :
    reachable (parseHTMLToSchema parseFromString html)
| reachable_step (schema schema' : list ElementRecord) :
    reachable schema -> step schema schema' -> reachable schema'.

(** The collections made from an extracted one by edits that append no
    record. *)
Inductive revised : list ElementRecord -> Prop :=
| revised_parsed (html : nullable string) :
    revised (parseHTMLToSchema parseFromString html)
| revised_step (schema schema' : list ElementRecord) :
    revised schema -> revision schema schema' -> revised schema'.

End States.

(** A class name that the [classes] field can hold on its own: not empty,
    no space. *)
Definition classToken (t : string) : bool :=
  truthy t && string_forallb (fun c => negb (Ascii.eqb c " ")) t.

(** The class names that a value of the [classes] field holds: the value
    is made of spaces and of names, each name followed by a space or by the
    end of the value, and the list holds the names in their order. *)
Inductive Pieces : string -> list string -> Prop :=
| Pieces_end : Pieces "" []
| Pieces_space (s : string) (l : list string) :
    Pieces s l -> Pieces (String " " s) l
| Pieces_name (t s : string) (l : list string) :
    classToken t = true ->
    (s = "" \/ exists s', s = String " " s') ->
    Pieces s l -> Pieces (t ++ s) (t :: l).

(** A record whose classes the [classes] field can hold and whose
    attributes are listed as an object lists them. *)
Definition kept (e : ElementRecord) : bool :=
  forallb classToken (classes e) && canonical (attributes e).

(** The parts of a record that no edit of a field changes. *)
Definition skeleton (e : ElementRecord)
  : string * string * list string * list nat * bool :=
  (id e, tag e, children e, path e, isRepeatable e).

(** The parts of a record that the serializer reads. *)
Definition serialized (e : ElementRecord) : ElementRecord :=
  {| id := id e; tag := tag e; classes := classes e;
     attributes := attributes e; text := text e; path := [];
     children := children e; isRepeatable := false |}.

(** A string without any of the five characters that [escapeHTML]
    replaces. *)
Definition plain (s : string) : bool :=
  string_forallb (fun c => negb (Markup.special c)) s.

(** A record that the two revisions of the serializer render alike. *)
Definition benign (e : ElementRecord) : bool :=
  isValidTagName (tag e)
  && forallb plain (classes e)
  && forallb (fun kv => safe_name_test (fst kv) && plain (snd kv))
             (entries (attributes e))
  && plain (text_or_empty (text e)).

End Editing.

Module Showcase.
Import JS SchemaParser Editor Samples.

(** A menu of two links, as markup, as the tree a browser builds for it, and
    as a collection of records. *)
Definition menuMarkup : string :=
  ("<nav id=" ++ quot ++ "menu" ++ quot ++ "><a href=" ++ quot ++ "#top"
   ++ quot ++ " class=" ++ quot ++ "btn primary" ++ quot ++ " title=" ++ quot
   ++ "Go" ++ quot ++ "> Go </a><a href=" ++ quot ++ "#end" ++ quot
   ++ " class=" ++ quot ++ "btn" ++ quot ++ ">End</a></nav>")%string.

Definition menuTop : DOM.Node :=
  DOM.Element "A" ["btn"; "primary"]
    [("href", "#top"); ("class", "btn primary"); ("title", "Go")]
    [DOM.Text " Go "].

Definition menuEnd : DOM.Node :=
  DOM.Element "A" ["btn"] [("href", "#end"); ("class", "btn")]
    [DOM.Text "End"].

Definition menuNav : DOM.Node :=
  DOM.Element "NAV" [] [("id", "menu")] [menuTop; menuEnd].

Definition menuBody : DOM.Node := DOM.Element "BODY" [] [] [menuNav].

Definition menuParser (html : string) : DOM.Node :=
  if html =? menuMarkup then menuBody else emptyBody.

Definition menu : list ElementRecord :=
  [ branch "element-0" "nav" ["element-1"; "element-2"];
    leaf "element-1" "a" (Some "Go") ["btn"; "primary"]
      [("href", "#top"); ("title", "Go")];
    leaf "element-2" "a" (Some "End") ["btn"] [("href", "#end")] ].

Definition nobody : ElementRecord := leaf "" "" None [] [].

End Showcase.


(* ================================================================== *)
(** ** The markup parser of the browser, on the serializer's markup *)
(* ================================================================== *)

Module Browser.
Import JS.

(** Modelled from the spec: the markup-parsing facility that the extractor
    requires ([DOMParser] in a browser), which is no code of the repository.
    The spec asks of it the behaviour of a browser, entity decoding named,
    closely enough that round-tripping is stable for well-formed input.  The
    model reads markup of the shape that the serializer emits, as the HTML
    parser of a browser reads it: start tags with attributes between double
    quotes, text with the five character references that [escapeHTML]
    writes, end tags that close the element that is open, and only elements
    that the HTML parser treats as plain containers.  For every other
    string it gives [None]: what a browser makes of it is not modelled. *)

(** Names of tags and attributes are lower-cased, and [tagName] is
    upper-cased, on the letters A to Z only. *)
Definition asciiLower (s : string) : string :=
  string_map (fun c => if is_upper c then ascii_of_nat (code c + 32) else c) s.

Definition asciiUpper (s : string) : string :=
  string_map (fun c => if is_lower c then ascii_of_nat (code c - 32) else c) s.

(** The elements for which the tree builder has no rule of its own beyond
    inserting the element, when no other kind of element is open: it closes
    no open element, gives the element no implied end and does not read its
    content in another way. *)
Definition plainTags : list string :=
  ["address"; "article"; "aside"; "blockquote"; "div"; "figcaption";
   "figure"; "footer"; "header"; "main"; "nav"; "ol"; "section"; "span";
   "ul"].

Definition plainTag (name : string) : bool :=
  existsb (String.eqb name) plainTags.

(** A character that stands for itself in text and in an attribute value:
    not [&], which opens a character reference, and neither U+0000 nor CR,
    which the parser does not keep as they are. *)
Definition literal (c : ascii) : bool :=
  negb (Ascii.eqb c "&") && negb (code c =? 0)%nat && negb (code c =? 13)%nat.

(** Modelled from the spec: entity decoding.  Character data with its
    character references replaced: [&amp;], [&lt;], [&gt;], [&quot;] and
    [&#039;]; [None] for any other use of [&]. *)
Fixpoint decode (s : string) : option string :=
  match s with
  | EmptyString => Some EmptyString
  | String "&" (String "a" (String "m" (String "p" (String ";" r)))) =>
      option_map (String "&") (decode r)
  | String "&" (String "l" (String "t" (String ";" r))) =>
      option_map (String "<") (decode r)
  | String "&" (String "g" (String "t" (String ";" r))) =>
      option_map (String ">") (decode r)
  | String "&" (String "q" (String "u" (String "o" (String "t"
      (String ";" r))))) =>
      option_map (String "034") (decode r)
  | String "&" (String "#" (String "0" (String "3" (String "9"
      (String ";" r))))) =>
      option_map (String "'") (decode r)
  | String c r => if literal c then option_map (String c) (decode r) else None
  end.

(** ASCII white space: TAB, LF, FF and SPACE; CR is not kept as it is. *)
Definition blank (c : ascii) : bool :=
  (code c =? 9)%nat || (code c =? 10)%nat || (code c =? 12)%nat
  || (code c =? 32)%nat.

(** The tokens of a [class] attribute, as a [DOMTokenList] holds them: the
    runs of characters other than white space, each once, in the order of
    their first occurrence. *)
Fixpoint runs (cur : string) (s : string) : list string :=
  match s with
  | EmptyString => if cur =? "" then [] else [cur]
  | String c s' =>
      if blank c || (code c =? 13)%nat
      then if cur =? "" then runs "" s' else cur :: runs "" s'
      else runs (cur ++ String c "") s'
  end.

Fixpoint once (seen : list string) (l : list string) : list string :=
  match l with
  | [] => []
  | x :: l' =>
      if existsb (String.eqb x) seen then once seen l'
      else x :: once (x :: seen) l'
  end.

Definition tokensOf (value : string) : list string := once [] (runs "" value).

(** Of several attributes with one name the first is kept. *)
Fixpoint firstOfEach (seen : list string) (l : list (string * string))
  : list (string * string) :=
  match l with
  | [] => []
  | (k, v) :: l' =>
      if existsb (String.eqb k) seen then firstOfEach seen l'
      else (k, v) :: firstOfEach (k :: seen) l'
  end.

Fixpoint valueOf (k : string) (l : list (string * string)) : option string :=
  match l with
  | [] => None
  | (k', v) :: l' => if k' =? k then Some v else valueOf k l'
  end.

(** An element that is open: its name, its attributes, and its children so
    far, the latest first. *)
Record Open : Type := mkOpen {
  name : string;
  attrs : list (string * string);
  kids : list DOM.Node
}.

Definition addKid (n : DOM.Node) (o : Open) : Open :=
  {| name := name o; attrs := attrs o; kids := n :: kids o |}.

Definition elementOf (o : Open) : DOM.Node :=
  DOM.Element (asciiUpper (name o))
    (match valueOf "class" (attrs o) with
     | Some v => tokensOf v
     | None => []
     end)
    (attrs o) (rev (kids o)).

(** Where the parser stands in the markup. *)
Inductive Mode : Type :=
| Data (raw : string)
| TagOpen
| TagName (n : string)
| AttrName (n : string) (ats : list (string * string)) (k : string)
| AttrQuote (n : string) (ats : list (string * string)) (k : string)
| AttrValue (n : string) (ats : list (string * string)) (k : string)
            (raw : string)
| AfterValue (n : string) (ats : list (string * string))
| EndName (n : string).

(** The text read so far becomes a text node of the open element. *)
Definition flush (raw : string) (st : list Open) : option (list Open) :=
  if raw =? "" then Some st
  else
    match decode raw, st with
    | Some t, top :: st' => Some (addKid (DOM.Text t) top :: st')
    | _, _ => None
    end.

Definition openTag (n : string) (ats : list (string * string))
  (st : list Open) : option (list Open) :=
  if plainTag (asciiLower n)
  then Some ({| name := asciiLower n; attrs := firstOfEach [] ats;
                kids := [] |} :: st)
  else None.

Definition closeTag (n : string) (st : list Open) : option (list Open) :=
  match st with
  | top :: parent :: st' =>
      if name top =? asciiLower n
      then Some (addKid (elementOf top) parent :: st')
      else None
  | _ => None
  end.

(** Modelled from the spec: one character of markup, as the tokenizer and
    the tree builder of a browser handle it; [None] where the markup leaves
    what is modelled. *)
Definition advance (m : Mode) (st : list Open) (c : ascii)
  : option (Mode * list Open) :=
  match m with
  | Data raw =>
      if Ascii.eqb c "<"
      then option_map (pair TagOpen) (flush raw st)
      else Some (Data (raw ++ String c ""), st)
  | TagOpen =>
      if Ascii.eqb c "/" then Some (EndName "", st)
      else if is_alpha c then Some (TagName (String c ""), st)
      else None
  | TagName n =>
      if Ascii.eqb c ">" then option_map (pair (Data "")) (openTag n [] st)
      else if Ascii.eqb c " " then Some (AttrName n [] "", st)
      else if name_char c then Some (TagName (n ++ String c ""), st)
      else None
  | AttrName n ats k =>
      if Ascii.eqb c "="
      then if safe_name_test k then Some (AttrQuote n ats k, st) else None
      else if name_char c then Some (AttrName n ats (k ++ String c ""), st)
      else None
  | AttrQuote n ats k =>
      if Ascii.eqb c "034" then Some (AttrValue n ats k "", st) else None
  | AttrValue n ats k raw =>
      if Ascii.eqb c "034" then
        match decode raw with
        | Some v => Some (AfterValue n (ats ++ [(asciiLower k, v)]), st)
        | None => None
        end
      else Some (AttrValue n ats k (raw ++ String c ""), st)
  | AfterValue n ats =>
      if Ascii.eqb c ">" then option_map (pair (Data "")) (openTag n ats st)
      else if Ascii.eqb c " " then Some (AttrName n ats "", st)
      else None
  | EndName n =>
      if Ascii.eqb c ">" then option_map (pair (Data "")) (closeTag n st)
      else if name_char c then Some (EndName (n ++ String c ""), st)
      else None
  end.

(** At the end of the markup only [body] is open. *)
Definition finish (m : Mode) (st : list Open) : option DOM.Node :=
  match m with
  | Data raw =>
      match flush raw st with
      | Some [body] => Some (DOM.Element "BODY" [] [] (rev (kids body)))
      | _ => None
      end
  | _ => None
  end.

Fixpoint run (m : Mode) (st : list Open) (s : string) : option DOM.Node :=
  match s with
  | EmptyString => finish m st
  | String c s' =>
      match advance m st c with
      | Some (m', st') => run m' st' s'
      | None => None
      end
  end.

(** White space before the first tag or text of a document is dropped. *)
Fixpoint skipBlank (s : string) : string :=
  match s with
  | EmptyString => EmptyString
  | String c s' => if blank c then skipBlank s' else s
  end.

(** Modelled from the spec:
    [new DOMParser().parseFromString(html, 'text/html').body], where it is
    modelled. *)
Definition parse (html : string) : option DOM.Node :=
  run (Data "") [{| name := "body"; attrs := []; kids := [] |}]
      (skipBlank html).

(** A parser that is [parse] where that is defined. *)
Definition parser (html : string) : DOM.Node :=
  match parse html with
  | Some body => body
  | None => DOM.Element "BODY" [] [] []
  end.

End Browser.

Module Roundtrip.
Import JS SchemaParser Browser.

(** Serializing and extracting again. *)

(** The records that [buildElement(elementId)] emits, in the order of their
    start tags: the record of the id, if there is one and its tag is valid,
    and then what is emitted for its children. *)
Section Emitted.

Variable elements : list ElementRecord.

Fixpoint emitted (fuel : nat) (elementId : string)
  : option (list ElementRecord) :=
  match fuel with
  | 0 => None
  | S fuel' =>
      match findElement elements elementId with
      | None => Some []
      | Some element =>
          if negb (isValidTagName (tag element)) then Some []
          else
            match map_returning (emitted fuel') (children element) with
            | None => None
            | Some below => Some (element :: List.concat below)
            end
      end
  end.

Definition emittedRoots (fuel : nat) : option (list ElementRecord) :=
  match map_returning (fun el => emitted fuel (id el))
          (rootElements elements) with
  | None => None
  | Some below => Some (List.concat below)
  end.

End Emitted.

(** A string without U+0000 and without CR. *)
Definition clean (s : string) : bool :=
  string_forallb (fun c => negb (code c =? 0)%nat && negb (code c =? 13)%nat)
                 s.

(** A record whose markup the model of the parser reads: if its tag is
    valid, it is the tag of a plain container, and the text, the classes and
    the values of the attributes that are emitted are clean. *)
Definition parsable (e : ElementRecord) : bool :=
  if isValidTagName (tag e) then
    plainTag (asciiLower (tag e))
    && clean (text_or_empty (text e))
    && forallb clean (classes e)
    && forallb (fun kv => negb (safe_name_test (fst kv)) || clean (snd kv))
               (entries (attributes e))
  else true.

(** The tag and the text of a record. *)
Definition label (r : ElementRecord) : string * option string :=
  (tag r, text r).















End Roundtrip.


(* ================================================================== *)
(** ** Proofs *)
(* ================================================================== *)

Module Trees.

(** Induction over a tree whose children are already covered. *)
Lemma Node_tree_ind (P : DOM.Node -> Prop) :
  (forall t c a cs, Forall P cs -> P (DOM.Element t c a cs)) ->
  (forall s, P (DOM.Text s)) ->
  (forall s, P (DOM.Comment s)) ->
  forall n, P n.
Proof.
  intros HE HT HC.
  fix IH 1.
  intros [t c a cs | s | s]; [ | apply HT | apply HC ].
  apply HE.
  induction cs as [ | x cs IHcs ]; constructor; [ apply IH | exact IHcs ].
Qed.

End Trees.

Module ProjectionFacts.
Import JS SchemaParser Projection.

(** *** The field projector *)

Lemma fold_push {A B : Type} (f : A -> B) (l : list A) (acc : list B) :
  fold_left (fun acc x => push acc (f x)) l acc = acc ++ map f l.
Proof.
  revert acc.
  induction l as [ | x l IH ]; intro acc; simpl.
  - now rewrite app_nil_r.
  - rewrite IH. unfold push. now rewrite <- app_assoc.
Qed.

(** C8. Field projection ordering.  For every record, [generateFormFields]
    returns the [tag] field (read-only, holding the tag), then the [text]
    field when the record defines a text, then the [classes] field holding
    the classes joined by one space, then one field per attribute, named
    [attr_] followed by the key and holding the value, in the order of
    [Object.entries].  For classes [a], [b] and attributes [href], [id] the
    fields are [tag], [text], [classes], [attr_href], [attr_id] with the
    values of the tag, the text, [a b], [#] and [x]. *)
Theorem generateFormFields_order :
  (forall e : ElementRecord,
      generateFormFields e =
        tagField e
          :: match text e with Some t => [textField t] | None => [] end
          ++ classesField e :: map attrField (entries (attributes e)))
  /\ (forall i tg tx p ch rp,
        let e := {| id := i; tag := tg; classes := ["a"; "b"];
                    attributes := obj_set "id" "x" (obj_set "href" "#" []);
                    text := Some tx; path := p; children := ch;
                    isRepeatable := rp |} in
        map name (generateFormFields e)
          = ["tag"; "text"; "classes"; "attr_href"; "attr_id"]
        /\ map value (generateFormFields e) = [tg; tx; "a b"; "#"; "x"]
        /\ map readonly (generateFormFields e)
          = [Some true; None; None; None; None]).
Proof.
  split.
  - intro e. unfold generateFormFields.
    rewrite (fold_push attrField).
    destruct (text e) as [ t | ]; reflexivity.
  - intros. repeat split.
Qed.

End ProjectionFacts.

Module MarkupFacts.
Import JS SchemaParser Markup Samples.

(** *** Escaping, and the shape of what the serializer emits *)

Lemma append_assoc (a b c : string) :
  ((a ++ b) ++ c = a ++ (b ++ c))%string.
Proof. induction a as [ | x a IH ]; simpl; [ | rewrite IH ]; reflexivity. Qed.

Lemma append_empty_r (a : string) : (a ++ "")%string = a.
Proof. induction a as [ | x a IH ]; simpl; [ | rewrite IH ]; reflexivity. Qed.

Lemma replace_app c r a b :
  replace c r (a ++ b) = (replace c r a ++ replace c r b)%string.
Proof.
  induction a as [ | x a IH ]; simpl; [ reflexivity | ].
  destruct (Ascii.eqb x c); rewrite IH; simpl.
  - now rewrite append_assoc.
  - reflexivity.
Qed.

Lemma replace_cons c r a s :
  replace c r (String a s)
  = if Ascii.eqb a c then (r ++ replace c r s)%string
    else String a (replace c r s).
Proof. reflexivity. Qed.

Lemma escape_chain_cons c s :
  replace "'" "&#039;" (replace "034" "&quot;" (replace ">" "&gt;"
    (replace "<" "&lt;" (replace "&" "&amp;" (String c s)))))
  = (escapeChar c ++
     replace "'" "&#039;" (replace "034" "&quot;" (replace ">" "&gt;"
       (replace "<" "&lt;" (replace "&" "&amp;" s)))))%string.
Proof.
  unfold escapeChar. rewrite (replace_cons "&").
  destruct (Ascii.eqb c "&") eqn:E1.
  { rewrite !replace_app. reflexivity. }
  rewrite (replace_cons "<").
  destruct (Ascii.eqb c "<") eqn:E2.
  { rewrite !replace_app. reflexivity. }
  rewrite (replace_cons ">").
  destruct (Ascii.eqb c ">") eqn:E3.
  { rewrite !replace_app. reflexivity. }
  rewrite (replace_cons "034").
  destruct (Ascii.eqb c "034") eqn:E4.
  { rewrite !replace_app. reflexivity. }
  rewrite (replace_cons "'").
  destruct (Ascii.eqb c "'") eqn:E5; reflexivity.
Qed.

Lemma escapeHTML_chars s : escapeHTML s = escapeChars s.
Proof.
  unfold escapeHTML.
  destruct (String.eqb_spec s "") as [ -> | _ ]; [ reflexivity | ].
  induction s as [ | c s IH ]; [ reflexivity | ].
  rewrite escape_chain_cons, IH. reflexivity.
Qed.

Lemma prefix_app p s t :
  String.prefix p s = true -> String.prefix p (s ++ t) = true.
Proof.
  revert s.
  induction p as [ | c p IH ]; intros s H.
  - now destruct (s ++ t)%string.
  - destruct s as [ | d s ]; simpl in *; [ discriminate | ].
    destruct (ascii_dec c d); [ now apply IH | discriminate ].
Qed.

Lemma entity_follows_app s t :
  entity_follows s = true -> entity_follows (s ++ t) = true.
Proof.
  unfold entity_follows. rewrite !orb_true_iff.
  intuition auto using prefix_app.
Qed.

Lemma escaped_app s t :
  escaped s = true -> escaped t = true -> escaped (s ++ t) = true.
Proof.
  intros Hs Ht.
  induction s as [ | c s IH ]; simpl in *; [ exact Ht | ].
  destruct (Ascii.eqb c "&").
  - apply andb_true_iff in Hs as [H1 H2].
    rewrite (entity_follows_app _ _ H1). auto.
  - apply andb_true_iff in Hs as [H1 H2]. rewrite H1. auto.
Qed.

Lemma prefix_here p s : String.prefix p (p ++ s) = true.
Proof.
  induction p as [ | c p IH ]; simpl.
  - now destruct s.
  - destruct (ascii_dec c c); [ exact IH | congruence ].
Qed.

Lemma escaped_entity p s :
  entity_follows p = true -> escaped p = true -> escaped s = true ->
  escaped (String "&" (p ++ s)) = true.
Proof.
  intros Hp Hq Hs. simpl.
  rewrite (entity_follows_app _ _ Hp). now apply escaped_app.
Qed.

Lemma escapeChar_escaped c s :
  escaped s = true -> escaped (escapeChar c ++ s) = true.
Proof.
  intro Hs. unfold escapeChar.
  destruct (Ascii.eqb c "&") eqn:E1;
    [ now apply (escaped_entity "amp;") | ].
  destruct (Ascii.eqb c "<") eqn:E2;
    [ now apply (escaped_entity "lt;") | ].
  destruct (Ascii.eqb c ">") eqn:E3;
    [ now apply (escaped_entity "gt;") | ].
  destruct (Ascii.eqb c "034") eqn:E4;
    [ now apply (escaped_entity "quot;") | ].
  destruct (Ascii.eqb c "'") eqn:E5;
    [ now apply (escaped_entity "#039;") | ].
  simpl. unfold special. rewrite E1, E2, E3, E4, E5. exact Hs.
Qed.

Lemma escapeHTML_escaped s : escaped (escapeHTML s) = true.
Proof.
  rewrite escapeHTML_chars.
  induction s as [ | c s IH ]; [ reflexivity | ].
  simpl. now apply escapeChar_escaped.
Qed.

Lemma name_char_plain c : name_char c = true -> escapeChar c = String c "".
Proof.
  destruct c as [[] [] [] [] [] [] [] []]; try discriminate; reflexivity.
Qed.

Lemma name_chars_plain s :
  string_forallb name_char s = true -> escapeChars s = s.
Proof.
  induction s as [ | c s IH ]; simpl; [ reflexivity | ].
  intros [Hc Hs]%andb_true_iff.
  rewrite (name_char_plain _ Hc), IH by exact Hs. reflexivity.
Qed.

Lemma safe_name_plain k : safe_name_test k = true -> escapeHTML k = k.
Proof.
  rewrite escapeHTML_chars.
  destruct k as [ | c k ]; [ discriminate | ].
  intros [Hc Hk]%andb_true_iff.
  apply name_chars_plain. simpl. rewrite Hk, andb_true_r.
  unfold name_char. now rewrite Hc.
Qed.

Lemma escaped_join_classes l :
  escaped (join " " (map escapeHTML l)) = true.
Proof.
  induction l as [ | c l IH ]; [ reflexivity | ].
  destruct l as [ | d l ]; [ apply escapeHTML_escaped | ].
  change (join " " (map escapeHTML (c :: d :: l)))
    with (escapeHTML c ++ " " ++ join " " (map escapeHTML (d :: l)))%string.
  apply escaped_app; [ apply escapeHTML_escaped | exact IH ].
Qed.

Lemma fold_push_if {A B : Type} (keep : A -> bool) (f : A -> B)
  (l : list A) (acc : list B) :
  fold_left (fun acc x => if keep x then push acc (f x) else acc) l acc
  = acc ++ map f (filter keep l).
Proof.
  revert acc.
  induction l as [ | x l IH ]; intro acc; simpl.
  - now rewrite app_nil_r.
  - rewrite IH. destruct (keep x); [ | reflexivity ].
    unfold push. now rewrite <- app_assoc.
Qed.

Lemma buildAttrs_eq e :
  buildAttrs e =
    classAttr e
      ++ map renderAttr
           (filter (fun kv => safe_name_test (fst kv))
                   (entries (attributes e))).
Proof.
  unfold buildAttrs.
  rewrite (fold_push_if (fun kv => safe_name_test (fst kv)) renderAttr).
  unfold classAttr. destruct (classes e); reflexivity.
Qed.

Lemma buildAttrs_wellformed e : Forall Attribute (buildAttrs e).
Proof.
  rewrite buildAttrs_eq. apply Forall_app. split.
  - unfold classAttr. destruct (classes e) as [ | c l ] eqn:E; constructor;
      [ | constructor ].
    apply (Attribute_intro "class"); [ reflexivity | ].
    apply escaped_join_classes.
  - apply Forall_forall. intros a Ha.
    apply in_map_iff in Ha as [[k v] [<- Hkv]].
    apply filter_In in Hkv as [_ Hk]. simpl in Hk.
    unfold renderAttr. simpl. rewrite (safe_name_plain _ Hk).
    constructor; [ exact Hk | apply escapeHTML_escaped ].
Qed.

Lemma map_returning_Forall {A B : Type} (f : A -> option B) (P : B -> Prop)
  (xs : list A) (ys : list B) :
  map_returning f xs = Some ys ->
  (forall x y, In x xs -> f x = Some y -> P y) ->
  Forall P ys.
Proof.
  revert ys.
  induction xs as [ | x xs IH ]; simpl; intros ys H HP.
  - injection H as <-. constructor.
  - destruct (f x) as [ y | ] eqn:Ex; [ | discriminate ].
    destruct (map_returning f xs) as [ ys' | ]; [ | discriminate ].
    injection H as <-. constructor; eauto.
Qed.

Lemma buildElement_fragment elements fuel :
  forall x o, buildElement elements fuel x = Some o -> Fragment (markup o).
Proof.
  induction fuel as [ | fuel IH ]; intros x o H; [ discriminate | ].
  simpl in H.
  destruct (findElement elements x) as [ e | ];
    [ | injection H as <-; constructor ].
  destruct (isValidTagName (tag e)) eqn:Etag; simpl in H;
    [ | injection H as <-; constructor ].
  destruct (map_returning (buildElement elements fuel) (children e))
    as [ built | ] eqn:Eb; [ | discriminate ].
  injection H as <-. unfold markup at 1. simpl fst.
  apply Fragment_element.
  - exact Etag.
  - apply buildAttrs_wellformed.
  - apply escapeHTML_escaped.
  - apply Forall_map.
    apply (map_returning_Forall _ (fun o => Fragment (markup o)) _ _ Eb).
    intros c o _ Hc. exact (IH c o Hc).
Qed.

Lemma buildElement_wrap elements fuel x o :
  buildElement elements (S fuel) x = Some o ->
  markup o = ""
  \/ exists e built,
      findElement elements x = Some e
      /\ isValidTagName (tag e) = true
      /\ map_returning (buildElement elements fuel) (children e) = Some built
      /\ markup o = wrap e (join "" (map markup built)).
Proof.
  simpl. intro H.
  destruct (findElement elements x) as [ e | ];
    [ | injection H as <-; now left ].
  destruct (isValidTagName (tag e)) eqn:Etag; simpl in H;
    [ | injection H as <-; now left ].
  destruct (map_returning (buildElement elements fuel) (children e))
    as [ built | ] eqn:Eb; [ | discriminate ].
  injection H as <-. right. exists e, built. auto.
Qed.

(** C2. Well-formedness of the serializer's output.  [escapeHTML] replaces
    each of the five characters [&], [<], [>], quote and apostrophe by its
    character reference and keeps every other character, so its result has
    none of [<], [>], quote or apostrophe and no [&] other than the start of
    a reference.  Every attribute that [buildElement] emits is a name that
    passes the name test with such a value between quotes, and every element
    it emits is its tag, these attributes, its text escaped by [escapeHTML]
    and the markup of its children.  So whatever collection is given,
    including one with hostile text, class or attribute strings, the markup
    that [schemaToHTML] returns is a newline-separated list of fragments in
    which every tag and attribute name passes the name test and every
    attribute value and text is escaped. *)
Theorem serializer_output_escaped :
  forall (elements : nullable (list ElementRecord)) (fuel : nat) (o : Output),
    schemaToHTML fuel elements = Some o ->
    (forall s, escapeHTML s = escapeChars s /\ escaped (escapeHTML s) = true)
    /\ (forall e, Forall Attribute (buildAttrs e))
    /\ (forall els depth x built,
          buildElement els (S depth) x = Some built ->
          markup built = ""
          \/ exists e inner,
              findElement els x = Some e
              /\ isValidTagName (tag e) = true
              /\ map_returning (buildElement els depth) (children e)
                 = Some inner
              /\ markup built = wrap e (join "" (map markup inner)))
    /\ exists roots, markup o = join newline roots /\ Forall Fragment roots.
Proof.
  intros elements fuel o H.
  split; [ intro s; split;
           [ apply escapeHTML_chars | apply escapeHTML_escaped ] | ].
  split; [ exact buildAttrs_wellformed | ].
  split; [ exact buildElement_wrap | ].
  destruct elements as [ | | els ]; simpl in H;
    try (injection H as <-; exists []; split; [ reflexivity | constructor ]).
  destruct (List.length els =? 0)%nat;
    [ injection H as <-; exists []; split; [ reflexivity | constructor ] | ].
  unfold buildRoots in H.
  destruct (map_returning _ (rootElements els)) as [ built | ] eqn:Eb;
    [ | discriminate ].
  injection H as <-. exists (map markup built). split; [ reflexivity | ].
  apply Forall_map.
  apply (map_returning_Forall _ (fun o => Fragment (markup o)) _ _ Eb).
  intros e o _ He. exact (buildElement_fragment _ _ _ _ He).
Qed.

(** The statement of C2 at a collection whose text, classes and attribute
    value carry all five special characters. *)
Lemma serializer_output_escaped_witness :
  schemaToHTML 2 (JS.value hostile) = Some hostileOutput
  /\ escapeHTML "1 < 2 && 'q'" = "1 &lt; 2 &amp;&amp; &#039;q&#039;"
  /\ exists roots,
      markup hostileOutput = join newline roots /\ Forall Fragment roots.
Proof.
  split; [ reflexivity | split; [ reflexivity | ] ].
  destruct (serializer_output_escaped (JS.value hostile) 2 hostileOutput
              eq_refl) as (_ & _ & _ & Hroots).
  exact Hroots.
Defined.

End MarkupFacts.

Module SerializerFacts.
Import JS SchemaParser Markup MarkupFacts Samples.

(** *** The guards of the serializer *)

Lemma map_returning_app {A B : Type} (f : A -> option B) (xs ys : list A)
  (bx bys : list B) :
  map_returning f xs = Some bx -> map_returning f ys = Some bys ->
  map_returning f (xs ++ ys) = Some (bx ++ bys).
Proof.
  revert bx.
  induction xs as [ | x xs IH ]; simpl; intros bx Hx Hy.
  - injection Hx as <-. exact Hy.
  - destruct (f x) as [ y | ]; [ | discriminate ].
    destruct (map_returning f xs) as [ bx' | ]; [ | discriminate ].
    injection Hx as <-. now rewrite (IH bx' eq_refl Hy).
Qed.

Lemma join_empty_cons x l : join "" (x :: l) = (x ++ join "" l)%string.
Proof.
  destruct l as [ | y l ]; simpl; [ now rewrite append_empty_r | reflexivity ].
Qed.

Lemma join_empty_app l1 l2 :
  join "" (l1 ++ l2) = (join "" l1 ++ join "" l2)%string.
Proof.
  induction l1 as [ | x l1 IH ]; [ reflexivity | ].
  rewrite <- app_comm_cons, !join_empty_cons, IH.
  now rewrite append_assoc.
Qed.

Lemma set_has_In s x : set_has s x = true <-> In x s.
Proof.
  unfold set_has. rewrite existsb_exists. split.
  - intros [y [Hy E]]. apply String.eqb_eq in E. now subst.
  - intro H. exists x. split; [ exact H | apply String.eqb_refl ].
Qed.

Lemma set_add_all_In l :
  forall s x, In x (fold_left set_add l s) <-> In x s \/ In x l.
Proof.
  induction l as [ | y l IH ]; intros s x; simpl; [ tauto | ].
  rewrite IH. unfold set_add.
  destruct (set_has s y) eqn:E.
  - apply set_has_In in E. intuition (subst; auto).
  - rewrite in_app_iff. simpl. tauto.
Qed.

Lemma childIds_In elements x :
  In x (childIds elements)
  <-> exists el, In el elements /\ In x (children el).
Proof.
  unfold childIds.
  assert (H : forall s,
             In x (fold_left
                     (fun s el => fold_left set_add (children el) s)
                     elements s)
             <-> In x s \/ exists el, In el elements /\ In x (children el)).
  { induction elements as [ | e es IH ]; intro s; simpl.
    - split; [ auto | intros [ H | [el [[] _]] ]; exact H ].
    - rewrite IH, set_add_all_In. split.
      + intros [ [ H | H ] | [el [Hel Hx]] ]; eauto.
      + intros [ H | [el [[ <- | Hel ] Hx]] ]; eauto. }
  rewrite H. simpl. split; [ intros [ [] | H' ]; exact H' | auto ].
Qed.

(** A record that another record lists as a child is no root. *)
Lemma referenced_not_root elements r c e :
  In r elements -> In c (children r) ->
  In e (rootElements elements) -> id e <> c.
Proof.
  intros Hr Hc He Hid.
  apply filter_In in He as [_ He].
  apply negb_true_iff in He.
  assert (Hin : set_has (childIds elements) (id e) = true).
  { apply set_has_In, childIds_In. exists r. now rewrite Hid. }
  congruence.
Qed.

(** C6. Invalid tag guard.  A record whose tag fails the test of
    [isValidTagName] (the pattern [^[a-z][a-z0-9-]*$], letters of either
    case; [123invalid] fails it) makes [buildElement] return the empty
    string, with one warning and without visiting its children; its children
    are no roots either, so nothing else emits them at the top level; and a
    valid parent that lists it among its children is still emitted, with the
    markup of the siblings before and after it in their order. *)
Theorem invalid_tag_guard :
  forall (elements : list ElementRecord) (bad : string) (r : ElementRecord),
    findElement elements bad = Some r ->
    isValidTagName (tag r) = false ->
    isValidTagName "123invalid" = false
    /\ (forall fuel,
          buildElement elements (S fuel) bad
          = Some ("", [invalidTagWarning r]))
    /\ (forall c e,
          In c (children r) -> In e (rootElements elements) -> id e <> c)
    /\ (forall fuel p pr before after bs bas,
          findElement elements p = Some pr ->
          isValidTagName (tag pr) = true ->
          children pr = before ++ bad :: after ->
          map_returning (buildElement elements (S fuel)) before = Some bs ->
          map_returning (buildElement elements (S fuel)) after = Some bas ->
          buildElement elements (S (S fuel)) p
          = Some (wrap pr (join "" (map markup bs)
                           ++ join "" (map markup bas)),
                  List.concat (map warnings bs) ++ invalidTagWarning r
                    :: List.concat (map warnings bas))).
Proof.
  intros elements bad r Hfind Hbad.
  assert (Hskip : forall fuel,
             buildElement elements (S fuel) bad
             = Some ("", [invalidTagWarning r])).
  { intro fuel. simpl. now rewrite Hfind, Hbad. }
  split; [ reflexivity | split; [ exact Hskip | split ] ].
  { intros c e Hc He.
    apply (referenced_not_root elements r c e); [ | exact Hc | exact He ].
    now apply find_some in Hfind as [Hin _]. }
  intros fuel p pr before after bs bas Hp Hvalid Hkids Hb Ha.
  assert (Hall : map_returning (buildElement elements (S fuel)) (children pr)
                 = Some (bs ++ ("", [invalidTagWarning r]) :: bas)).
  { rewrite Hkids. apply map_returning_app; [ exact Hb | ].
    change (map_returning (buildElement elements (S fuel)) (bad :: after))
      with (match buildElement elements (S fuel) bad with
            | None => None
            | Some y =>
                match map_returning (buildElement elements (S fuel)) after
                with None => None | Some ys => Some (y :: ys) end
            end).
    now rewrite Hskip, Ha. }
  change (buildElement elements (S (S fuel)) p)
    with (match findElement elements p with
          | None => Some ("", [])
          | Some element =>
              if negb (isValidTagName (tag element)) then
                Some ("", [invalidTagWarning element])
              else
                match map_returning (buildElement elements (S fuel))
                        (children element) with
                | None => None
                | Some built =>
                    Some (wrap element (join "" (map markup built)),
                          List.concat (map warnings built))
                end
          end).
  rewrite Hp, Hvalid, Hall. simpl negb. cbv iota.
  rewrite !map_app, join_empty_app, concat_app. simpl map.
  rewrite join_empty_cons. reflexivity.
Qed.

(** The statement of C6 at a [nav] whose second child has the tag
    [123invalid]: the child and the element below it are left out, the links
    around it stay. *)
Lemma invalid_tag_guard_witness :
  buildElement guarded 1 "element-2"
  = Some ("", ["Invalid tag name: 123invalid"])
  /\ buildElement guarded 2 "element-0"
     = Some ("<nav><a>one</a><a>three</a></nav>",
             ["Invalid tag name: 123invalid"]).
Proof.
  destruct (invalid_tag_guard guarded "element-2"
              (branch "element-2" "123invalid" ["element-4"]) eq_refl eq_refl)
    as (_ & Hskip & _ & Haround).
  split; [ exact (Hskip 0) | ].
  exact (Haround 0 "element-0"
           (branch "element-0" "nav" ["element-1"; "element-2"; "element-3"])
           ["element-1"] ["element-3"]
           [("<a>one</a>", [])] [("<a>three</a>", [])]
           eq_refl eq_refl eq_refl eq_refl eq_refl).
Defined.

(** C7. Attribute-name filtering.  The attributes that [buildElement] emits
    are, after the [class] attribute, those whose key passes the name test
    (letters of either case), in their order, and no other; each is emitted
    as its key and its value with every [&], [<], [>], double quote and
    apostrophe replaced by its reference, the value between double quotes.
    In a key that passes the test there is nothing to replace, and in what is
    emitted for a value none of the five characters is left raw.  [onclick]
    passes the test, as [OnClick] does, and is emitted; [data bad] fails it
    and is left out; a value that tries to close the tag is emitted with its
    quote and its angle brackets as references. *)
Theorem attribute_name_filter :
  (forall e : ElementRecord,
      buildAttrs e =
        emittedClass e
          ++ map emittedAttr
               (filter (fun kv => safe_name_test (fst kv))
                       (entries (attributes e))))
  /\ (forall k : string, safe_name_test k = true -> escapeChars k = k)
  /\ (forall v : string, escaped (escapeChars v) = true)
  /\ safe_name_test "onclick" = true
  /\ safe_name_test "OnClick" = true
  /\ safe_name_test "data bad" = false
  /\ (forall i p rp fuel,
        let e := {| id := i; tag := "div"; classes := [];
                    attributes :=
                      obj_set "title" ("x" ++ quot ++ "><script>'&")
                        (obj_set "data bad" "1" (obj_set "onclick" "go()" []));
                    text := Some ""; path := p; children := [];
                    isRepeatable := rp |} in
        buildAttrs e
        = ["onclick=" ++ quot ++ "go()" ++ quot;
           "title=" ++ quot ++ "x&quot;&gt;&lt;script&gt;&#039;&amp;" ++ quot]%string
        /\ buildElement [e] (S fuel) i
           = Some ("<div onclick=" ++ quot ++ "go()" ++ quot ++ " title="
                   ++ quot ++ "x&quot;&gt;&lt;script&gt;&#039;&amp;" ++ quot
                   ++ "></div>",
                   [])%string).
Proof.
  split.
  { intros e. rewrite buildAttrs_eq. f_equal.
    - unfold classAttr, emittedClass. destruct (classes e) as [ | c l ];
        [ reflexivity | ].
      now rewrite (map_ext escapeHTML escapeChars escapeHTML_chars).
    - apply map_ext. intros [k v]. unfold renderAttr, emittedAttr.
      now rewrite !escapeHTML_chars. }
  split.
  { intros k Hk. rewrite <- escapeHTML_chars. now apply safe_name_plain. }
  split.
  { intros v. rewrite <- escapeHTML_chars. apply escapeHTML_escaped. }
  split; [ reflexivity | split; [ reflexivity | split; [ reflexivity | ] ] ].
  intros. split; [ reflexivity | ].
  simpl. unfold findElement. simpl. now rewrite String.eqb_refl.
Qed.

Section Nullish.

Variable parseFromString : string -> DOM.Node.

(** C3, as amended.  [schemaToHTML] returns the empty string for [null] and
    for [undefined], whatever the depth allowed, and writes no warning;
    [parseHTMLToSchema] has no check of its own: [null] and [undefined]
    reach the parser as the strings [null] and [undefined], and the records
    of that document are returned. *)
Theorem nullish_input_is_coerced :
  forall fuel : nat,
    schemaToHTML fuel null = Some ("", [])
    /\ schemaToHTML fuel undefined = Some ("", [])
    /\ parseHTMLToSchema parseFromString null
       = parseHTMLToSchema parseFromString (JS.value "null")
    /\ parseHTMLToSchema parseFromString undefined
       = parseHTMLToSchema parseFromString (JS.value "undefined").
Proof. intro fuel. repeat split. Qed.

End Nullish.

(** C3 as stated fails: [schemaToHTML] given [null] or [undefined] returns the
    empty string to the caller and raises nothing; so it is not so that every
    such call ends without a value. *)
Lemma null_collection_returns_empty :
  schemaToHTML 0 null = Some ("", [])
  /\ schemaToHTML 0 undefined = Some ("", [])
  /\ ~ (forall (fuel : nat) (elements : nullable (list ElementRecord)),
          elements = null \/ elements = undefined ->
          schemaToHTML fuel elements = None).
Proof.
  split; [ reflexivity | split; [ reflexivity | ] ].
  intro Hraises.
  specialize (Hraises 0 null (or_introl eq_refl)). discriminate.
Qed.

(** The empty collection serializes to the empty string. *)
Lemma empty_collection_is_empty_markup :
  forall fuel, schemaToHTML fuel (JS.value []) = Some ("", []).
Proof. intro fuel. reflexivity. Qed.

(** A child id that no record carries contributes the empty string. *)
Lemma dangling_reference_is_empty elements fuel x :
  findElement elements x = None ->
  buildElement elements (S fuel) x = Some ("", []).
Proof. intro H. simpl. now rewrite H. Qed.

End SerializerFacts.

Module TerminationFacts.
Import JS SchemaParser Reachability Samples.

(** *** Termination of the serializer *)

Section Chains.

Variable elements : list ElementRecord.

Lemma findElement_In x e :
  findElement elements x = Some e -> In e elements /\ id e = x.
Proof.
  intro H. apply find_some in H as [Hin Heq].
  split; [ exact Hin | now apply String.eqb_eq ].
Qed.

Lemma map_returning_None {A B : Type} (f : A -> option B) (xs : list A) :
  map_returning f xs = None -> exists x, In x xs /\ f x = None.
Proof.
  induction xs as [ | x xs IH ]; simpl; [ discriminate | ].
  destruct (f x) as [ y | ] eqn:Ex; [ | exists x; auto ].
  destruct (map_returning f xs); [ discriminate | ].
  intros _. destruct (IH eq_refl) as [z [Hz Hf]]. exists z. auto.
Qed.

Lemma map_returning_Some {A B : Type} (f : A -> option B) (xs : list A) :
  (forall x, In x xs -> exists y, f x = Some y) ->
  exists ys, map_returning f xs = Some ys.
Proof.
  induction xs as [ | x xs IH ]; simpl; intro H; [ now exists [] | ].
  destruct (H x (or_introl eq_refl)) as [y ->].
  destruct IH as [ys ->]; [ intros; apply H; now right | ].
  now exists (y :: ys).
Qed.

Lemma map_returning_ext {A B : Type} (f g : A -> option B) (xs : list A)
  (ys : list B) :
  (forall x y, In x xs -> f x = Some y -> g x = Some y) ->
  map_returning f xs = Some ys -> map_returning g xs = Some ys.
Proof.
  revert ys.
  induction xs as [ | x xs IH ]; simpl; intros ys H Hf; [ exact Hf | ].
  destruct (f x) as [ y | ] eqn:Ex; [ | discriminate ].
  rewrite (H x y (or_introl eq_refl) Ex).
  destruct (map_returning f xs) as [ ys' | ]; [ | discriminate ].
  rewrite (IH ys'); auto.
Qed.

Lemma stuck_chain fuel :
  forall x, buildElement elements fuel x = None ->
            exists l, List.length l = fuel /\ chain elements x l.
Proof.
  induction fuel as [ | fuel IH ]; intros x H.
  - exists []. split; [ reflexivity | constructor ].
  - simpl in H.
    destruct (findElement elements x) as [ e | ] eqn:Ef; [ | discriminate ].
    destruct (negb (isValidTagName (tag e))); [ discriminate | ].
    destruct (map_returning (buildElement elements fuel) (children e))
      eqn:Eb; [ discriminate | ].
    apply map_returning_None in Eb as [c [Hc Hnone]].
    destruct (IH c Hnone) as [l [Hlen Hl]].
    exists (x :: l). split; [ simpl; now rewrite Hlen | ].
    now apply (chain_step elements x e c l).
Qed.

Lemma chain_head x y l : chain elements x (y :: l) -> y = x.
Proof. now inversion 1. Qed.

Lemma chain_ids x l :
  chain elements x l -> incl l (map id elements).
Proof.
  induction 1 as [ x | x e c l Hf Hc Hl IH ]; [ easy | ].
  intros y [ <- | Hy ]; [ | now apply IH ].
  apply findElement_In in Hf as [Hin <-]. now apply in_map.
Qed.

Lemma chain_suffix l1 :
  forall x y l2, chain elements x (l1 ++ y :: l2) -> chain elements y (y :: l2).
Proof.
  induction l1 as [ | a l1 IH ]; intros x y l2 H.
  - simpl in H. now rewrite (chain_head _ _ _ H) in H |- *.
  - simpl in H. inversion H; subst. eapply IH; eassumption.
Qed.

Lemma chain_reaches m :
  forall y z n,
    chain elements y (y :: m ++ z :: n) ->
    clos_trans string (child_edge elements) y z.
Proof.
  induction m as [ | a m IH ]; intros y z n H; inversion H; subst.
  - simpl in *.
    match goal with Hc : chain _ _ (z :: n) |- _ =>
      apply chain_head in Hc; subst end.
    apply t_step.
    match goal with Hf : findElement _ _ = Some ?e |- _ =>
      apply findElement_In in Hf as [Hin Hid]; exists e; auto end.
  - simpl in *.
    match goal with Hc : chain _ ?c (a :: _) |- _ =>
      pose proof (chain_head _ _ _ Hc); subst c;
      apply t_trans with a; [ | exact (IH _ _ _ Hc) ] end.
    apply t_step.
    match goal with Hf : findElement _ _ = Some ?e |- _ =>
      apply findElement_In in Hf as [Hin Hid]; exists e; auto end.
Qed.

Lemma acyclic_chain_short x l :
  acyclic elements -> chain elements x l ->
  List.length l <= List.length elements.
Proof.
  intros Hacyc Hl.
  rewrite <- (length_map id elements).
  apply NoDup_incl_length; [ | exact (chain_ids _ _ Hl) ].
  destruct (NoDup_decidable
              (fun a b : string =>
                 match string_dec a b with
                 | left H => or_introl H | right H => or_intror H end) l)
    as [ Hnd | Hdup ]; [ exact Hnd | exfalso ].
  apply not_NoDup in Hdup as (y & l1 & l2 & l3 & ->);
    [ | intros a b; destruct (string_dec a b); [ now left | now right ] ].
  apply chain_suffix in Hl. apply chain_reaches in Hl.
  exact (Hacyc y Hl).
Qed.

Lemma buildElement_returns fuel x :
  acyclic elements -> List.length elements < fuel ->
  exists o, buildElement elements fuel x = Some o.
Proof.
  intros Hacyc Hfuel.
  destruct (buildElement elements fuel x) as [ o | ] eqn:E; [ now exists o | ].
  apply stuck_chain in E as [l [Hlen Hl]].
  pose proof (acyclic_chain_short _ _ Hacyc Hl). lia.
Qed.

Lemma buildElement_more_fuel fuel :
  forall x o, buildElement elements fuel x = Some o ->
              buildElement elements (S fuel) x = Some o.
Proof.
  induction fuel as [ | fuel IH ]; intros x o H; [ discriminate | ].
  change (buildElement elements (S (S fuel)) x)
    with (match findElement elements x with
          | None => Some ("", [])
          | Some element =>
              if negb (isValidTagName (tag element)) then
                Some ("", ["Invalid tag name: " ++ tag element]%string)
              else
                match map_returning (buildElement elements (S fuel))
                        (children element) with
                | None => None
                | Some built =>
                    Some (("<" ++ tag element
                           ++ attrString (buildAttrs element) ++ ">"
                           ++ escapeHTML (text_or_empty (text element))
                           ++ join "" (map markup built)
                           ++ "</" ++ tag element ++ ">")%string,
                          List.concat (map warnings built))
                end
          end).
  simpl in H.
  destruct (findElement elements x) as [ e | ]; [ | exact H ].
  destruct (negb (isValidTagName (tag e))); [ exact H | ].
  destruct (map_returning (buildElement elements fuel) (children e))
    as [ built | ] eqn:Eb; [ | discriminate ].
  rewrite (map_returning_ext (buildElement elements fuel)
             (buildElement elements (S fuel)) (children e) built);
    [ exact H | | exact Eb ].
  intros c oc _ Hc. now apply IH.
Qed.

Lemma buildElement_fuel_le fuel fuel' x o :
  fuel <= fuel' -> buildElement elements fuel x = Some o ->
  buildElement elements fuel' x = Some o.
Proof.
  induction 1 as [ | fuel' _ IH ]; intro H; [ exact H | ].
  apply buildElement_more_fuel. now apply IH.
Qed.

End Chains.

(** C9. Termination of the serializer.  On a collection whose child
    references form no cycle, [schemaToHTML] returns: there is one output
    that every call allowed a recursion deeper than the number of records
    returns. *)
Theorem schemaToHTML_terminates :
  forall elements : list ElementRecord,
    acyclic elements ->
    exists o : Output,
      forall fuel, List.length elements < fuel ->
                   schemaToHTML fuel (JS.value elements) = Some o.
Proof.
  intros elements Hacyc.
  destruct (map_returning_Some
              (fun el => buildElement elements (S (List.length elements))
                                      (id el))
              (rootElements elements)) as [built Hbuilt].
  { intros el _. apply buildElement_returns; [ exact Hacyc | lia ]. }
  destruct elements as [ | e0 els ] eqn:Eels.
  { exists ("", []). now intros. }
  rewrite <- Eels in *.
  exists (join newline (map markup built), List.concat (map warnings built)).
  intros fuel Hfuel. unfold schemaToHTML.
  replace (List.length elements =? 0)%nat with false
    by (rewrite Eels; reflexivity).
  unfold buildRoots.
  rewrite (map_returning_ext
             (fun el => buildElement elements (S (List.length elements))
                                     (id el))
             (fun el => buildElement elements fuel (id el))
             (rootElements elements) built);
    [ reflexivity | | exact Hbuilt ].
  intros el o _ Ho.
  apply (buildElement_fuel_le elements (S (List.length elements))); [ lia | ].
  exact Ho.
Qed.

Lemma ranked_acyclic (elements : list ElementRecord) (rank : string -> nat) :
  (forall x c, child_edge elements x c -> rank x < rank c) ->
  acyclic elements.
Proof.
  intros Hrank x Hx.
  assert (Hlt : forall a b,
             clos_trans string (child_edge elements) a b -> rank a < rank b).
  { induction 1 as [ a b H | a b c _ IH1 _ IH2 ]; [ now apply Hrank | lia ]. }
  specialize (Hlt x x Hx). lia.
Qed.

Lemma guarded_acyclic : acyclic guarded.
Proof.
  apply (ranked_acyclic guarded guardedRank).
  intros x c (r & Hin & <- & Hc).
  simpl in Hin.
  repeat (destruct Hin as [ <- | Hin ];
          [ simpl in Hc;
            repeat (destruct Hc as [ <- | Hc ]; [ vm_compute; lia | ]);
            contradiction | ]).
  contradiction.
Qed.

(** The statement of C9 at an acyclic collection of five records. *)
Lemma schemaToHTML_terminates_witness :
  exists o : Output,
    forall fuel, List.length guarded < fuel ->
                 schemaToHTML fuel (JS.value guarded) = Some o.
Proof. exact (schemaToHTML_terminates guarded guarded_acyclic). Defined.

(** Without the precondition of C9 the recursion need not end: a root that
    reaches a cycle exhausts every depth. *)
Lemma cycle_never_returns :
  forall fuel, schemaToHTML fuel (JS.value cyclic) = None.
Proof.
  assert (Hab : forall fuel,
             buildElement cyclic fuel "a" = None
             /\ buildElement cyclic fuel "b" = None).
  { induction fuel as [ | fuel [Ha Hb] ]; [ now split | ].
    split; simpl; unfold findElement; simpl;
      [ now rewrite Hb | now rewrite Ha ]. }
  intros [ | fuel ]; [ reflexivity | ].
  unfold schemaToHTML, buildRoots. simpl.
  unfold findElement. simpl.
  now rewrite (proj1 (Hab fuel)).
Qed.

End TerminationFacts.

Module PreorderFacts.
Import JS SchemaParser Preorder Trees Samples.

(** *** The extractor visits the document in pre-order *)

(** The array that [traverseNode] leaves is the array it found, followed by
    the records of the subtree. *)

Lemma size_Element t cl a cs : size (DOM.Element t cl a cs) = S (sizes cs).
Proof. reflexivity. Qed.

Lemma preorder_Element parent t cl a cs :
  preorder parent (DOM.Element t cl a cs)
  = (parent, DOM.Element t cl a cs)
      :: preorderForest (DOM.Element t cl a cs) cs.
Proof. reflexivity. Qed.

Lemma records_Element parent t cl a cs path k :
  records parent (DOM.Element t cl a cs) path k
  = recordAt parent (DOM.Element t cl a cs) path k
      :: recordsForest (DOM.Element t cl a cs) (path ++ [k]) cs (S k).
Proof. reflexivity. Qed.

Lemma traverseNode_Element parent t cl a cs path els :
  traverseNode parent (DOM.Element t cl a cs) path els
  = let node := DOM.Element t cl a cs in
    let textContent := directText cs in
    let element :=
      {| id := "element-" ++ Number_toString (List.length els);
         tag := toLowerCase t;
         classes := cl;
         attributes := collectAttributes a;
         text := Some (if textContent =? "" then "" else textContent);
         path := path ++ [List.length els];
         children := [];
         isRepeatable := isRepeatableElement parent node |} in
    let elements := push els element in
    let currentIndex := List.length elements - 1 in
    let '(childElements, elements) :=
      traverseChildren node (path ++ [currentIndex]) cs [] elements in
    (Some (with_children childElements element),
     assign_children currentIndex childElements elements).
Proof. reflexivity. Qed.

Lemma records_length n :
  forall parent path k, List.length (records parent n path k) = size n.
Proof.
  induction n as [ t cl a cs IH | s | s ] using Node_tree_ind;
    intros parent path k; [ | reflexivity | reflexivity ].
  rewrite records_Element, size_Element. simpl List.length. f_equal.
  generalize (S k) as j. generalize (path ++ [k]) as p.
  generalize (DOM.Element t cl a cs) as node.
  induction IH as [ | c cs Hc _ IHcs ]; intros node p j; [ reflexivity | ].
  cbn [recordsForest sizes]. fold (recordsForest node p).
  now rewrite length_app, Hc, IHcs.
Qed.

Lemma recordsForest_length parent path cs :
  forall j, List.length (recordsForest parent path cs j) = sizes cs.
Proof.
  induction cs as [ | c cs IH ]; intro j; [ reflexivity | ].
  cbn [recordsForest sizes]. fold (recordsForest parent path).
  now rewrite length_app, records_length, IH.
Qed.

Lemma assign_children_at (els : list ElementRecord) e rest cs :
  assign_children (List.length els) cs (els ++ e :: rest)
  = els ++ with_children cs e :: rest.
Proof.
  induction els as [ | x els IH ]; simpl; [ reflexivity | now rewrite IH ].
Qed.

Lemma or_empty (s : string) : (if s =? "" then "" else s) = s.
Proof. now destruct (String.eqb_spec s "") as [ -> | _ ]. Qed.

Lemma traverseChildren_records node p cs :
  Forall traversed cs ->
  forall acc els,
    traverseChildren node p cs acc els
    = (acc ++ map elementId (childOrdinals (List.length els) cs),
       els ++ recordsForest node p cs (List.length els)).
Proof.
  induction 1 as [ | c cs Hc _ IH ]; intros acc els.
  - simpl. now rewrite !app_nil_r.
  - cbn [traverseChildren recordsForest childOrdinals].
    fold (traverseChildren node p). fold (recordsForest node p).
    rewrite (Hc (Some node) p els).
    destruct (DOM.isElement c) eqn:Ec.
    + rewrite IH. unfold push.
      rewrite length_app, records_length, <- !app_assoc. reflexivity.
    + assert (Hnil : records (Some node) c p (List.length els) = [])
        by (destruct c; [ discriminate | reflexivity | reflexivity ]).
      assert (Hsz : size c = 0)
        by (destruct c; [ discriminate | reflexivity | reflexivity ]).
      rewrite IH, Hnil, Hsz, Nat.add_0_r. reflexivity.
Qed.

Lemma traverseNode_records node : traversed node.
Proof.
  induction node as [ t cl a cs IH | s | s ] using Node_tree_ind;
    intros parent path els;
    [ | simpl; now rewrite app_nil_r | simpl; now rewrite app_nil_r ].
  rewrite traverseNode_Element. cbv zeta.
  rewrite (traverseChildren_records _ _ _ IH).
  unfold push.
  rewrite !length_app. simpl List.length.
  replace (List.length els + 1 - 1) with (List.length els) by lia.
  replace (List.length els + 1) with (S (List.length els)) by lia.
  rewrite <- app_assoc. simpl app.
  rewrite assign_children_at, or_empty. reflexivity.
Qed.

(** The records of a subtree follow its elements in document order. *)

Lemma preorder_length n :
  forall parent, List.length (preorder parent n) = size n.
Proof.
  induction n as [ t cl a cs IH | s | s ] using Node_tree_ind;
    intro parent; [ | reflexivity | reflexivity ].
  rewrite preorder_Element, size_Element. simpl List.length. f_equal.
  generalize (DOM.Element t cl a cs) as node.
  induction IH as [ | c cs Hc _ IHcs ]; intro node; [ reflexivity | ].
  cbn [preorderForest sizes]. fold (preorderForest node).
  now rewrite length_app, Hc, IHcs.
Qed.

Lemma preorderForest_length parent cs :
  List.length (preorderForest parent cs) = sizes cs.
Proof.
  induction cs as [ | c cs IH ]; [ reflexivity | ].
  cbn [preorderForest sizes]. fold (preorderForest parent).
  now rewrite length_app, preorder_length, IH.
Qed.

Lemma nth_error_bound {A : Type} (l : list A) i x :
  nth_error l i = Some x -> i < List.length l.
Proof. intro H. apply nth_error_Some. congruence. Qed.

Lemma recordsForest_nth node cs :
  Forall recorded cs ->
  forall path j i p m,
    nth_error (preorderForest node cs) i = Some (p, m) ->
    exists path',
      nth_error (recordsForest node path cs j) i
      = Some (recordAt (Some p) m path' (j + i)).
Proof.
  induction 1 as [ | c cs Hc _ IH ]; intros path j i p m Hi.
  - now destruct i.
  - cbn [preorderForest recordsForest] in *.
    fold (preorderForest node) in Hi. fold (recordsForest node path).
    destruct (Nat.lt_ge_cases i (size c)) as [ Hlt | Hge ].
    + rewrite nth_error_app1 in Hi by now rewrite preorder_length.
      rewrite nth_error_app1 by now rewrite records_length.
      exact (Hc node path j i p m Hi).
    + rewrite nth_error_app2 in Hi by now rewrite preorder_length.
      rewrite nth_error_app2 by now rewrite records_length.
      rewrite preorder_length in Hi. rewrite records_length.
      destruct (IH path (j + size c) (i - size c) p m Hi) as [path' Hr].
      exists path'. rewrite Hr. do 2 f_equal. lia.
Qed.

Lemma records_nth n : recorded n.
Proof.
  induction n as [ t cl a cs IH | s | s ] using Node_tree_ind;
    intros parent path k i p m Hi;
    [ | now destruct i | now destruct i ].
  rewrite preorder_Element in Hi. rewrite records_Element.
  destruct i as [ | i ].
  - injection Hi as <- <-. exists path. simpl. now rewrite Nat.add_0_r.
  - simpl in Hi |- *.
    destruct (recordsForest_nth _ _ IH (path ++ [k]) (S k) i p m Hi)
      as [path' Hr].
    exists path'. rewrite Hr. do 2 f_equal. lia.
Qed.

(** The ids in [children] are the positions of the element children. *)

Lemma holds_app_l pre1 pre2 base m k c :
  holds pre1 base m k c -> holds (pre1 ++ pre2) base m k c.
Proof.
  intros [Hle Hn]. split; [ exact Hle | ].
  rewrite nth_error_app1; [ exact Hn | exact (nth_error_bound _ _ _ Hn) ].
Qed.

Lemma holds_app_r pre1 pre2 base m k c :
  holds pre2 (base + List.length pre1) m k c ->
  holds (pre1 ++ pre2) base m k c.
Proof.
  intros [Hle Hn]. split; [ lia | ].
  rewrite nth_error_app2 by lia.
  now replace (k - base - List.length pre1)
    with (k - (base + List.length pre1)) by lia.
Qed.

Lemma holds_cons x pre base m k c :
  holds pre (S base) m k c -> holds (x :: pre) base m k c.
Proof.
  intros [Hle Hn]. split; [ lia | ].
  replace (k - base) with (S (k - S base)) by lia. exact Hn.
Qed.

Lemma Forall2_weaken {A B : Type} (R R' : A -> B -> Prop) l l' :
  (forall a b, R a b -> R' a b) -> Forall2 R l l' -> Forall2 R' l l'.
Proof. intros H; induction 1; constructor; auto. Qed.

(** The positions listed by [childOrdinals] hold the element children, in
    document order. *)
Lemma childOrdinals_hold node cs :
  forall base,
    Forall2 (holds (preorderForest node cs) base node)
            (childOrdinals base cs) (filter DOM.isElement cs).
Proof.
  induction cs as [ | c cs IH ]; intro base; [ constructor | ].
  cbn [childOrdinals filter preorderForest]. fold (preorderForest node).
  destruct c as [ t cl a kids | s | s ]; cbn [DOM.isElement].
  - constructor.
    + split; [ lia | ]. now rewrite Nat.sub_diag.
    + apply Forall2_weaken
        with (R := holds (preorderForest node cs)
                         (base + size (DOM.Element t cl a kids)) node);
        [ | apply IH ].
      intros k c Hk. apply holds_app_r. now rewrite preorder_length.
  - apply IH.
  - apply IH.
Qed.

Lemma preorderForest_children_placed node cs :
  Forall children_placed cs ->
  forall base i p m,
    nth_error (preorderForest node cs) i = Some (p, m) ->
    Forall2 (holds (preorderForest node cs) base m)
            (childOrdinals (S (base + i)) (DOM.childNodes m))
            (DOM.children m).
Proof.
  induction 1 as [ | c cs Hc _ IH ]; intros base i p m Hi.
  - now destruct i.
  - cbn [preorderForest] in *. fold (preorderForest node) in *.
    destruct (Nat.lt_ge_cases i (size c)) as [ Hlt | Hge ].
    + rewrite nth_error_app1 in Hi by now rewrite preorder_length.
      eapply Forall2_weaken; [ | exact (Hc node base i p m Hi) ].
      intros k x. apply holds_app_l.
    + rewrite nth_error_app2 in Hi by now rewrite preorder_length.
      rewrite preorder_length in Hi.
      pose proof (IH (base + size c) (i - size c) p m Hi) as HF.
      replace (S (base + size c + (i - size c))) with (S (base + i)) in HF
        by lia.
      eapply Forall2_weaken; [ | exact HF ].
      intros k x Hk. apply holds_app_r. now rewrite preorder_length.
Qed.

Lemma preorder_children_placed n : children_placed n.
Proof.
  induction n as [ t cl a cs IH | s | s ] using Node_tree_ind;
    intros parent base i p m Hi;
    [ | now destruct i | now destruct i ].
  rewrite preorder_Element in *.
  destruct i as [ | i ].
  - injection Hi as <- <-. rewrite Nat.add_0_r.
    eapply Forall2_weaken; [ | apply childOrdinals_hold ].
    intros k x. apply holds_cons.
  - simpl in Hi.
    pose proof (preorderForest_children_placed _ _ IH (S base) i p m Hi)
      as HF.
    replace (S (S base + i)) with (S (base + S i)) in HF by lia.
    eapply Forall2_weaken; [ | exact HF ].
    intros k x. apply holds_cons.
Qed.

Lemma childOrdinals_above cs :
  forall base, Forall (fun k => base <= k) (childOrdinals base cs).
Proof.
  induction cs as [ | c cs IH ]; intro base; [ constructor | ].
  cbn [childOrdinals]. destruct (DOM.isElement c); [ | apply IH ].
  constructor; [ lia | ].
  eapply Forall_impl; [ | apply IH ]. simpl. intros. lia.
Qed.

Section Extracted.

Variable parseFromString : string -> DOM.Node.

Let body (html : nullable string) : DOM.Node := bodyOf parseFromString html.

Let inOrder (html : nullable string) : list (DOM.Node * DOM.Node) :=
  documentOrder parseFromString html.

Let extract (html : nullable string) : list ElementRecord :=
  parseHTMLToSchema parseFromString html.

Lemma parseHTMLToSchema_records html :
  extract html = recordsForest (body html) [] (DOM.childNodes (body html)) 0.
Proof.
  unfold extract, parseHTMLToSchema, body, bodyOf.
  generalize (parseFromString (DOMString html)) as b. intro b.
  change (recordsForest b [] (DOM.childNodes b) 0)
    with (@nil ElementRecord
            ++ recordsForest b [] (DOM.childNodes b)
                 (List.length (@nil ElementRecord))).
  generalize (@nil ElementRecord) as els.
  induction (DOM.childNodes b) as [ | c cs IH ]; intro els.
  - simpl. now rewrite app_nil_r.
  - cbn [fold_left recordsForest]. fold (recordsForest b []).
    rewrite traverseNode_records. cbn [snd].
    destruct (DOM.isElement c) eqn:Ec.
    + rewrite IH, length_app, records_length, <- app_assoc. reflexivity.
    + assert (Hnil : records (Some b) c [] (List.length els) = [])
        by (destruct c; [ discriminate | reflexivity | reflexivity ]).
      assert (Hsz : size c = 0)
        by (destruct c; [ discriminate | reflexivity | reflexivity ]).
      rewrite IH, Hnil, Hsz, Nat.add_0_r. reflexivity.
Qed.

Lemma extracted_length html :
  List.length (extract html) = List.length (inOrder html).
Proof.
  rewrite parseHTMLToSchema_records. unfold inOrder, documentOrder.
  now rewrite recordsForest_length, preorderForest_length.
Qed.

Lemma extracted_nth html i p n :
  nth_error (inOrder html) i = Some (p, n) ->
  exists path',
    nth_error (extract html) i = Some (recordAt (Some p) n path' i).
Proof.
  intro Hi. rewrite parseHTMLToSchema_records.
  apply (recordsForest_nth (body html) (DOM.childNodes (body html)))
    with (path := []) (j := 0) in Hi; [ exact Hi | ].
  apply Forall_forall. intros c _. apply records_nth.
Qed.

Lemma extracted_children_placed html i p n :
  nth_error (inOrder html) i = Some (p, n) ->
  Forall2 (fun k c => nth_error (inOrder html) k = Some (n, c))
          (childOrdinals (S i) (DOM.childNodes n)) (DOM.children n).
Proof.
  intro Hi.
  assert (Hall : Forall children_placed (DOM.childNodes (body html)))
    by (apply Forall_forall; intros c _; apply preorder_children_placed).
  pose proof (preorderForest_children_placed (body html) _ Hall 0 i p n Hi)
    as HF.
  eapply Forall2_weaken; [ | exact HF ].
  intros k c [_ Hk]. now rewrite Nat.sub_0_r in Hk.
Qed.

Lemma extracted_ids html :
  map id (extract html)
  = map elementId (seq 0 (List.length (inOrder html))).
Proof.
  apply nth_error_ext. intro i.
  rewrite !nth_error_map, nth_error_seq.
  destruct (nth_error (inOrder html) i) as [ [p n] | ] eqn:Ei.
  - destruct (extracted_nth html i p n Ei) as [path' Hr].
    rewrite Hr. apply nth_error_bound in Ei.
    destruct (Nat.ltb_spec i (List.length (inOrder html)));
      [ reflexivity | lia ].
  - apply nth_error_None in Ei.
    destruct (Nat.ltb_spec i (List.length (inOrder html))); [ lia | ].
    assert (Hout : nth_error (extract html) i = None)
      by (apply nth_error_None; rewrite extracted_length; lia).
    now rewrite Hout.
Qed.

(** C5. Extraction order and ids.  Let [N] be the number of elements below the
    body of the parsed markup.  [parseHTMLToSchema] returns [N] records; their
    ids are [element-0] to [element-(N-1)] in this order; the record at
    position [i] belongs to the [i]-th element in document order (depth
    first, an element before its descendants), and its [children] are the ids
    of the positions at which the element children of that element stand, in
    document order. *)
Theorem extraction_order :
  forall html : nullable string,
    let out := parseHTMLToSchema parseFromString html in
    let order := documentOrder parseFromString html in
    let N := List.length order in
    List.length out = N
    /\ map id out = map elementId (seq 0 N)
    /\ forall i p n,
         nth_error order i = Some (p, n) ->
         exists r,
           nth_error out i = Some r
           /\ id r = ("element-" ++ Number_toString i)%string
           /\ tag r = toLowerCase (DOM.tagName n)
           /\ children r
              = map elementId (childOrdinals (S i) (DOM.childNodes n))
           /\ Forall2 (fun k c => nth_error order k = Some (n, c))
                      (childOrdinals (S i) (DOM.childNodes n))
                      (DOM.children n).
Proof.
  intros html out order N.
  split; [ apply extracted_length | split; [ apply extracted_ids | ] ].
  intros i p n Hi.
  destruct (extracted_nth html i p n Hi) as [path' Hr].
  exists (recordAt (Some p) n path' i).
  repeat split; try exact Hr.
  exact (extracted_children_placed html i p n Hi).
Qed.

End Extracted.

(** The statement of C5 at a document of eight elements. *)
Lemma extraction_order_witness :
  List.length (parseHTMLToSchema sampleParser (JS.value listMarkup)) = 8
  /\ map id (parseHTMLToSchema sampleParser (JS.value listMarkup))
     = ["element-0"; "element-1"; "element-2"; "element-3"; "element-4";
        "element-5"; "element-6"; "element-7"].
Proof.
  destruct (extraction_order sampleParser (JS.value listMarkup))
    as (Hlen & Hids & _).
  split; [ exact Hlen | exact Hids ].
Defined.

End PreorderFacts.

Module ForestFacts.
Import JS SchemaParser Reachability Preorder Trees PreorderFacts Samples.

(** *** The extracted collection is a forest *)

Lemma Number_toString_inj i k :
  Number_toString i = Number_toString k -> i = k.
Proof.
  unfold Number_toString. intro H.
  apply (f_equal NilEmpty.uint_of_string) in H.
  rewrite !NilEmpty.usu in H. injection H as H.
  now apply Unsigned.to_uint_inj.
Qed.

Lemma elementId_inj i k : elementId i = elementId k -> i = k.
Proof.
  unfold elementId. simpl. intro H. injection H as H.
  now apply Number_toString_inj.
Qed.

Lemma NoDup_map_elementId l : NoDup l -> NoDup (map elementId l).
Proof.
  induction 1 as [ | x l Hx _ IH ]; simpl; constructor; [ | exact IH ].
  intros [y [Hy Hin]]%in_map_iff.
  apply elementId_inj in Hy. now subst y.
Qed.

Lemma Forall2_In_l {A B : Type} (R : A -> B -> Prop) l l' a :
  Forall2 R l l' -> In a l -> exists b, In b l' /\ R a b.
Proof.
  induction 1 as [ | x y l l' Hxy _ IH ]; intros Hin; [ easy | ].
  destruct Hin as [ <- | Hin ].
  - exists y. split; [ now left | exact Hxy ].
  - destruct (IH Hin) as [b [Hb HR]]. exists b. split; [ now right | exact HR ].
Qed.

Lemma recordsForest_references node cs :
  Forall references_once cs ->
  forall path j,
    exists L,
      flat_map children (recordsForest node path cs j) = map elementId L
      /\ Permutation (childOrdinals j cs ++ L) (seq j (sizes cs)).
Proof.
  induction 1 as [ | c cs Hc _ IH ]; intros path j.
  - exists []. split; [ reflexivity | constructor ].
  - cbn [recordsForest childOrdinals sizes]. fold (recordsForest node path).
    destruct (IH path (j + size c)) as [L' [HL' HP']].
    destruct (DOM.isElement c) eqn:Ec.
    + destruct (Hc Ec (Some node) path j) as [Lc [HLc HPc]].
      exists (Lc ++ L'). split.
      * now rewrite flat_map_app, HLc, HL', map_app.
      * rewrite seq_app.
        apply Permutation_trans
          with ((j :: Lc) ++ childOrdinals (j + size c) cs ++ L');
          [ | now apply Permutation_app ].
        simpl. apply perm_skip.
        rewrite !app_assoc. apply Permutation_app_tail.
        apply Permutation_app_comm.
    + assert (Hnil : records (Some node) c path j = [])
        by (destruct c; [ discriminate | reflexivity | reflexivity ]).
      assert (Hsz : size c = 0)
        by (destruct c; [ discriminate | reflexivity | reflexivity ]).
      rewrite Hsz, Nat.add_0_r in HL', HP'.
      rewrite Hnil, Hsz, Nat.add_0_r.
      exists L'. split; [ exact HL' | exact HP' ].
Qed.

Lemma records_references n : references_once n.
Proof.
  induction n as [ t cl a cs IH | s | s ] using Node_tree_ind;
    intros He parent path k; try discriminate.
  rewrite records_Element, size_Element.
  destruct (recordsForest_references (DOM.Element t cl a cs) cs IH
              (path ++ [k]) (S k)) as [L [HL HP]].
  exists (childOrdinals (S k) cs ++ L). split.
  - simpl. now rewrite HL, map_app.
  - simpl. now apply perm_skip.
Qed.

Section ExtractedForest.

Variable parseFromString : string -> DOM.Node.

Let body (html : nullable string) : DOM.Node := bodyOf parseFromString html.

Let inOrder (html : nullable string) : list (DOM.Node * DOM.Node) :=
  documentOrder parseFromString html.

Let extract (html : nullable string) : list ElementRecord :=
  parseHTMLToSchema parseFromString html.

Lemma extracted_record html i r :
  nth_error (extract html) i = Some r ->
  exists p n path',
    nth_error (inOrder html) i = Some (p, n)
    /\ r = recordAt (Some p) n path' i.
Proof.
  intro Hr.
  pose proof (nth_error_bound _ _ _ Hr) as Hlt.
  unfold extract in Hlt. rewrite extracted_length in Hlt.
  destruct (nth_error (inOrder html) i) as [ [p n] | ] eqn:Ei;
    [ | apply nth_error_None in Ei; unfold inOrder in Ei; lia ].
  destruct (extracted_nth parseFromString html i p n Ei) as [path' Hr'].
  exists p, n, path'. split; [ reflexivity | unfold extract in Hr; congruence ].
Qed.

Lemma extracted_child_later html i r c :
  nth_error (extract html) i = Some r ->
  In c (children r) ->
  exists j r',
    i < j /\ nth_error (extract html) j = Some r'
    /\ id r' = c /\ c = elementId j.
Proof.
  intros Hr Hc.
  destruct (extracted_record html i r Hr) as (p & n & path' & Hi & ->).
  simpl in Hc. apply in_map_iff in Hc as [k [<- Hk]].
  pose proof (childOrdinals_above (DOM.childNodes n) (S i)) as Habove.
  rewrite Forall_forall in Habove. specialize (Habove k Hk).
  destruct (Forall2_In_l _ _ _ k
              (extracted_children_placed parseFromString html i p n Hi) Hk)
    as [c' [_ Hk']].
  destruct (extracted_nth parseFromString html k n c' Hk') as [path'' Hr'].
  exists k, (recordAt (Some n) c' path'' k).
  repeat split; [ lia | exact Hr' ].
Qed.

Lemma extracted_edge html x c :
  child_edge (extract html) x c ->
  exists i j, x = elementId i /\ c = elementId j /\ i < j.
Proof.
  intros (r & Hin & Hid & Hc).
  apply In_nth_error in Hin as [i Hi].
  destruct (extracted_child_later html i r c Hi Hc)
    as (j & r' & Hlt & _ & _ & Hj).
  destruct (extracted_record html i r Hi) as (p & n & path' & _ & ->).
  exists i, j. repeat split; [ now rewrite <- Hid | exact Hj | exact Hlt ].
Qed.

Lemma extracted_path html x c :
  clos_trans string (child_edge (extract html)) x c ->
  exists i j, x = elementId i /\ c = elementId j /\ i < j.
Proof.
  induction 1 as [ x c H | x y z _ IH1 _ IH2 ];
    [ now apply (extracted_edge html) | ].
  destruct IH1 as (i & j & -> & -> & Hij).
  destruct IH2 as (j' & k & Hj & -> & Hjk).
  apply elementId_inj in Hj. subst j'.
  exists i, k. repeat split. lia.
Qed.

Lemma extracted_acyclic html : acyclic (extract html).
Proof.
  intros x Hx. apply (extracted_path html) in Hx as (i & j & -> & Hj & Hij).
  apply elementId_inj in Hj. lia.
Qed.

Lemma extracted_references html : NoDup (flat_map children (extract html)).
Proof.
  unfold extract. rewrite parseHTMLToSchema_records.
  destruct (recordsForest_references (body html) (DOM.childNodes (body html)))
    with (path := @nil nat) (j := 0) as [L [HL HP]].
  { apply Forall_forall. intros c _. apply records_references. }
  unfold body in HL. rewrite HL. apply NoDup_map_elementId.
  apply NoDup_app_remove_l
    with (l := childOrdinals 0 (DOM.childNodes (body html))).
  apply Permutation_NoDup
    with (l := seq 0 (sizes (DOM.childNodes (body html))));
    [ now apply Permutation_sym | apply seq_NoDup ].
Qed.

(** C10. Forest invariant of the extractor.  In every collection that
    [parseHTMLToSchema] returns, an id listed in the [children] of a record
    is the id of a record at a strictly later position, so no reference
    dangles; the child references form no cycle; no id is listed as a child
    twice; and no two records share an id. *)
Theorem extracted_forest :
  forall html : nullable string,
    let out := parseHTMLToSchema parseFromString html in
    (forall i r c,
        nth_error out i = Some r -> In c (children r) ->
        exists j r', i < j /\ nth_error out j = Some r' /\ id r' = c)
    /\ acyclic out
    /\ NoDup (flat_map children out)
    /\ NoDup (map id out).
Proof.
  intros html out. repeat split.
  - intros i r c Hr Hc.
    destruct (extracted_child_later html i r c Hr Hc)
      as (j & r' & Hlt & Hr' & Hid & _).
    now exists j, r'.
  - apply extracted_acyclic.
  - apply extracted_references.
  - unfold out. rewrite extracted_ids.
    apply NoDup_map_elementId, seq_NoDup.
Qed.

End ExtractedForest.

(** The statement of C10 at a document of eight elements. *)
Lemma extracted_forest_witness :
  NoDup (flat_map children
           (parseHTMLToSchema sampleParser (JS.value listMarkup)))
  /\ acyclic (parseHTMLToSchema sampleParser (JS.value listMarkup)).
Proof.
  destruct (extracted_forest sampleParser (JS.value listMarkup))
    as (_ & Hacyc & Hrefs & _).
  split; [ exact Hrefs | exact Hacyc ].
Defined.

End ForestFacts.

Module ClassifierFacts.
Import JS SchemaParser Preorder Classes Trees PreorderFacts Samples.

(** *** The classifier compares sets of classes *)

(** The order of [sort] is total, and a sorted list is determined by its
    elements. *)

Lemma le_cases a b : le a b <-> a = b \/ String_as_OT.lt a b.
Proof.
  unfold le, String.leb.
  destruct (String.compare a b) eqn:E.
  - apply String_as_OT.cmp_eq in E. intuition.
  - apply String_as_OT.cmp_lt in E. intuition.
  - split; [ discriminate | ].
    intros [ -> | H ].
    + assert (String.compare b b = Eq) by now apply String_as_OT.cmp_eq.
      congruence.
    + apply String_as_OT.cmp_lt in H. unfold String_as_OT.cmp in H.
      congruence.
Qed.

Lemma le_trans a b c : le a b -> le b c -> le a c.
Proof.
  rewrite !le_cases.
  intros [ -> | Hab ] [ -> | Hbc ]; auto.
  right. eapply String_as_OT.lt_trans; eassumption.
Qed.

Lemma le_total a b : le a b \/ le b a.
Proof. apply String.leb_total. Qed.

Lemma le_antisym a b : le a b -> le b a -> a = b.
Proof. apply String.leb_antisym. Qed.

Lemma insert_perm x l : Permutation (x :: l) (insert x l).
Proof.
  induction l as [ | y l IH ]; simpl; [ reflexivity | ].
  destruct (String.leb x y); [ reflexivity | ].
  rewrite perm_swap. now apply perm_skip.
Qed.

Lemma sort_perm l : Permutation l (sort l).
Proof.
  induction l as [ | x l IH ]; simpl; [ constructor | ].
  rewrite <- insert_perm. now apply perm_skip.
Qed.

Lemma insert_sorted x l :
  StronglySorted le l -> StronglySorted le (insert x l).
Proof.
  induction 1 as [ | y l Hl IH Hy ]; simpl.
  - repeat constructor.
  - destruct (String.leb x y) eqn:E.
    + constructor; [ now constructor | ].
      constructor; [ exact E | ].
      eapply Forall_impl; [ | exact Hy ].
      intros z Hz. now apply le_trans with y.
    + constructor; [ exact IH | ].
      assert (Hyx : le y x).
      { destruct (le_total x y) as [ H | H ]; [ | exact H ].
        unfold le in H. congruence. }
      rewrite Forall_forall in *. intros z Hz.
      apply (Permutation_in _ (Permutation_sym (insert_perm x l))) in Hz.
      destruct Hz as [ <- | Hz ]; auto.
Qed.

Lemma sort_sorted l : StronglySorted le (sort l).
Proof.
  induction l as [ | x l IH ]; simpl; [ constructor | now apply insert_sorted ].
Qed.

Lemma sorted_perm_eq l1 :
  forall l2, StronglySorted le l1 -> StronglySorted le l2 ->
             Permutation l1 l2 -> l1 = l2.
Proof.
  induction l1 as [ | a l1 IH ]; intros l2 H1 H2 HP.
  - apply Permutation_nil in HP. now subst.
  - destruct l2 as [ | b l2 ];
      [ apply Permutation_sym, Permutation_nil in HP; discriminate | ].
    inversion H1 as [ | ? ? Hs1 Ha ]; subst.
    inversion H2 as [ | ? ? Hs2 Hb ]; subst.
    assert (a = b).
    { rewrite Forall_forall in Ha, Hb.
      assert (Hin_a : In a (b :: l2))
        by (apply (Permutation_in _ HP); now left).
      assert (Hin_b : In b (a :: l1))
        by (apply (Permutation_in _ (Permutation_sym HP)); now left).
      destruct Hin_a as [ -> | Hin_a ]; [ reflexivity | ].
      destruct Hin_b as [ -> | Hin_b ]; [ reflexivity | ].
      apply le_antisym; auto. }
    subst b. f_equal.
    apply IH; [ assumption | assumption | ].
    now apply Permutation_cons_inv with a.
Qed.

Lemma sort_eq_iff a b : sort a = sort b <-> Permutation a b.
Proof.
  split; intro H.
  - rewrite (sort_perm a), H. apply Permutation_sym, sort_perm.
  - apply sorted_perm_eq; try apply sort_sorted.
    rewrite <- (sort_perm a), <- (sort_perm b). exact H.
Qed.

(** [join] with a space separates tokens: the joined string determines the
    list. *)

Lemma join_cons x l : join " " (x :: l) = (x ++ rest l)%string.
Proof.
  destruct l as [ | y l ]; simpl; [ | reflexivity ].
  induction x as [ | c x IH ]; simpl; [ | rewrite <- IH ]; reflexivity.
Qed.

Lemma rest_boundary l : boundary (rest l).
Proof. destruct l; [ now left | right; eexists; reflexivity ]. Qed.

Lemma split_token x :
  forall y r1 r2,
    spaceless x -> spaceless y -> boundary r1 -> boundary r2 ->
    (x ++ r1 = y ++ r2)%string -> x = y /\ r1 = r2.
Proof.
  unfold spaceless.
  induction x as [ | a x IH ]; intros [ | b y ] r1 r2 Hx Hy B1 B2 H;
    simpl in *.
  - auto.
  - exfalso. destruct B1 as [ -> | [r' ->] ]; [ discriminate | ].
    injection H as <- _. discriminate.
  - exfalso. destruct B2 as [ -> | [r' ->] ]; [ discriminate | ].
    injection H as -> _. discriminate.
  - injection H as <- H.
    apply andb_true_iff in Hx as [_ Hx]. apply andb_true_iff in Hy as [_ Hy].
    destruct (IH y r1 r2 Hx Hy B1 B2 H) as [ -> -> ]. auto.
Qed.

Lemma token_spaceless t : tokenb t = true -> spaceless t.
Proof.
  unfold tokenb, spaceless. intros [_ H]%andb_true_iff.
  induction t as [ | c t IH ]; [ reflexivity | ].
  simpl in *. apply andb_true_iff in H as [Hc Ht].
  rewrite (IH Ht), andb_true_r.
  destruct (Ascii.eqb_spec c " ") as [ -> | _ ]; [ discriminate | reflexivity ].
Qed.

Lemma token_nonempty t : tokenb t = true -> t <> "".
Proof.
  unfold tokenb. intros [H _]%andb_true_iff ->. discriminate.
Qed.

Lemma join_tokens_inj l1 :
  forall l2,
    Forall (fun t => tokenb t = true) l1 ->
    Forall (fun t => tokenb t = true) l2 ->
    join " " l1 = join " " l2 -> l1 = l2.
Proof.
  induction l1 as [ | x l1 IH ]; intros [ | y l2 ] H1 H2 H.
  - reflexivity.
  - exfalso. rewrite join_cons in H. inversion H2 as [ | ? ? Hy _ ]; subst.
    apply token_nonempty in Hy. destruct y; [ congruence | discriminate ].
  - exfalso. rewrite join_cons in H. inversion H1 as [ | ? ? Hx _ ]; subst.
    apply token_nonempty in Hx. destruct x; [ congruence | discriminate ].
  - rewrite !join_cons in H.
    inversion H1 as [ | ? ? Hx H1' ]; subst.
    inversion H2 as [ | ? ? Hy H2' ]; subst.
    destruct (split_token x y (rest l1) (rest l2)) as [ -> Hrest ];
      auto using token_spaceless, rest_boundary.
    f_equal.
    destruct l1 as [ | a l1 ], l2 as [ | b l2 ]; try discriminate;
      [ reflexivity | ].
    apply IH; try assumption.
    unfold rest in Hrest. simpl in Hrest. now injection Hrest.
Qed.

(** On token lists the comparison of the classifier compares sets. *)

Lemma includes_In l x : includes l x = true <-> In x l.
Proof.
  unfold includes. rewrite existsb_exists. split.
  - intros [y [Hy E]]. apply String.eqb_eq in E. now subst.
  - intro H. exists x. split; [ exact H | apply String.eqb_refl ].
Qed.

Lemma nodupb_NoDup l : nodupb l = true -> NoDup l.
Proof.
  induction l as [ | x l IH ]; simpl; [ constructor | ].
  intros [Hx Hl]%andb_true_iff. constructor; [ | auto ].
  intro Hin. apply includes_In in Hin. rewrite Hin in Hx. discriminate.
Qed.

Lemma sameClassSet_iff a b :
  sameClassSet a b = true <-> (forall x, In x a <-> In x b).
Proof.
  unfold sameClassSet. rewrite andb_true_iff, !forallb_forall.
  split.
  - intros [Hab Hba] x. split; intro H.
    + apply includes_In. auto.
    + apply includes_In. auto.
  - intro H. split; intros x Hx; apply includes_In, H, Hx.
Qed.

Lemma classListOk_parts l :
  classListOk l = true ->
  Forall (fun t => tokenb t = true) l /\ NoDup l.
Proof.
  unfold classListOk. intros [Ht Hn]%andb_true_iff. split.
  - apply Forall_forall. now apply forallb_forall.
  - now apply nodupb_NoDup.
Qed.

Lemma sorted_join_compare a b :
  classListOk a = true -> classListOk b = true ->
  (join " " (sort a) =? join " " (sort b)) = sameClassSet a b.
Proof.
  intros [Ta Na]%classListOk_parts [Tb Nb]%classListOk_parts.
  apply eq_true_iff_eq.
  rewrite String.eqb_eq, sameClassSet_iff. split.
  - intros H x.
    apply join_tokens_inj in H.
    + apply sort_eq_iff in H.
      split; apply Permutation_in; [ exact H | now apply Permutation_sym ].
    + eapply Permutation_Forall; [ apply sort_perm | exact Ta ].
    + eapply Permutation_Forall; [ apply sort_perm | exact Tb ].
  - intro H. f_equal. apply sort_eq_iff. now apply NoDup_Permutation.
Qed.

Lemma filter_filter {A : Type} (f g : A -> bool) (l : list A) :
  filter f (filter g l) = filter (fun x => g x && f x) l.
Proof.
  induction l as [ | x l IH ]; simpl; [ reflexivity | ].
  destruct (g x); simpl; [ destruct (f x) | ]; now rewrite IH.
Qed.

Lemma filter_length_le {A : Type} (f : A -> bool) (l : list A) :
  List.length (filter f l) <= List.length l.
Proof.
  induction l as [ | x l IH ]; simpl; [ lia | ].
  destruct (f x); simpl; lia.
Qed.

Lemma isRepeatableElement_rules parent node :
  Forall (fun c => classListOk (DOM.classList c) = true)
         (DOM.children parent) ->
  classListOk (DOM.classList node) = true ->
  isRepeatableElement (Some parent) node = true <-> Repeatable parent node.
Proof.
  intros Hkids Hnode. unfold isRepeatableElement, Repeatable.
  set (tg := toLowerCase (DOM.tagName node)).
  set (siblings := filter (fun child => DOM.tagName child =? DOM.tagName node)
                          (DOM.children parent)).
  set (similar := filter
                    (fun sibling =>
                       join " " (sort (DOM.classList sibling))
                       =? join " " (sort (DOM.classList node))) siblings).
  assert (Hsim : similar = similarChildren parent node).
  { unfold similar, siblings, similarChildren. rewrite filter_filter.
    apply filter_ext_in. intros c Hc.
    rewrite Forall_forall in Hkids.
    now rewrite (sorted_join_compare _ _ (Hkids c Hc) Hnode). }
  assert (Hle : List.length similar <= List.length siblings)
    by apply filter_length_le.
  rewrite <- Hsim.
  assert (Hthird :
            includes repeatableTags tg
            && includes listParentTags (toLowerCase (DOM.tagName parent))
            = true
            <-> In tg repeatableTags
                /\ In (toLowerCase (DOM.tagName parent)) listParentTags)
    by now rewrite andb_true_iff, !includes_In.
  destruct (String.eqb_spec tg "li") as [ Hli | Hli ]; [ tauto | ].
  destruct (includes repeatableTags tg
            && includes listParentTags (toLowerCase (DOM.tagName parent)))
    eqn:E3.
  - assert (Hrule : In tg repeatableTags
                    /\ In (toLowerCase (DOM.tagName parent)) listParentTags)
      by now apply Hthird.
    destruct (Nat.ltb_spec 1 (List.length siblings));
      [ destruct (Nat.ltb_spec 1 (List.length similar)) | ]; tauto.
  - assert (Hrule : ~ (In tg repeatableTags
                       /\ In (toLowerCase (DOM.tagName parent))
                             listParentTags))
      by (intro H; apply Hthird in H; discriminate).
    destruct (Nat.ltb_spec 1 (List.length siblings));
      [ destruct (Nat.ltb_spec 1 (List.length similar)) | ].
    + split; [ intros _; right; left; lia | reflexivity ].
    + split; [ discriminate | ].
      intros [ H' | [ H' | H' ] ]; [ contradiction | lia | contradiction ].
    + split; [ discriminate | ].
      intros [ H' | [ H' | H' ] ]; [ contradiction | lia | contradiction ].
Qed.

(** Every element of a document with token lists has one, and so has its
    parent. *)

Lemma documentOk_children p :
  documentOk p = true ->
  Forall (fun c => documentOk c = true) (DOM.childNodes p).
Proof.
  destruct p as [ t cl a cs | s | s ]; simpl; try constructor.
  intros [_ H]%andb_true_iff.
  apply Forall_forall. now apply forallb_forall.
Qed.

Lemma documentOk_classList n :
  documentOk n = true -> classListOk (DOM.classList n) = true.
Proof.
  destruct n as [ t cl a cs | s | s ]; simpl; try reflexivity.
  now intros [H _]%andb_true_iff.
Qed.

Lemma preorder_ok n :
  forall parent,
    documentOk parent = true -> documentOk n = true ->
    Forall both_ok (preorder parent n).
Proof.
  induction n as [ t cl a cs IH | s | s ] using Node_tree_ind;
    intros parent Hp Hn; [ | constructor | constructor ].
  rewrite preorder_Element. constructor; [ now split | ].
  pose proof (documentOk_children _ Hn) as Hcs. simpl in Hcs.
  generalize dependent (DOM.Element t cl a cs). intros node Hn.
  induction IH as [ | c cs Hc _ IHcs ]; [ constructor | ].
  cbn [preorderForest]. fold (preorderForest node).
  inversion Hcs; subst.
  apply Forall_app. split; [ now apply Hc | now apply IHcs ].
Qed.

Lemma preorderForest_ok parent :
  documentOk parent = true ->
  Forall both_ok (preorderForest parent (DOM.childNodes parent)).
Proof.
  intro Hp. pose proof (documentOk_children _ Hp) as Hcs.
  induction (DOM.childNodes parent) as [ | c cs' IH ]; [ constructor | ].
  cbn [preorderForest]. fold (preorderForest parent).
  inversion Hcs; subst.
  apply Forall_app. split; [ now apply preorder_ok | now apply IH ].
Qed.

Section Classification.

Variable parseFromString : string -> DOM.Node.

(** C4. Repeatability classification.  In a document whose class lists are
    token lists (tokens without white space, none twice, as a [DOMTokenList]
    holds them), the record of an element is repeatable exactly when its tag
    is [li], or at least two element children of its parent (itself
    included) have its tag name and its set of classes, in whatever order, or
    its tag is one of [span], [a], [button], [div], [article], [section] and
    the tag of its parent is one of [ul], [ol], [nav], [menu].  In particular
    every [li] record is repeatable. *)
Theorem repeatable_classification :
  forall html : nullable string,
    documentOk (bodyOf parseFromString html) = true ->
    forall i parent node,
      nth_error (documentOrder parseFromString html) i = Some (parent, node) ->
      exists r,
        nth_error (parseHTMLToSchema parseFromString html) i = Some r
        /\ tag r = toLowerCase (DOM.tagName node)
        /\ (isRepeatable r = true <->
              tag r = "li"
              \/ 2 <= List.length (similarChildren parent node)
              \/ (In (tag r) ["span"; "a"; "button"; "div"; "article";
                              "section"]
                  /\ In (toLowerCase (DOM.tagName parent))
                        ["ul"; "ol"; "nav"; "menu"]))
        /\ (tag r = "li" -> isRepeatable r = true).
Proof.
  intros html Hok i parent node Hi.
  destruct (extracted_nth parseFromString html i parent node Hi)
    as [path' Hr].
  exists (recordAt (Some parent) node path' i).
  split; [ exact Hr | split; [ reflexivity | ] ].
  pose proof (preorderForest_ok (bodyOf parseFromString html) Hok) as Hall.
  rewrite Forall_forall in Hall.
  destruct (Hall _ (nth_error_In _ _ Hi)) as [Hp Hn]. simpl in Hp, Hn.
  assert (Hrules :
            isRepeatableElement (Some parent) node = true
            <-> Repeatable parent node).
  { apply isRepeatableElement_rules.
    - apply Forall_forall. intros c Hc.
      apply documentOk_classList.
      pose proof (documentOk_children _ Hp) as Hcs.
      rewrite Forall_forall in Hcs. apply Hcs.
      unfold DOM.children in Hc. now apply filter_In in Hc as [Hc _].
    - now apply documentOk_classList. }
  split; [ exact Hrules | ].
  intro Hli. apply Hrules. now left.
Qed.

End Classification.

(** The statement of C4 at the link with classes [x y], whose sibling has the
    classes [y x]. *)
Lemma repeatable_classification_witness :
  exists r,
    nth_error (parseHTMLToSchema sampleParser (JS.value listMarkup)) 1 = Some r
    /\ tag r = "a" /\ isRepeatable r = true.
Proof.
  destruct (repeatable_classification sampleParser (JS.value listMarkup)
              eq_refl 1 listDiv (anchor ["x"; "y"] "x y" "1") eq_refl)
    as (r & Hr & Htag & Hrules & _).
  exists r. split; [ exact Hr | split; [ exact Htag | ] ].
  apply Hrules. right. left. vm_compute. lia.
Defined.

(** The flags of the sample document: the two links with the classes [x] and
    [y] and the list items are repeatable, the link with the class [z] is
    not. *)
Lemma classification_example :
  map (fun r => (tag r, isRepeatable r))
      (parseHTMLToSchema sampleParser (JS.value listMarkup))
  = [("div", false); ("a", true); ("a", true); ("a", false);
     ("ul", false); ("li", true); ("li", true); ("b", false)].
Proof. reflexivity. Qed.

End ClassifierFacts.

Module ParserFacts.
Import JS SchemaParser Markup Browser Roundtrip.

(** The model of the parser on what the serializer writes. *)

(** *** Character references *)






(** *** Runs of characters *)











(** *** Tags *)








End ParserFacts.

Module ReadFacts.
Import JS SchemaParser Markup Browser Roundtrip ParserFacts.

(** What the serializer writes can be read. *)




(** *** Nodes that follow one another *)







End ReadFacts.

Module TreeLabels.
Import JS SchemaParser Markup Preorder Browser Roundtrip ParserFacts ReadFacts.

(** *** The labels of a tree *)














End TreeLabels.

Module ElementFacts.
Import JS SchemaParser Markup Preorder Browser Roundtrip ParserFacts ReadFacts
       TreeLabels.

(** *** The markup of an element is read as the element *)



Lemma clean_text_or_empty t : clean t = true -> clean (text_or_empty (Some t)) = true.
Proof. cbn [text_or_empty]. now destruct (t =? ""). Qed.

Section Collection.

Variable elements : list ElementRecord.
Hypothesis readable : Forall (fun e => parsable e = true) elements.






End Collection.

End ElementFacts.

Module DocumentFacts.
Import JS SchemaParser Markup Preorder Browser Roundtrip ParserFacts ReadFacts
       TreeLabels ElementFacts.

(** *** The markup of the roots is read as the document *)








(** *** Where the markup has what is emitted *)



Section Collection.

Variable elements : list ElementRecord.



End Collection.

(** *** Which records are emitted *)



Section Membership.

Variable elements : list ElementRecord.




End Membership.

End DocumentFacts.

Module RoundtripFacts.
Import JS SchemaParser Markup Preorder Samples Browser Roundtrip.

(** *** Escaped text comes back as it was *)


Section Escaping.

Variable parseFromString : string -> DOM.Node.

(** The parser is the browser's: where the model of the parsing of markup
    gives a tree, the parser returns that tree. *)
Hypothesis standard :
  forall html body,
    Browser.parse html = Some body -> parseFromString html = body.



End Escaping.


(** The same by evaluation: the markup of the record is read as a [div] with
    one text node, and the record made of it has the text [<script>]. *)
Lemma script_roundtrip_evaluated :
  Browser.parse scriptMarkup = Some scriptBody
  /\ map label (parseHTMLToSchema Browser.parser (JS.value scriptMarkup))
     = [("div", Some "<script>")].
Proof. split; reflexivity. Qed.

(** A collection with hostile text, classes and attribute values, an invalid
    tag and a nested element: the tags, the texts and the classes come back,
    and the attribute that was emitted comes back as it was. *)
Lemma hostile_roundtrip_evaluated :
  Forall (fun e => Roundtrip.parsable e = true) hostile
  /\ schemaToHTML 2 (JS.value hostile) = Some hostileOutput
  /\ emittedRoots hostile 2
     = Some [nth 0 hostile scriptRecord; nth 2 hostile scriptRecord]
  /\ map label
       (parseHTMLToSchema Browser.parser (JS.value (markup hostileOutput)))
     = [("div", Some "1 < 2 && 'q'"); ("span", Some "<b>")]
  /\ map classes
       (parseHTMLToSchema Browser.parser (JS.value (markup hostileOutput)))
     = [["a&b"; "<c>"]; []]
  /\ map (fun r => entries (attributes r))
       (parseHTMLToSchema Browser.parser (JS.value (markup hostileOutput)))
     = [[("title", ("x" ++ quot ++ "><script>")%string)]; []].
Proof.
  split; [repeat constructor|]. repeat split; vm_compute; reflexivity.
Qed.

(** The serializer of the other revision does not escape: the same record
    comes out with its text as it is, and the model of the parser does not
    read that markup, which opens a [script] element. *)
Lemma unescaped_revision_emits_raw_text :
  Unescaped.schemaToHTML 1 (JS.value [scriptRecord])
  = Some "<div><script></div>"
  /\ Browser.parse "<div><script></div>" = None.
Proof. split; reflexivity. Qed.

End RoundtripFacts.

(* ================================================================== *)
(** ** Further properties of the engine and of the editor's handlers *)
(* ================================================================== *)

Module EscapeFacts.
Import JS SchemaParser Markup Editing.

(** [escapeHTML] as a function of the characters. *)

Lemma length_append (s t : string) :
  String.length (s ++ t) = String.length s + String.length t.
Proof. induction s as [|c s IH]; simpl; [reflexivity | now rewrite IH]. Qed.

Lemma escapeChar_cases c :
  (special c = false /\ escapeChar c = String c "")
  \/ (special c = true
      /\ exists r, escapeChar c = String "&" r /\ 3 <= String.length r).
Proof.
  unfold special, escapeChar.
  destruct (Ascii.eqb c "&"); [right; split; [reflexivity|]; eexists; split; [reflexivity | simpl; lia]|].
  destruct (Ascii.eqb c "<"); [right; split; [reflexivity|]; eexists; split; [reflexivity | simpl; lia]|].
  destruct (Ascii.eqb c ">"); [right; split; [reflexivity|]; eexists; split; [reflexivity | simpl; lia]|].
  destruct (Ascii.eqb c "034"); [right; split; [reflexivity|]; eexists; split; [reflexivity | simpl; lia]|].
  destruct (Ascii.eqb c "'"); [right; split; [reflexivity|]; eexists; split; [reflexivity | simpl; lia]|].
  left. split; reflexivity.
Qed.

Lemma escapeChars_plain s : plain s = true -> escapeChars s = s.
Proof.
  unfold plain. induction s as [|c s IH]; simpl; [reflexivity|].
  intros H. apply andb_prop in H. destruct H as [Hc Hs].
  apply negb_true_iff in Hc.
  destruct (escapeChar_cases c) as [[_ E]|[E _]]; [|congruence].
  rewrite E, (IH Hs). reflexivity.
Qed.

Lemma escapeChars_length s : String.length s <= String.length (escapeChars s).
Proof.
  induction s as [|c s IH]; simpl; [lia|].
  rewrite length_append.
  destruct (escapeChar_cases c) as [[_ E]|[_ [r [E Hr]]]]; rewrite E; simpl; lia.
Qed.

Lemma escapeChars_grows s :
  plain s = false -> String.length s < String.length (escapeChars s).
Proof.
  unfold plain. induction s as [|c s IH]; simpl; [discriminate|].
  intros H. rewrite length_append.
  pose proof (escapeChars_length s) as Hl.
  destruct (escapeChar_cases c) as [[Hc E]|[_ [r [E Hr]]]]; rewrite E; simpl.
  - rewrite Hc in H. simpl in H. specialize (IH H). lia.
  - lia.
Qed.

(** X1.  [escapeHTML] never shortens a string, and it returns its argument
    unchanged exactly when the argument holds none of the five characters
    [&], [<], [>], the double quote and the apostrophe. *)
Theorem escapeHTML_fixed_iff_plain :
  forall s : string,
    String.length s <= String.length (escapeHTML s)
    /\ (escapeHTML s = s <-> plain s = true).
Proof.
  intros s. rewrite MarkupFacts.escapeHTML_chars. split.
  - apply escapeChars_length.
  - split.
    + intros E. destruct (plain s) eqn:P; [reflexivity|].
      apply escapeChars_grows in P. rewrite E in P. lia.
    + apply escapeChars_plain.
Qed.

Lemma escapeChar_inj c1 c2 r1 r2 :
  (escapeChar c1 ++ r1)%string = (escapeChar c2 ++ r2)%string ->
  c1 = c2 /\ r1 = r2.
Proof.
  unfold escapeChar.
  destruct (Ascii.eqb_spec c1 "&"); [subst|];
  [|destruct (Ascii.eqb_spec c1 "<"); [subst|]];
  [| |destruct (Ascii.eqb_spec c1 ">"); [subst|]];
  [| | |destruct (Ascii.eqb_spec c1 "034"); [subst|]];
  [| | | |destruct (Ascii.eqb_spec c1 "'"); [subst|]];
  (destruct (Ascii.eqb_spec c2 "&"); [subst|];
   [|destruct (Ascii.eqb_spec c2 "<"); [subst|]];
   [| |destruct (Ascii.eqb_spec c2 ">"); [subst|]];
   [| | |destruct (Ascii.eqb_spec c2 "034"); [subst|]];
   [| | | |destruct (Ascii.eqb_spec c2 "'"); [subst|]]);
  simpl; intros H;
  try discriminate H;
  try (injection H as H; split; [reflexivity | assumption]);
  try (injection H as H1 H2; congruence);
  try (injection H as H1 H2; split; congruence).
Qed.

Lemma escapeChars_inj s1 :
  forall s2, escapeChars s1 = escapeChars s2 -> s1 = s2.
Proof.
  induction s1 as [|c1 s1 IH]; intros [|c2 s2]; simpl; intros H.
  - reflexivity.
  - exfalso. destruct (escapeChar_cases c2) as [[_ E]|[_ [r [E _]]]];
      rewrite E in H; discriminate H.
  - exfalso. destruct (escapeChar_cases c1) as [[_ E]|[_ [r [E _]]]];
      rewrite E in H; discriminate H.
  - apply escapeChar_inj in H. destruct H as [-> H].
    f_equal. apply IH, H.
Qed.

(** X2.  [escapeHTML] loses nothing: two strings have the same escaped form
    only if they are the same string. *)
Theorem escapeHTML_injective :
  forall s1 s2 : string, escapeHTML s1 = escapeHTML s2 <-> s1 = s2.
Proof.
  intros s1 s2. split; [|now intros ->].
  rewrite !MarkupFacts.escapeHTML_chars. apply escapeChars_inj.
Qed.

End EscapeFacts.

Module ObjectFacts.
Import JS SchemaParser Editor Objects.

(** Objects as ordered lists of properties. *)

Lemma array_index_canonical k n :
  array_index k = Some n -> k = NilEmpty.string_of_uint (N.to_uint n).
Proof.
  unfold array_index. destruct (NilEmpty.uint_of_string k) as [d|]; [|discriminate].
  destruct (_ =? k) eqn:E; simpl; [|discriminate].
  destruct (negb _ && _); [|discriminate].
  intros H. injection H as <-. apply String.eqb_eq in E. now symmetry.
Qed.

Lemma array_index_inj k k' n :
  array_index k = Some n -> array_index k' = Some n -> k = k'.
Proof.
  intros H H'. apply array_index_canonical in H, H'. congruence.
Qed.

Lemma has_key_existsb k o :
  has_key k o = existsb (String.eqb k) (keys o).
Proof.
  induction o as [|[k' v'] o IH]; simpl; [reflexivity|].
  rewrite IH, (String.eqb_sym k' k). reflexivity.
Qed.

Lemma has_key_In k o : has_key k o = true <-> In k (keys o).
Proof.
  rewrite has_key_existsb, existsb_exists. split.
  - intros [x [Hx E]]. apply String.eqb_eq in E. now subst.
  - intros H. exists k. split; [assumption | apply String.eqb_refl].
Qed.

Lemma keys_overwrite k v o : keys (overwrite k v o) = keys o.
Proof.
  induction o as [|[k' v'] o IH]; simpl; [reflexivity|].
  destruct (k' =? k); simpl; [reflexivity | now rewrite IH].
Qed.

Lemma keys_insert_index n k v o x :
  In x (keys (insert_index n k v o)) <-> x = k \/ In x (keys o).
Proof.
  induction o as [|[k' v'] o IH]; simpl.
  - intuition.
  - destruct (array_index k') as [n'|]; [destruct (n' <? n)%N|]; simpl;
      rewrite ?IH; intuition.
Qed.

Lemma existsb_false_iff k ks :
  existsb (String.eqb k) ks = false <-> ~ In k ks.
Proof.
  split.
  - intros E H. assert (existsb (String.eqb k) ks = true); [|congruence].
    apply existsb_exists. exists k. split; [assumption | apply String.eqb_refl].
  - intros H. destruct (existsb (String.eqb k) ks) eqn:E; [|reflexivity].
    exfalso. apply H. apply existsb_exists in E. destruct E as [x [Hx E]].
    apply String.eqb_eq in E. now subst.
Qed.

Lemma canonicalKeys_cons k ks :
  canonicalKeys (k :: ks) = true <->
  ~ In k ks
  /\ match array_index k with
     | Some n => forallb (index_above n) ks = true
     | None => forallb (fun k' => negb (is_index k')) ks = true
     end
  /\ canonicalKeys ks = true.
Proof.
  simpl. rewrite !andb_true_iff, negb_true_iff, existsb_false_iff.
  destruct (array_index k); tauto.
Qed.

Lemma canonical_NoDup ks : canonicalKeys ks = true -> NoDup ks.
Proof.
  induction ks as [|k ks IH]; [constructor|].
  rewrite canonicalKeys_cons. intros [H1 [_ H3]]. constructor; auto.
Qed.

Lemma canonical_insert_index n k v o :
  canonical o = true -> has_key k o = false -> array_index k = Some n ->
  canonical (insert_index n k v o) = true.
Proof.
  unfold canonical. induction o as [|[k' v'] o IH]; intros Hc Hk Hn.
  - simpl. rewrite Hn. reflexivity.
  - simpl in Hk. apply orb_false_iff in Hk. destruct Hk as [Hkk Hk].
    apply String.eqb_neq in Hkk.
    change (keys ((k', v') :: o)) with (k' :: keys o) in Hc.
    apply canonicalKeys_cons in Hc. destruct Hc as [Hfresh [Hord Hc]].
    assert (Hnot : ~ In k (k' :: keys o)).
    { intros [E|E]; [congruence|]. apply has_key_In in E. congruence. }
    simpl. destruct (array_index k') as [n'|] eqn:En'.
    + destruct (N.ltb_spec n' n) as [Hlt|Hge].
      * change (canonicalKeys (k' :: keys (insert_index n k v o)) = true).
        apply canonicalKeys_cons. rewrite En'. split; [|split].
        -- rewrite keys_insert_index. intros [E|E]; [congruence | auto].
        -- apply forallb_forall. intros x Hx. apply keys_insert_index in Hx.
           destruct Hx as [->|Hx].
           ++ unfold index_above. rewrite Hn. now apply N.ltb_lt.
           ++ rewrite forallb_forall in Hord. auto.
        -- apply IH; assumption.
      * change (canonicalKeys (k :: k' :: keys o) = true).
        apply canonicalKeys_cons. rewrite Hn. split; [assumption|]. split.
        -- assert (Hnn : (n < n')%N).
           { destruct (N.eq_dec n n') as [E|E]; [|lia].
             subst n'. exfalso. apply Hkk. eapply array_index_inj; eauto. }
           simpl. unfold index_above at 1. rewrite En'.
           apply andb_true_iff. split; [now apply N.ltb_lt|].
           apply forallb_forall. intros x Hx.
           rewrite forallb_forall in Hord. specialize (Hord x Hx).
           unfold index_above in *. destruct (array_index x); [|reflexivity].
           apply N.ltb_lt in Hord. apply N.ltb_lt. lia.
        -- apply canonicalKeys_cons. rewrite En'. auto.
    + change (canonicalKeys (k :: k' :: keys o) = true).
      apply canonicalKeys_cons. rewrite Hn. split; [assumption|]. split.
      * simpl. unfold index_above at 1. rewrite En'. simpl.
        apply forallb_forall. intros x Hx.
        rewrite forallb_forall in Hord. specialize (Hord x Hx).
        unfold index_above, is_index in *. now destruct (array_index x).
      * apply canonicalKeys_cons. rewrite En'. auto.
Qed.

Lemma keys_app o1 o2 : keys (o1 ++ o2) = keys o1 ++ keys o2.
Proof. apply map_app. Qed.

Lemma canonical_append_plain k v o :
  canonical o = true -> has_key k o = false -> array_index k = None ->
  canonical (o ++ [(k, v)]) = true.
Proof.
  unfold canonical. rewrite keys_app. simpl.
  induction o as [|[k' v'] o IH]; intros Hc Hk Hn.
  - simpl. rewrite Hn. reflexivity.
  - simpl in Hk. apply orb_false_iff in Hk. destruct Hk as [Hkk Hk].
    apply String.eqb_neq in Hkk.
    change (keys ((k', v') :: o)) with (k' :: keys o) in *.
    apply canonicalKeys_cons in Hc. destruct Hc as [Hfresh [Hord Hc]].
    change (canonicalKeys (k' :: (keys o ++ [k])) = true).
    apply canonicalKeys_cons. split; [|split].
    + rewrite in_app_iff. simpl. intros [E|[E|[]]]; [auto | congruence].
    + destruct (array_index k'); rewrite forallb_app, Hord; simpl;
        unfold index_above, is_index; rewrite Hn; reflexivity.
    + apply IH; assumption.
Qed.

Lemma canonical_define k v o :
  canonical o = true -> canonical (obj_define k v o) = true.
Proof.
  intros Hc. unfold obj_define. destruct (has_key k o) eqn:Hk.
  - unfold canonical. now rewrite keys_overwrite.
  - destruct (array_index k) eqn:Hn.
    + now apply canonical_insert_index.
    + now apply canonical_append_plain.
Qed.

Lemma obj_set_define k v o :
  obj_set k v o = if k =? "__proto__" then o else obj_define k v o.
Proof. reflexivity. Qed.

Lemma canonical_set k v o :
  canonical o = true -> canonical (obj_set k v o) = true.
Proof.
  intros Hc. rewrite obj_set_define. destruct (k =? "__proto__");
    [assumption | now apply canonical_define].
Qed.

Lemma fold_left_invariant {A B : Type} (P : A -> Prop) (f : A -> B -> A)
  (l : list B) :
  (forall a b, P a -> P (f a b)) -> forall a, P a -> P (fold_left f l a).
Proof.
  intros Hf. induction l as [|b l IH]; simpl; intros a Ha; [assumption|].
  apply IH, Hf, Ha.
Qed.

Lemma canonical_collectAttributes attrs :
  canonical (collectAttributes attrs) = true.
Proof.
  unfold collectAttributes.
  apply (fold_left_invariant (fun o => canonical o = true)); [|reflexivity].
  intros o [k v] Ho. simpl. destruct (negb (k =? "class"));
    [now apply canonical_set | assumption].
Qed.

(** *** Reading a property *)

Lemma get_None k o : get k o = None <-> ~ In k (keys o).
Proof.
  induction o as [|[k' v'] o IH]; simpl; [tauto|].
  destruct (String.eqb_spec k' k).
  - split; [discriminate | intros H; exfalso; auto].
  - rewrite IH. intuition.
Qed.

Lemma get_overwrite k v o k' :
  has_key k o = true ->
  get k' (overwrite k v o) = if k =? k' then Some v else get k' o.
Proof.
  induction o as [|[k1 v1] o IH]; simpl; [discriminate|].
  destruct (String.eqb_spec k1 k) as [->|Hne]; simpl.
  - intros _. destruct (String.eqb_spec k k'); reflexivity.
  - intros Hk. rewrite (IH Hk).
    destruct (String.eqb_spec k1 k') as [->|]; [|reflexivity].
    destruct (String.eqb_spec k k'); [congruence | reflexivity].
Qed.

Lemma get_insert_index n k v o k' :
  has_key k o = false ->
  get k' (insert_index n k v o) = if k =? k' then Some v else get k' o.
Proof.
  induction o as [|[k1 v1] o IH]; simpl.
  - reflexivity.
  - intros Hk. apply orb_false_iff in Hk. destruct Hk as [Hkk Hk].
    apply String.eqb_neq in Hkk.
    destruct (array_index k1) as [n1|]; [destruct (n1 <? n)%N|]; simpl;
      try reflexivity.
    rewrite (IH Hk). destruct (String.eqb_spec k1 k') as [->|]; [|reflexivity].
    destruct (String.eqb_spec k k'); [congruence | reflexivity].
Qed.

Lemma get_append k v o k' :
  has_key k o = false ->
  get k' (o ++ [(k, v)]) = if k =? k' then Some v else get k' o.
Proof.
  induction o as [|[k1 v1] o IH]; simpl.
  - reflexivity.
  - intros Hk. apply orb_false_iff in Hk. destruct Hk as [Hkk Hk].
    apply String.eqb_neq in Hkk. rewrite (IH Hk).
    destruct (String.eqb_spec k1 k') as [->|]; [|reflexivity].
    destruct (String.eqb_spec k k'); [congruence | reflexivity].
Qed.

Lemma get_define k v o k' :
  get k' (obj_define k v o) = if k =? k' then Some v else get k' o.
Proof.
  unfold obj_define. destruct (has_key k o) eqn:Hk.
  - now apply get_overwrite.
  - destruct (array_index k); [now apply get_insert_index | now apply get_append].
Qed.

(** *** Copying an object *)

Lemma canonical_app_fresh ks k rest :
  canonicalKeys (ks ++ k :: rest) = true -> ~ In k ks.
Proof.
  induction ks as [|k' ks IH]; simpl app; [auto|].
  rewrite canonicalKeys_cons. intros [Hfresh [_ Hc]] [E|E].
  - subst. apply Hfresh. apply in_or_app. right. now left.
  - now apply IH.
Qed.

Lemma insert_index_last n k v o rest :
  canonicalKeys (keys o ++ k :: rest) = true -> array_index k = Some n ->
  insert_index n k v o = o ++ [(k, v)].
Proof.
  induction o as [|[k' v'] o IH]; simpl; [reflexivity|].
  intros Hc Hn.
  change (canonicalKeys (k' :: (keys o ++ k :: rest)) = true) in Hc.
  apply canonicalKeys_cons in Hc. destruct Hc as [_ [Hord Hc]].
  destruct (array_index k') as [n'|].
  - rewrite forallb_app in Hord. apply andb_prop in Hord.
    destruct Hord as [_ Hord]. simpl in Hord. apply andb_prop in Hord.
    destruct Hord as [Hord _]. unfold index_above in Hord. rewrite Hn in Hord.
    rewrite Hord. f_equal. now apply IH.
  - rewrite forallb_app in Hord. apply andb_prop in Hord.
    destruct Hord as [_ Hord]. simpl in Hord. apply andb_prop in Hord.
    destruct Hord as [Hord _]. unfold is_index in Hord. rewrite Hn in Hord.
    discriminate.
Qed.

Lemma define_last k v o rest :
  canonicalKeys (keys o ++ k :: rest) = true ->
  obj_define k v o = o ++ [(k, v)].
Proof.
  intros Hc. unfold obj_define.
  assert (Hk : has_key k o = false).
  { destruct (has_key k o) eqn:E; [|reflexivity].
    apply has_key_In in E. exfalso. eapply canonical_app_fresh; eauto. }
  rewrite Hk. destruct (array_index k) eqn:Hn; [|reflexivity].
  eapply insert_index_last; eauto.
Qed.

Lemma spread_from l :
  forall acc, canonical (acc ++ l) = true ->
  fold_left (fun acc kv => obj_define (fst kv) (snd kv) acc) l acc = acc ++ l.
Proof.
  induction l as [|[k v] l IH]; intros acc Hc; simpl.
  - now rewrite app_nil_r.
  - assert (E : obj_define k v acc = acc ++ [(k, v)]).
    { apply (define_last k v acc (keys l)).
      unfold canonical in Hc. rewrite keys_app in Hc. exact Hc. }
    rewrite E, IH; rewrite <- app_assoc; [reflexivity | exact Hc].
Qed.

Lemma spread_canonical o : canonical o = true -> spread o = o.
Proof. intros Hc. unfold spread, entries. now rewrite spread_from. Qed.

Lemma overwrite_same k v o :
  In (k, v) o -> NoDup (keys o) -> overwrite k v o = o.
Proof.
  induction o as [|[k' v'] o IH]; simpl; [reflexivity|].
  intros Hin Hnd. inversion Hnd as [|? ? Hfresh Hnd']; subst.
  destruct (String.eqb_spec k' k) as [->|Hne].
  - destruct Hin as [E|Hin]; [congruence|].
    exfalso. apply Hfresh. change k with (fst (k, v)). now apply in_map.
  - f_equal. apply IH; [|assumption].
    destruct Hin as [E|Hin]; [congruence | assumption].
Qed.

Lemma define_same k v o :
  canonical o = true -> In (k, v) o -> obj_define k v (spread o) = o.
Proof.
  intros Hc Hin. rewrite (spread_canonical o Hc). unfold obj_define.
  assert (Hk : has_key k o = true).
  { apply has_key_In. change k with (fst (k, v)). now apply in_map. }
  rewrite Hk. apply overwrite_same; [assumption|].
  now apply canonical_NoDup.
Qed.

End ObjectFacts.

Module AttributeFacts.
Import JS SchemaParser Editor Objects Preorder ObjectFacts.

(** The attributes that the extractor copies. *)

Lemma get_set k v o k' :
  get k' (obj_set k v o)
  = if k =? "__proto__" then get k' o
    else if k =? k' then Some v else get k' o.
Proof.
  rewrite obj_set_define. destruct (k =? "__proto__"); [reflexivity|].
  apply get_define.
Qed.

Lemma get_collect attrs k' :
  NoDup (map fst attrs) ->
  forall acc,
    get k'
      (fold_left
         (fun o attr => if negb (fst attr =? "class")
                        then obj_set (fst attr) (snd attr) o else o)
         attrs acc)
    = if dropped k' then get k' acc
      else match get k' attrs with
           | Some v => Some v
           | None => get k' acc
           end.
Proof.
  induction attrs as [|[k v] attrs IH]; intros Hnd acc.
  - simpl. now destruct (dropped k').
  - inversion Hnd as [|? ? Hfresh Hnd']; subst.
    cbn [fold_left fst snd]. rewrite (IH Hnd'). clear IH.
    cbn [get]. unfold dropped.
    destruct (String.eqb_spec k "class") as [Ec|Ec]; cbn [negb].
    + subst k. destruct (String.eqb_spec k' "class") as [->|Hn]; cbn [orb].
      * reflexivity.
      * destruct (k' =? "__proto__"); [reflexivity|].
        destruct (String.eqb_spec "class" k'); [congruence | reflexivity].
    + rewrite get_set.
      destruct (String.eqb_spec k "__proto__") as [Ep|Ep].
      * subst k. destruct (String.eqb_spec k' "class") as [->|Hn]; cbn [orb];
          [reflexivity|].
        destruct (String.eqb_spec k' "__proto__") as [->|Hp]; [reflexivity|].
        destruct (String.eqb_spec "__proto__" k'); [congruence | reflexivity].
      * destruct (String.eqb_spec k k') as [<-|Hkk].
        -- destruct (String.eqb_spec k "class"); [congruence|].
           destruct (String.eqb_spec k "__proto__"); [congruence|]. cbn [orb].
           assert (E : get k attrs = None) by (apply get_None; exact Hfresh).
           rewrite E. reflexivity.
        -- reflexivity.
Qed.

Lemma get_collectAttributes attrs k :
  NoDup (map fst attrs) ->
  get k (collectAttributes attrs)
  = if dropped k then None else get k attrs.
Proof.
  intros Hnd. unfold collectAttributes. rewrite (get_collect attrs k Hnd).
  cbn [get]. destruct (dropped k); [reflexivity|]. now destruct (get k attrs).
Qed.

(** X3.  The [attributes] object of the record of an element whose
    attribute names are pairwise distinct, as in every document: it lists no
    key twice, in the order of an object; it has no property [class] and no
    property [__proto__], which an assignment does not create; every other
    attribute of the element is a property with the value of the
    attribute. *)
Theorem extracted_attributes :
  forall (parseFromString : string -> DOM.Node) (html : nullable string)
         (i : nat) (p n : DOM.Node),
    nth_error (documentOrder parseFromString html) i = Some (p, n) ->
    NoDup (map fst (DOM.attributes n)) ->
    exists r,
      nth_error (parseHTMLToSchema parseFromString html) i = Some r
      /\ canonical (attributes r) = true
      /\ forall k,
           get k (attributes r)
           = if (k =? "class") || (k =? "__proto__") then None
             else get k (DOM.attributes n).
Proof.
  intros parse html i p n Hn Hnd.
  destruct (PreorderFacts.extracted_nth parse html i p n Hn) as [path' E].
  cbv beta in E. eexists. split; [exact E|]. cbn [attributes recordAt]. split.
  - apply canonical_collectAttributes.
  - intros k. now apply get_collectAttributes.
Qed.

Lemma extracted_attributes_witness :
  exists r,
    nth_error
      (parseHTMLToSchema Showcase.menuParser (JS.value Showcase.menuMarkup)) 1
    = Some r
    /\ canonical (attributes r) = true
    /\ forall k,
         get k (attributes r)
         = if (k =? "class") || (k =? "__proto__") then None
           else get k (DOM.attributes Showcase.menuTop).
Proof.
  apply (extracted_attributes Showcase.menuParser
           (JS.value Showcase.menuMarkup) 1 Showcase.menuNav
           Showcase.menuTop).
  - reflexivity.
  - repeat constructor; cbn; intuition discriminate.
Defined.

End AttributeFacts.

Module FormFacts.
Import JS SchemaParser Editor Objects Editing Projection ObjectFacts.

(** The form of the inspector: what a field holds and what writing it
    does. *)

Lemma split_nonempty sep s : split sep s <> [].
Proof.
  destruct s as [|c s]; simpl; [discriminate|].
  destruct (Ascii.eqb c sep); [discriminate|].
  destruct (split sep s); discriminate.
Qed.

Lemma split_plain s :
  string_forallb (fun c => negb (Ascii.eqb c " ")) s = true -> split " " s = [s].
Proof.
  induction s as [|c s IH]; simpl; [reflexivity|].
  intros H. apply andb_prop in H. destruct H as [Hc Hs].
  apply negb_true_iff in Hc. rewrite Hc, (IH Hs). reflexivity.
Qed.

Lemma split_token_space x r :
  string_forallb (fun c => negb (Ascii.eqb c " ")) x = true ->
  split " " (x ++ String " " r) = x :: split " " r.
Proof.
  induction x as [|c x IH]; simpl; [reflexivity|].
  intros H. apply andb_prop in H. destruct H as [Hc Hs].
  apply negb_true_iff in Hc. rewrite Hc, (IH Hs). reflexivity.
Qed.

Lemma split_pieces s :
  Forall (fun t => string_forallb (fun c => negb (Ascii.eqb c " ")) t = true) (split " " s).
Proof.
  induction s as [|c s IH]; simpl.
  - repeat constructor.
  - destruct (Ascii.eqb c " ") eqn:Ec.
    + constructor; [reflexivity | assumption].
    + destruct (split " " s) as [|piece pieces].
      * repeat constructor. simpl. now rewrite Ec.
      * inversion IH; subst. constructor; [|assumption].
        simpl. rewrite Ec. simpl. assumption.
Qed.

Lemma classToken_parts t :
  classToken t = true <-> t <> "" /\ string_forallb (fun c => negb (Ascii.eqb c " ")) t = true.
Proof.
  unfold classToken, truthy. rewrite andb_true_iff, negb_true_iff.
  now rewrite String.eqb_neq.
Qed.

Lemma split_join cl :
  forallb classToken cl = true ->
  filter truthy (split " " (join " " cl)) = cl.
Proof.
  induction cl as [|x cl IH]; [reflexivity|].
  intros H. cbn [forallb] in H. apply andb_prop in H. destruct H as [Hx Hcl].
  pose proof Hx as Hx'. apply classToken_parts in Hx'. destruct Hx' as [Hne Hsp].
  assert (Ht : truthy x = true).
  { unfold truthy. apply negb_true_iff. now apply String.eqb_neq. }
  rewrite ClassifierFacts.join_cons. destruct cl as [|y cl].
  - cbn [Classes.rest]. rewrite MarkupFacts.append_empty_r.
    rewrite (split_plain x Hsp). cbn [filter]. now rewrite Ht.
  - cbn [Classes.rest]. change (" " ++ join " " (y :: cl))%string
      with (String " " (join " " (y :: cl))).
    rewrite (split_token_space x _ Hsp). cbn [filter]. rewrite Ht.
    f_equal. apply IH, Hcl.
Qed.

Lemma split_filter_tokens v :
  forallb classToken (filter truthy (split " " v)) = true.
Proof.
  apply forallb_forall. intros t Ht. apply filter_In in Ht.
  destruct Ht as [Hin Htr]. unfold classToken. rewrite Htr. simpl.
  pose proof (split_pieces v) as Hp. rewrite Forall_forall in Hp. auto.
Qed.

Lemma span_decompose v :
  exists t r,
    v = (t ++ r)%string
    /\ string_forallb (fun c => negb (Ascii.eqb c " ")) t = true
    /\ (r = "" \/ exists r', r = String " " r').
Proof.
  induction v as [|c v IH].
  - exists "", "". repeat split; auto.
  - destruct (Ascii.eqb_spec c " ") as [->|Hc].
    + exists "", (String " " v). repeat split; eauto.
    + destruct IH as [t [r [-> [Ht Hr]]]]. exists (String c t), r.
      repeat split; [|exact Hr]. cbn [string_forallb]. rewrite Ht.
      destruct (Ascii.eqb_spec c " "); [congruence | reflexivity].
Qed.

Lemma pieces_of_split n :
  forall v, String.length v <= n -> Pieces v (filter truthy (split " " v)).
Proof.
  induction n as [|n IH]; intros v Hn.
  - destruct v; [constructor | simpl in Hn; lia].
  - destruct (span_decompose v) as [t [r [-> [Ht Hr]]]].
    destruct t as [|c t].
    + cbn [append] in *. destruct Hr as [->|[r' ->]]; [constructor|].
      cbn [split]. change (Ascii.eqb " " " ") with true. cbv iota.
      cbn [filter truthy]. change ("" =? "") with true. cbn [negb].
      constructor. apply IH. simpl in Hn. lia.
    + assert (Htok : classToken (String c t) = true).
      { apply classToken_parts. split; [discriminate | exact Ht]. }
      assert (Htr : truthy (String c t) = true) by reflexivity.
      destruct Hr as [->|[r' ->]].
      * rewrite MarkupFacts.append_empty_r, (split_plain _ Ht).
        cbn [filter]. rewrite Htr.
        rewrite <- (MarkupFacts.append_empty_r (String c t)) at 1.
        constructor; [exact Htok | now left | constructor].
      * rewrite (split_token_space _ r' Ht). cbn [filter]. rewrite Htr.
        constructor; [exact Htok | right; eauto |].
        constructor. apply IH.
        rewrite EscapeFacts.length_append in Hn. simpl in Hn. simpl. lia.
Qed.

Lemma pieces_are_split v l :
  Pieces v l -> l = filter truthy (split " " v).
Proof.
  induction 1 as [|s l _ IH|t s l Ht Hs _ IH].
  - reflexivity.
  - cbn [split]. change (Ascii.eqb " " " ") with true. cbv iota.
    cbn [filter truthy]. change ("" =? "") with true. cbn [negb]. exact IH.
  - apply classToken_parts in Ht as Hparts. destruct Hparts as [Hne Hsp].
    assert (Htr : truthy t = true).
    { unfold truthy. apply negb_true_iff. now apply String.eqb_neq. }
    destruct Hs as [->|[s' ->]].
    + rewrite MarkupFacts.append_empty_r, (split_plain _ Hsp).
      cbn [filter]. rewrite Htr. now rewrite IH.
    + rewrite (split_token_space _ s' Hsp). cbn [filter]. rewrite Htr.
      f_equal. rewrite IH.
      cbn [split]. change (Ascii.eqb " " " ") with true. cbv iota.
      cbn [filter truthy]. change ("" =? "") with true. reflexivity.
Qed.

Lemma pieces_iff_split v l :
  Pieces v l <-> l = filter truthy (split " " v).
Proof.
  split; [apply pieces_are_split|].
  intros ->. now apply (pieces_of_split (String.length v)).
Qed.

(** X4.  Writing the [classes] field: the record with the given id gets, as
    its classes, exactly the names that the value holds, in their order: the
    value is read as spaces and names, each name a run of characters other
    than the space, and the names are the list, whatever the number of
    spaces between them, before them and after them.  So every class of the
    record is a name without a space, and writing the joined form of a list
    of such names gives the list back.  Nothing else of the record changes,
    and the other records are not touched. *)
Theorem classes_field_roundtrip :
  forall (schema : list ElementRecord) (x v : string),
    Forall2
      (fun el el' =>
         if id el =? x then
           el' = with_classes (classes el') el
           /\ (forall l, Pieces v l <-> l = classes el')
           /\ forallb classToken (classes el') = true
           /\ (forall cl,
                 forallb classToken cl = true -> v = join " " cl ->
                 classes el' = cl)
         else el' = el)
      schema (handleFormUpdate schema x "classes" v).
Proof.
  intros schema x v. unfold handleFormUpdate.
  induction schema as [|el schema IH]; [constructor|].
  cbn [map]. constructor; [|exact IH].
  destruct (id el =? x); [|reflexivity].
  change ("classes" =? "text") with false.
  change ("classes" =? "classes") with true. cbv iota.
  split; [reflexivity|]. cbn [classes with_classes]. split; [|split].
  - intros l. apply pieces_iff_split.
  - apply split_filter_tokens.
  - intros cl Hcl ->. now apply split_join.
Qed.

Lemma prefix_append p s : String.prefix p (p ++ s) = true.
Proof.
  induction p as [|c p IH]; simpl.
  - now destruct s.
  - destruct (ascii_dec c c); [assumption | congruence].
Qed.

Lemma skip_append p s : skip (String.length p) (p ++ s) = s.
Proof. induction p as [|c p IH]; simpl; [reflexivity | assumption]. Qed.

Lemma replaceFirst_prefix p by_ s :
  replaceFirst p by_ (p ++ s) = (by_ ++ s)%string.
Proof.
  destruct (p ++ s)%string eqn:E; cbn [replaceFirst];
    rewrite <- E, prefix_append, skip_append; reflexivity.
Qed.

Lemma attr_name k : replaceFirst "attr_" "" ("attr_" ++ k) = k.
Proof. apply (replaceFirst_prefix "attr_" "" k). Qed.

Lemma attr_dispatch k :
  (("attr_" ++ k =? "text") = false)
  /\ (("attr_" ++ k =? "classes") = false)
  /\ startsWith "attr_" ("attr_" ++ k) = true.
Proof.
  split; [reflexivity|]. split; [reflexivity|].
  apply (prefix_append "attr_" k).
Qed.

(** X5.  Writing the field [attr_k]: the record with the given id gets a
    copy of its attributes in which [k] has the new value; read through its
    keys, every other attribute is as before, and the copy lists its keys as
    an object does.  Only the first [attr_] of the field name is taken off,
    so a key that itself starts with [attr_] is addressed correctly.  The
    other records are not touched. *)
Theorem attribute_field_update :
  forall (schema : list ElementRecord) (x k v : string),
    Forall2
      (fun el el' =>
         if id el =? x then
           el' = with_attributes (attributes el') el
           /\ (canonical (attributes el) = true ->
               canonical (attributes el') = true
               /\ forall k',
                    get k' (attributes el')
                    = if k =? k' then Some v else get k' (attributes el))
         else el' = el)
      schema (handleFormUpdate schema x ("attr_" ++ k) v).
Proof.
  intros schema x k v. unfold handleFormUpdate.
  destruct (attr_dispatch k) as [E1 [E2 E3]]. rewrite E1, E2, E3, attr_name.
  induction schema as [|el schema IH]; [constructor|].
  cbn [map]. constructor; [|exact IH].
  destruct (id el =? x); [|reflexivity].
  split; [reflexivity|]. intros Hc. cbn [attributes with_attributes].
  rewrite (spread_canonical _ Hc). split.
  - now apply canonical_define.
  - intros k'. apply get_define.
Qed.

Lemma fields_of e f :
  In f (generateFormFields e) ->
  f = tagField e
  \/ (exists t, text e = Some t /\ f = textField t)
  \/ f = classesField e
  \/ exists kv, In kv (attributes e) /\ f = attrField kv.
Proof.
  unfold generateFormFields. rewrite (ProjectionFacts.fold_push attrField).
  unfold push, entries. rewrite in_app_iff, in_map_iff.
  destruct (text e) as [t|]; cbn [app In].
  - intros [[H|[H|[H|[]]]]|[kv [H Hin]]]; subst; eauto 6.
  - intros [[H|[H|[]]]|[kv [H Hin]]]; subst; eauto 6.
Qed.

Lemma with_text_same e t : text e = Some t -> with_text (Some t) e = e.
Proof. destruct e; simpl; now intros ->. Qed.

Lemma with_classes_same e : with_classes (classes e) e = e.
Proof. now destruct e. Qed.

Lemma with_attributes_same e : with_attributes (attributes e) e = e.
Proof. now destruct e. Qed.

Lemma field_writeback e f :
  forallb classToken (classes e) = true ->
  canonical (attributes e) = true ->
  In f (generateFormFields e) ->
  (if name f =? "text" then with_text (Some (value f)) e
   else if name f =? "classes" then
     with_classes (filter truthy (split " " (value f))) e
   else if startsWith "attr_" (name f) then
     with_attributes
       (obj_define (replaceFirst "attr_" "" (name f)) (value f)
          (spread (attributes e))) e
   else e) = e.
Proof.
  intros Hcl Hc Hf. apply fields_of in Hf.
  destruct Hf as [->|[[t [Ht ->]]|[->|[[k v] [Hin ->]]]]].
  - reflexivity.
  - cbn [name value textField]. change ("text" =? "text") with true.
    cbv iota. now apply with_text_same.
  - cbn [name value classesField]. change ("classes" =? "text") with false.
    change ("classes" =? "classes") with true. cbv iota.
    rewrite (split_join _ Hcl). apply with_classes_same.
  - cbn [name value attrField fst snd].
    destruct (attr_dispatch k) as [E1 [E2 E3]]. rewrite E1, E2, E3, attr_name.
    rewrite (define_same k v _ Hc Hin). apply with_attributes_same.
Qed.

Lemma same_id_same_record (schema : list ElementRecord) a b :
  NoDup (map id schema) -> In a schema -> In b schema -> id a = id b ->
  a = b.
Proof.
  induction schema as [|r schema IH]; simpl; [tauto|].
  intros Hnd Ha Hb E. inversion Hnd as [|? ? Hfresh Hnd']; subst.
  destruct Ha as [->|Ha], Hb as [->|Hb]; auto.
  - exfalso. apply Hfresh. rewrite E. now apply in_map.
  - exfalso. apply Hfresh. rewrite <- E. now apply in_map.
Qed.

Lemma writeback_identity (schema : list ElementRecord) e f :
  NoDup (map id schema) ->
  In e schema ->
  forallb classToken (classes e) = true ->
  canonical (attributes e) = true ->
  In f (generateFormFields e) ->
  handleFormUpdate schema (id e) (name f) (value f) = schema.
Proof.
  intros Hnd He Hcl Hc Hf. unfold handleFormUpdate.
  rewrite <- (map_id schema) at 2. apply map_ext_in. intros el Hel.
  destruct (String.eqb_spec (id el) (id e)) as [E|_]; [|reflexivity].
  assert (el = e) by (eapply same_id_same_record; eauto). subst el.
  now apply field_writeback.
Qed.

Lemma attr_name_inj k1 k2 :
  ("attr_" ++ k1)%string = ("attr_" ++ k2)%string -> k1 = k2.
Proof. intros H. now injection H. Qed.

(** X6.  The names of the fields of a record whose attributes list no key
    twice are pairwise distinct, so a field name addresses one part of the
    record. *)
Theorem field_names_distinct :
  forall e : ElementRecord,
    canonical (attributes e) = true ->
    NoDup (map name (generateFormFields e)).
Proof.
  intros e Hc. unfold generateFormFields.
  rewrite (ProjectionFacts.fold_push attrField). unfold push, entries.
  assert (Hattr : NoDup (map name (map attrField (attributes e)))).
  { rewrite map_map. cbn [name attrField].
    apply canonical_NoDup in Hc. unfold keys in Hc.
    induction (attributes e) as [|[k v] o IH]; [constructor|].
    cbn [map fst] in *. inversion Hc as [|? ? Hfresh Hnd]; subst.
    constructor; [|now apply IH].
    rewrite in_map_iff. intros [[k' v'] [E Hin]]. cbn [fst] in E.
    apply attr_name_inj in E. subst k'. apply Hfresh.
    change k with (fst (k, v')). now apply in_map. }
  assert (Hbase : forall s, In s (map name (map attrField (attributes e))) ->
                            s <> "tag" /\ s <> "text" /\ s <> "classes").
  { intros s Hs. rewrite map_map in Hs. apply in_map_iff in Hs.
    destruct Hs as [[k v] [<- _]]. cbn [name attrField fst].
    repeat split; discriminate. }
  rewrite map_app.
  destruct (text e) as [t|]; cbn [app map name].
  - constructor.
    { cbn [In app]. intros [H|[H|H]]; try discriminate H.
      apply Hbase in H. tauto. }
    constructor.
    { cbn [In app]. intros [H|H]; try discriminate H.
      apply Hbase in H. tauto. }
    constructor; [|exact Hattr].
    intros H. apply Hbase in H. tauto.
  - constructor.
    { cbn [In app]. intros [H|H]; try discriminate H.
      apply Hbase in H. tauto. }
    constructor; [|exact Hattr].
    intros H. apply Hbase in H. tauto.
Qed.

Lemma field_names_distinct_witness :
  NoDup (map name
           (generateFormFields (nth 1 Showcase.menu Showcase.nobody))).
Proof.
  apply (field_names_distinct (nth 1 Showcase.menu Showcase.nobody)).
  reflexivity.
Defined.

End FormFacts.

Module CollectionFacts.
Import JS SchemaParser Editor Editing Preorder Reachability.

(** The collections that the handlers of the editor compute. *)

Lemma mapi_from {A B : Type} (f : A -> nat -> B) (xs : list A) :
  forall k,
    (fix each (xs : list A) (idx : nat) : list B :=
       match xs with
       | [] => []
       | x :: xs' => f x idx :: each xs' (S idx)
       end) xs k
    = map (fun p => f (fst p) (snd p)) (combine xs (seq k (List.length xs))).
Proof.
  induction xs as [|x xs IH]; intros k; simpl; [reflexivity|].
  now rewrite IH.
Qed.

Lemma mapi_combine {A B : Type} (f : A -> nat -> B) (xs : list A) :
  mapi f xs
  = map (fun p => f (fst p) (snd p)) (combine xs (seq 0 (List.length xs))).
Proof. apply mapi_from. Qed.

Lemma mapi_length {A B : Type} (f : A -> nat -> B) (xs : list A) :
  List.length (mapi f xs) = List.length xs.
Proof.
  rewrite mapi_combine, length_map, length_combine, length_seq. lia.
Qed.

Lemma mapi_nth {A B : Type} (f : A -> nat -> B) (xs : list A) i :
  nth_error (mapi f xs) i = option_map (fun x => f x i) (nth_error xs i).
Proof.
  rewrite mapi_combine.
  assert (H : forall k j,
             nth_error (map (fun p => f (fst p) (snd p))
                          (combine xs (seq k (List.length xs)))) j
             = option_map (fun x => f x (k + j)) (nth_error xs j)).
  { induction xs as [|x xs IH]; intros k j.
    - now destruct j.
    - destruct j as [|j]; simpl.
      + now rewrite Nat.add_0_r.
      + rewrite IH. now rewrite Nat.add_succ_r. }
  exact (H 0 i).
Qed.

Lemma mapi_ids (xs : list ElementRecord) :
  map id (mapi (fun el idx => with_id ("element-" ++ Number_toString idx) el)
               xs)
  = map elementId (seq 0 (List.length xs)).
Proof.
  rewrite mapi_combine. generalize 0 as k.
  induction xs as [|x xs IH]; intros k; simpl; [reflexivity|].
  now rewrite IH.
Qed.

(** *** What an edit leaves as it is *)

Lemma handleFormUpdate_skeleton schema x f v :
  map skeleton (handleFormUpdate schema x f v) = map skeleton schema.
Proof.
  unfold handleFormUpdate. rewrite map_map. apply map_ext. intros el.
  destruct (id el =? x); [|reflexivity].
  destruct (f =? "text"); [reflexivity|].
  destruct (f =? "classes"); [reflexivity|].
  destruct (startsWith "attr_" f); reflexivity.
Qed.

Lemma updateElementText_skeleton schema x t :
  map skeleton (updateElementText schema x t) = map skeleton schema.
Proof.
  unfold updateElementText. rewrite map_map. apply map_ext. intros el.
  destruct (id el =? x); reflexivity.
Qed.

Lemma skeleton_ids s s' :
  map skeleton s' = map skeleton s -> map id s' = map id s.
Proof.
  intros H.
  assert (E : forall l, map id l = map (fun p => fst (fst (fst (fst p))))
                                       (map skeleton l)).
  { intros l. rewrite map_map. reflexivity. }
  now rewrite !E, H.
Qed.

Lemma skeleton_children s s' :
  map skeleton s' = map skeleton s -> map children s' = map children s.
Proof.
  intros H.
  assert (E : forall l, map children l
                        = map (fun p => snd (fst (fst p))) (map skeleton l)).
  { intros l. rewrite map_map. reflexivity. }
  now rewrite !E, H.
Qed.

Lemma skeleton_length s s' :
  map skeleton s' = map skeleton s -> List.length s' = List.length s.
Proof.
  intros H. rewrite <- (length_map skeleton s'), H. apply length_map.
Qed.

(** *** Ids in order *)

Lemma consecutive_same_ids s s' :
  map id s' = map id s -> consecutive s -> consecutive s'.
Proof.
  unfold consecutive. intros E H.
  assert (L : List.length s' = List.length s).
  { rewrite <- (length_map id s'), E. apply length_map. }
  now rewrite E, L.
Qed.

Lemma consecutive_remove schema x : consecutive (removeElement schema x).
Proof.
  unfold consecutive, removeElement. now rewrite mapi_ids, mapi_length.
Qed.

Lemma consecutive_add schema e :
  consecutive schema -> consecutive (addRepeatableElement schema e).
Proof.
  unfold consecutive, addRepeatableElement. intros H.
  rewrite map_app, length_app, H. simpl.
  rewrite Nat.add_1_r, seq_S, map_app. reflexivity.
Qed.

Lemma consecutive_step schema schema' :
  step schema schema' -> consecutive schema -> consecutive schema'.
Proof.
  intros [x t|x f v|e He|x] H.
  - eapply consecutive_same_ids; [|exact H].
    apply skeleton_ids, updateElementText_skeleton.
  - eapply consecutive_same_ids; [|exact H].
    apply skeleton_ids, handleFormUpdate_skeleton.
  - now apply consecutive_add.
  - apply consecutive_remove.
Qed.

Lemma consecutive_NoDup schema : consecutive schema -> NoDup (map id schema).
Proof.
  unfold consecutive. intros ->.
  apply ForestFacts.NoDup_map_elementId, seq_NoDup.
Qed.

Lemma consecutive_nth schema i r :
  consecutive schema -> nth_error schema i = Some r -> id r = elementId i.
Proof.
  unfold consecutive. intros H Hr.
  assert (Hi : i < List.length schema).
  { apply nth_error_Some. congruence. }
  pose proof (map_nth_error id _ _ Hr) as E. rewrite H in E.
  rewrite (map_nth_error elementId i (seq 0 (List.length schema)) (d := i))
    in E.
  - now injection E.
  - rewrite nth_error_nth' with (d := 0); [|now rewrite length_seq].
    now rewrite seq_nth.
Qed.

Lemma consecutive_fresh schema :
  consecutive schema ->
  ~ In (elementId (List.length schema)) (map id schema).
Proof.
  unfold consecutive. intros -> H. apply in_map_iff in H.
  destruct H as [k [E Hk]]. apply ForestFacts.elementId_inj in E. subst k.
  apply in_seq in Hk. lia.
Qed.

Section States.

Variable parseFromString : string -> DOM.Node.

Lemma consecutive_parsed html :
  consecutive (parseHTMLToSchema parseFromString html).
Proof.
  unfold consecutive.
  pose proof (PreorderFacts.extracted_ids parseFromString html) as E.
  pose proof (PreorderFacts.extracted_length parseFromString html) as L.
  cbv beta in E, L. now rewrite E, L.
Qed.

(** X7.  Whatever the handlers do to a collection that the editor holds, the
    ids stay [element-0], [element-1], ... in the order of the records: no
    id occurs twice, and the id that [addRepeatableElement] gives to the
    record it appends is not taken. *)
Theorem ids_stay_consecutive :
  forall schema : list ElementRecord,
    reachable parseFromString schema ->
    map id schema = map elementId (seq 0 (List.length schema))
    /\ NoDup (map id schema)
    /\ ~ In ("element-" ++ Number_toString (List.length schema))%string
            (map id schema).
Proof.
  intros schema H.
  assert (C : consecutive schema).
  { induction H as [|html|s s' _ IH Hs].
    - reflexivity.
    - apply consecutive_parsed.
    - eapply consecutive_step; eauto. }
  split; [exact C|]. split.
  - now apply consecutive_NoDup.
  - now apply consecutive_fresh.
Qed.

End States.

Lemma ids_stay_consecutive_witness :
  let parsed :=
    parseHTMLToSchema Showcase.menuParser (JS.value Showcase.menuMarkup) in
  let schema :=
    removeElement (addRepeatableElement parsed (nth 1 parsed Showcase.nobody))
                  "element-0" in
  map id schema = map elementId (seq 0 (List.length schema))
  /\ NoDup (map id schema)
  /\ ~ In ("element-" ++ Number_toString (List.length schema))%string
          (map id schema).
Proof.
  apply (ids_stay_consecutive Showcase.menuParser).
  apply (reachable_step Showcase.menuParser
           (addRepeatableElement
              (parseHTMLToSchema Showcase.menuParser
                 (JS.value Showcase.menuMarkup))
              (nth 1 (parseHTMLToSchema Showcase.menuParser
                        (JS.value Showcase.menuMarkup))
                   Showcase.nobody))); [|apply step_remove].
  apply (reachable_step Showcase.menuParser
           (parseHTMLToSchema Showcase.menuParser
              (JS.value Showcase.menuMarkup)));
    [apply reachable_parsed|].
  apply step_add. right. left. reflexivity.
Defined.

(** *** Removing a record *)

Lemma filter_keeps_all (schema : list ElementRecord) x :
  ~ In x (map id schema) ->
  filter (fun el => negb (id el =? x)) schema = schema.
Proof.
  induction schema as [|r schema IH]; simpl; [reflexivity|].
  intros H. destruct (String.eqb_spec (id r) x) as [E|_]; [tauto|].
  simpl. f_equal. apply IH. tauto.
Qed.

Lemma filter_consecutive (schema : list ElementRecord) k :
  forall base,
    map id schema = map elementId (seq base (List.length schema)) ->
    base <= k ->
    filter (fun el => negb (id el =? elementId k)) schema
    = firstn (k - base) schema ++ skipn (S (k - base)) schema.
Proof.
  induction schema as [|r schema IH]; intros base H Hk.
  - now destruct (k - base).
  - cbn [List.length seq map] in H. injection H as Hr H.
    cbn [filter]. rewrite Hr.
    destruct (String.eqb_spec (elementId base) (elementId k)) as [E|Hne].
    + apply ForestFacts.elementId_inj in E. subst k.
      rewrite Nat.sub_diag. cbn [negb firstn skipn app].
      apply filter_keeps_all. rewrite H. intros Hin.
      apply in_map_iff in Hin. destruct Hin as [j [E Hj]].
      apply ForestFacts.elementId_inj in E. subst j. apply in_seq in Hj. lia.
    + assert (Hlt : S base <= k).
      { destruct (Nat.eq_dec base k); [congruence | lia]. }
      cbn [negb]. replace (k - base) with (S (k - S base)) by lia.
      cbn [firstn skipn app]. f_equal. now apply IH.
Qed.

Lemma nth_error_without {A : Type} (l : list A) k i :
  k < List.length l ->
  nth_error (firstn k l ++ skipn (S k) l) i
  = nth_error l (if (i <? k)%nat then i else S i).
Proof.
  intros Hk. destruct (Nat.ltb_spec i k) as [Hi|Hi].
  - rewrite nth_error_app1; [|rewrite length_firstn; lia].
    rewrite nth_error_firstn.
    destruct (Nat.ltb_spec i k); [reflexivity | lia].
  - rewrite nth_error_app2; rewrite length_firstn; [|lia].
    rewrite nth_error_skipn. f_equal. lia.
Qed.

(** X8.  Removing the record [element-k] from a collection whose ids are
    [element-0], [element-1], ... in order: the records before it stay as
    they are, and each later record moves one place down and takes the id of
    its new place, with its child references, like all its other properties,
    as they were. *)
Theorem removeElement_shifts :
  forall (schema : list ElementRecord) (k : nat),
    consecutive schema ->
    k < List.length schema ->
    List.length (removeElement schema (elementId k)) = List.length schema - 1
    /\ forall i,
         nth_error (removeElement schema (elementId k)) i
         = if (i <? k)%nat then nth_error schema i
           else option_map (with_id (elementId i)) (nth_error schema (S i)).
Proof.
  intros schema k Hc Hk. unfold removeElement.
  rewrite (filter_consecutive schema k 0); [|now rewrite Hc | lia].
  rewrite Nat.sub_0_r. split.
  - rewrite mapi_length, length_app, length_firstn, length_skipn. lia.
  - intros i. rewrite mapi_nth, nth_error_without by assumption.
    destruct (Nat.ltb_spec i k) as [Hi|Hi]; [|reflexivity].
    destruct (nth_error schema i) as [r|] eqn:Hr; [|reflexivity].
    cbn [option_map]. f_equal.
    pose proof (consecutive_nth schema i r Hc Hr) as E.
    destruct r. cbn in E |- *. unfold with_id. cbn.
    now rewrite E.
Qed.

Lemma removeElement_shifts_witness :
  List.length (removeElement Showcase.menu (elementId 1))
  = List.length Showcase.menu - 1
  /\ forall i,
       nth_error (removeElement Showcase.menu (elementId 1)) i
       = if (i <? 1)%nat then nth_error Showcase.menu i
         else option_map (with_id (elementId i))
                (nth_error Showcase.menu (S i)).
Proof.
  apply (removeElement_shifts Showcase.menu 1); [reflexivity | simpl; lia].
Defined.

End CollectionFacts.

Module SerializationFacts.
Import JS SchemaParser Editor Editing Preorder Reachability CollectionFacts.

(** The serializer on the collections of the editor. *)

Lemma forward_same_children s s' :
  map children s' = map children s -> forward s -> forward s'.
Proof.
  intros E H i r' c Hr' Hc.
  pose proof (map_nth_error children _ _ Hr') as Hm. rewrite E in Hm.
  rewrite nth_error_map in Hm. destruct (nth_error s i) as [r|] eqn:Hr;
    [|discriminate]. cbn in Hm. injection Hm as Hm.
  apply (H i r c Hr). now rewrite Hm.
Qed.

Lemma filter_nth {A : Type} (p : A -> bool) (l : list A) :
  forall i' r,
    nth_error (filter p l) i' = Some r ->
    exists i, i' <= i /\ nth_error l i = Some r.
Proof.
  induction l as [|a l IH]; intros i' r H.
  - now destruct i'.
  - cbn [filter] in H. destruct (p a).
    + destruct i' as [|i'].
      * exists 0. split; [lia | exact H].
      * destruct (IH i' r H) as [i [Hi Hr]]. exists (S i). split; [lia | exact Hr].
    + destruct (IH i' r H) as [i [Hi Hr]]. exists (S i). split; [lia | exact Hr].
Qed.

Lemma forward_remove schema x :
  forward schema -> forward (removeElement schema x).
Proof.
  intros H i' r' c Hr' Hc. unfold removeElement in Hr'.
  rewrite mapi_nth in Hr'.
  destruct (nth_error (filter _ schema) i') as [r|] eqn:Hr; [|discriminate].
  cbn in Hr'. injection Hr' as <-. cbn in Hc.
  destruct (filter_nth _ _ _ _ Hr) as [i [Hi Hri]].
  destruct (H i r c Hri Hc) as [j [-> Hj]]. exists j. split; [reflexivity | lia].
Qed.

Lemma forward_revision schema schema' :
  revision schema schema' -> forward schema -> forward schema'.
Proof.
  intros [x t|x f v|x] H.
  - eapply forward_same_children; [|exact H].
    apply skeleton_children, updateElementText_skeleton.
  - eapply forward_same_children; [|exact H].
    apply skeleton_children, handleFormUpdate_skeleton.
  - now apply forward_remove.
Qed.

Lemma revision_step schema schema' :
  revision schema schema' -> step schema schema'.
Proof. intros [x t|x f v|x]; constructor. Qed.

Lemma forward_edge schema x c :
  consecutive schema -> forward schema -> child_edge schema x c ->
  exists i j, x = elementId i /\ c = elementId j /\ i < j.
Proof.
  intros Hc Hf [r [Hin [Hid Hch]]].
  apply In_nth_error in Hin. destruct Hin as [i Hr].
  destruct (Hf i r c Hr Hch) as [j [-> Hj]].
  exists i, j. split; [|split; [reflexivity | exact Hj]].
  rewrite <- Hid. now apply consecutive_nth with (schema := schema).
Qed.

Lemma forward_acyclic schema :
  consecutive schema -> forward schema -> acyclic schema.
Proof.
  intros Hc Hf.
  assert (Hpath : forall x c,
             clos_trans string (child_edge schema) x c ->
             exists i j, x = elementId i /\ c = elementId j /\ i < j).
  { intros x c H. induction H as [x c H|x y z _ [i [j [-> [-> Hij]]]] _
                                         [j' [k [E [-> Hjk]]]]].
    - now apply (forward_edge schema).
    - apply ForestFacts.elementId_inj in E. subst j'.
      exists i, k. repeat split; lia. }
  intros x H. destruct (Hpath x x H) as [i [j [-> [E Hij]]]].
  apply ForestFacts.elementId_inj in E. lia.
Qed.

Lemma acyclic_serializes schema fuel :
  acyclic schema -> List.length schema < fuel ->
  exists o, schemaToHTML fuel (JS.value schema) = Some o.
Proof.
  intros Ha Hf. unfold schemaToHTML.
  destruct (List.length schema =? 0)%nat; [eexists; reflexivity|].
  unfold buildRoots.
  destruct (TerminationFacts.map_returning_Some
              (fun el => buildElement schema fuel (id el))
              (rootElements schema)) as [built E].
  { intros el _. now apply TerminationFacts.buildElement_returns. }
  rewrite E. eexists. reflexivity.
Qed.

Section States.

Variable parseFromString : string -> DOM.Node.

Lemma forward_parsed html :
  forward (parseHTMLToSchema parseFromString html).
Proof.
  intros i r c Hr Hc.
  destruct (ForestFacts.extracted_child_later parseFromString html i r c Hr Hc)
    as [j [r' [Hij [_ [_ E]]]]].
  exists j. split; assumption.
Qed.

Lemma revised_reachable schema :
  revised parseFromString schema -> reachable parseFromString schema.
Proof.
  induction 1 as [html|s s' _ IH Hs].
  - constructor.
  - eapply reachable_step; [exact IH | now apply revision_step].
Qed.

(** X9.  After any sequence of text edits, form edits and removals on an
    extracted collection, no record reaches itself through child references,
    although a removal leaves the references to the ids that have moved: the
    serializer still returns, for every bound on the depth of the recursion
    above the number of records. *)
Theorem revisions_stay_serializable :
  forall schema : list ElementRecord,
    revised parseFromString schema ->
    acyclic schema
    /\ forall fuel,
         List.length schema < fuel ->
         exists o, schemaToHTML fuel (JS.value schema) = Some o.
Proof.
  intros schema H.
  assert (Hfc : forward schema /\ consecutive schema).
  { induction H as [html|s s' _ [IHf IHc] Hs].
    - split; [apply forward_parsed | now apply consecutive_parsed].
    - split.
      + exact (forward_revision s s' Hs IHf).
      + apply (consecutive_step s s'); [now apply revision_step | exact IHc]. }
  destruct Hfc as [Hf Hc].
  pose proof (forward_acyclic schema Hc Hf) as Ha.
  split; [exact Ha|]. intros fuel Hfuel. now apply acyclic_serializes.
Qed.

End States.

Lemma revisions_stay_serializable_witness :
  let schema :=
    removeElement
      (handleFormUpdate
         (parseHTMLToSchema Showcase.menuParser
            (JS.value Showcase.menuMarkup))
         "element-1" "classes" "btn  wide")
      "element-0" in
  acyclic schema
  /\ forall fuel,
       List.length schema < fuel ->
       exists o, schemaToHTML fuel (JS.value schema) = Some o.
Proof.
  apply (revisions_stay_serializable Showcase.menuParser).
  apply (revised_step Showcase.menuParser
           (handleFormUpdate
              (parseHTMLToSchema Showcase.menuParser
                 (JS.value Showcase.menuMarkup))
              "element-1" "classes" "btn  wide")); [|apply revision_remove].
  apply (revised_step Showcase.menuParser
           (parseHTMLToSchema Showcase.menuParser
              (JS.value Showcase.menuMarkup)));
    [apply revised_parsed | apply revision_form].
Defined.

(** *** Appending a clone *)

Lemma find_app {A : Type} (p : A -> bool) (l1 l2 : list A) :
  find p (l1 ++ l2)
  = match find p l1 with Some x => Some x | None => find p l2 end.
Proof.
  induction l1 as [|a l1 IH]; simpl; [reflexivity|].
  destruct (p a); [reflexivity | exact IH].
Qed.

Lemma addRepeatableElement_clone schema e :
  addRepeatableElement schema e = schema ++ [clone schema e].
Proof. reflexivity. Qed.

Lemma findElement_old schema c x :
  x <> id c -> findElement (schema ++ [c]) x = findElement schema x.
Proof.
  intros Hx. unfold findElement. rewrite find_app.
  destruct (find _ schema); [reflexivity|]. simpl.
  destruct (String.eqb_spec (id c) x); [congruence | reflexivity].
Qed.

Lemma findElement_new schema c :
  ~ In (id c) (map id schema) -> findElement (schema ++ [c]) (id c) = Some c.
Proof.
  intros Hfresh. unfold findElement. rewrite find_app.
  destruct (find _ schema) as [r|] eqn:E.
  - exfalso. apply find_some in E. destruct E as [Hin E].
    apply String.eqb_eq in E. apply Hfresh. rewrite <- E. now apply in_map.
  - simpl. now rewrite String.eqb_refl.
Qed.

Lemma map_returning_same {A B : Type} (f g : A -> option B) (xs : list A) :
  (forall x, In x xs -> f x = g x) -> map_returning f xs = map_returning g xs.
Proof.
  induction xs as [|x xs IH]; intros H; simpl; [reflexivity|].
  rewrite (H x (or_introl eq_refl)), IH; [reflexivity|].
  intros y Hy. apply H. now right.
Qed.

Lemma buildElement_old schema c :
  unreferenced schema (id c) ->
  forall fuel x,
    x <> id c ->
    buildElement (schema ++ [c]) fuel x = buildElement schema fuel x.
Proof.
  intros Hu. induction fuel as [|fuel IH]; intros x Hx; [reflexivity|].
  cbn [buildElement]. rewrite (findElement_old schema c x Hx).
  destruct (findElement schema x) as [r|] eqn:Hr; [|reflexivity].
  destruct (negb (isValidTagName (tag r))); [reflexivity|].
  apply TerminationFacts.findElement_In in Hr. destruct Hr as [Hin _].
  rewrite (map_returning_same (buildElement (schema ++ [c]) fuel)
             (buildElement schema fuel)); [reflexivity|].
  intros y Hy. apply IH. intros ->. exact (Hu r Hin Hy).
Qed.

Lemma findElement_unique schema e :
  NoDup (map id schema) -> In e schema -> findElement schema (id e) = Some e.
Proof.
  intros Hnd Hin. unfold findElement.
  destruct (find (fun el => id el =? id e) schema) as [r|] eqn:E.
  - apply find_some in E. destruct E as [Hr E]. apply String.eqb_eq in E.
    f_equal. eapply FormFacts.same_id_same_record; eauto.
  - exfalso. pose proof (find_none _ _ E e Hin) as H. cbn in H.
    now rewrite String.eqb_refl in H.
Qed.

Lemma text_or_new_item_same t :
  text_or_empty t <> "" ->
  text_or_empty (Some (text_or_new_item t)) = text_or_empty t.
Proof.
  destruct t as [s|]; cbn; [|congruence].
  destruct (String.eqb_spec s "") as [->|Hs]; cbn; [congruence|].
  intros _. destruct (String.eqb_spec s ""); [congruence | reflexivity].
Qed.

Lemma buildElement_clone schema e :
  NoDup (map id schema) ->
  ~ In (elementId (List.length schema)) (map id schema) ->
  unreferenced schema (elementId (List.length schema)) ->
  In e schema ->
  text_or_empty (text e) <> "" ->
  forall fuel,
    buildElement (addRepeatableElement schema e) fuel
      (elementId (List.length schema))
    = buildElement schema fuel (id e).
Proof.
  intros Hnd Hfresh Hu Hin Ht fuel. rewrite addRepeatableElement_clone.
  destruct fuel as [|fuel]; [reflexivity|]. cbn [buildElement].
  change (elementId (List.length schema)) with (id (clone schema e)).
  rewrite (findElement_new schema (clone schema e) Hfresh).
  rewrite (findElement_unique schema e Hnd Hin).
  change (tag (clone schema e)) with (tag e).
  change (children (clone schema e)) with (children e).
  change (buildAttrs (clone schema e)) with (buildAttrs e).
  change (text (clone schema e)) with (Some (text_or_new_item (text e))).
  rewrite (text_or_new_item_same _ Ht).
  destruct (negb (isValidTagName (tag e))); [reflexivity|].
  rewrite (map_returning_same
             (buildElement (schema ++ [clone schema e]) fuel)
             (buildElement schema fuel)); [reflexivity|].
  intros y Hy. apply (buildElement_old schema (clone schema e) Hu).
  intros ->. exact (Hu e Hin Hy).
Qed.

Lemma set_has_childIds schema x :
  set_has (childIds schema) x = true
  <-> exists el, In el schema /\ In x (children el).
Proof.
  rewrite SerializerFacts.set_has_In. apply SerializerFacts.childIds_In.
Qed.

Lemma rootElements_clone schema e :
  unreferenced schema (elementId (List.length schema)) ->
  In e schema ->
  rootElements (addRepeatableElement schema e)
  = rootElements schema ++ [clone schema e].
Proof.
  intros Hu Hin. rewrite addRepeatableElement_clone. unfold rootElements.
  set (c := clone schema e).
  assert (Hsame : forall x,
             set_has (childIds (schema ++ [c])) x
             = set_has (childIds schema) x).
  { intros x. apply eq_true_iff_eq. rewrite !set_has_childIds. split.
    - intros [el [Hel Hx]]. apply in_app_iff in Hel.
      destruct Hel as [Hel|[<-|[]]]; [now exists el|].
      exists e. split; assumption.
    - intros [el [Hel Hx]]. exists el. split; [|assumption].
      apply in_or_app. now left. }
  rewrite filter_app. f_equal.
  - apply filter_ext. intros el. now rewrite Hsame.
  - cbn [filter]. rewrite Hsame.
    destruct (set_has (childIds schema) (id c)) eqn:E; [|reflexivity].
    exfalso. apply set_has_childIds in E. destruct E as [el [Hel Hx]].
    exact (Hu el Hel Hx).
Qed.

(** X10.  [addRepeatableElement] on a collection whose ids are [element-0],
    [element-1], ... in order and in which no record refers to the next free
    id, for a record of the collection: the clone becomes a new root, the
    last one, so the markup gets one more top-level line; what is built for
    every other id stays as it was; and when the original has a text, what
    is built for the clone is what is built for the original, the markup of
    its descendants included. *)
Theorem add_similar_appends_copy :
  forall (schema : list ElementRecord) (e : ElementRecord),
    consecutive schema ->
    unreferenced schema (elementId (List.length schema)) ->
    In e schema ->
    rootElements (addRepeatableElement schema e)
    = rootElements schema ++ [clone schema e]
    /\ (forall fuel x,
          x <> elementId (List.length schema) ->
          buildElement (addRepeatableElement schema e) fuel x
          = buildElement schema fuel x)
    /\ (text_or_empty (text e) <> "" ->
        forall fuel,
          buildElement (addRepeatableElement schema e) fuel
            (elementId (List.length schema))
          = buildElement schema fuel (id e)).
Proof.
  intros schema e Hc Hu Hin. split; [|split].
  - now apply rootElements_clone.
  - intros fuel x Hx. rewrite addRepeatableElement_clone.
    now apply (buildElement_old schema (clone schema e) Hu).
  - intros Ht fuel. apply buildElement_clone; try assumption.
    + now apply consecutive_NoDup.
    + now apply consecutive_fresh.
Qed.

Lemma add_similar_appends_copy_witness :
  let e := nth 1 Showcase.menu Showcase.nobody in
  rootElements (addRepeatableElement Showcase.menu e)
  = rootElements Showcase.menu ++ [clone Showcase.menu e]
  /\ (forall fuel x,
        x <> elementId (List.length Showcase.menu) ->
        buildElement (addRepeatableElement Showcase.menu e) fuel x
        = buildElement Showcase.menu fuel x)
  /\ (text_or_empty (text e) <> "" ->
      forall fuel,
        buildElement (addRepeatableElement Showcase.menu e) fuel
          (elementId (List.length Showcase.menu))
        = buildElement Showcase.menu fuel (id e)).
Proof.
  apply (add_similar_appends_copy Showcase.menu
           (nth 1 Showcase.menu Showcase.nobody)).
  - reflexivity.
  - intros r [<-|[<-|[<-|[]]]]; cbn; intuition discriminate.
  - right. left. reflexivity.
Defined.

End SerializationFacts.

Module RevisionFacts.
Import JS SchemaParser Editor Editing Markup.

(** What the serializer reads, and where its two revisions agree. *)

Lemma find_map {A B : Type} (g : A -> B) (p : B -> bool) (l : list A) :
  find p (map g l) = option_map g (find (fun a => p (g a)) l).
Proof.
  induction l as [|a l IH]; simpl; [reflexivity|].
  destruct (p (g a)); [reflexivity | exact IH].
Qed.

Lemma findElement_serialized elements x :
  findElement (map serialized elements) x
  = option_map serialized (findElement elements x).
Proof. unfold findElement. now rewrite find_map. Qed.

Lemma map_returning_map {A B C : Type} (g : A -> B) (f : B -> option C)
  (xs : list A) :
  map_returning f (map g xs) = map_returning (fun a => f (g a)) xs.
Proof.
  induction xs as [|x xs IH]; simpl; [reflexivity|]. now rewrite IH.
Qed.

Lemma buildElement_serialized elements :
  forall fuel x,
    buildElement (map serialized elements) fuel x
    = buildElement elements fuel x.
Proof.
  induction fuel as [|fuel IH]; intros x; [reflexivity|].
  cbn [buildElement]. rewrite findElement_serialized.
  destruct (findElement elements x) as [e|]; [|reflexivity].
  cbn [option_map]. change (tag (serialized e)) with (tag e).
  change (children (serialized e)) with (children e).
  change (text (serialized e)) with (text e).
  change (buildAttrs (serialized e)) with (buildAttrs e).
  destruct (negb (isValidTagName (tag e))); [reflexivity|].
  rewrite (SerializationFacts.map_returning_same
             (buildElement (map serialized elements) fuel)
             (buildElement elements fuel)); [reflexivity|].
  intros y _. apply IH.
Qed.

Lemma childIds_serialized elements :
  childIds (map serialized elements) = childIds elements.
Proof.
  unfold childIds. generalize (@nil string) as acc.
  induction elements as [|e elements IH]; intros acc; [reflexivity|].
  cbn [map fold_left]. now rewrite IH.
Qed.

Lemma rootElements_serialized elements :
  rootElements (map serialized elements)
  = map serialized (rootElements elements).
Proof.
  unfold rootElements. rewrite childIds_serialized.
  generalize (childIds elements) as ids. intros ids.
  induction elements as [|e elements IH]; [reflexivity|].
  cbn [map filter]. change (id (serialized e)) with (id e).
  destruct (negb (set_has ids (id e))); cbn [map]; now rewrite IH.
Qed.

(** X11.  The serializer reads neither [path] nor [isRepeatable]: with
    these two properties erased from every record, it returns the same
    markup and writes the same warnings, for every bound on the depth. *)
Theorem serializer_ignores_path_and_flag :
  forall (fuel : nat) (elements : list ElementRecord),
    schemaToHTML fuel (JS.value (map serialized elements))
    = schemaToHTML fuel (JS.value elements).
Proof.
  intros fuel elements. unfold schemaToHTML. rewrite length_map.
  destruct (List.length elements =? 0)%nat; [reflexivity|].
  unfold buildRoots. rewrite rootElements_serialized, map_returning_map.
  rewrite (SerializationFacts.map_returning_same
             (fun a => buildElement (map serialized elements) fuel
                         (id (serialized a)))
             (fun el => buildElement elements fuel (id el))); [reflexivity|].
  intros el _. apply buildElement_serialized.
Qed.

(** *** Records that need no escaping *)

Lemma plain_escapeHTML s : plain s = true -> escapeHTML s = s.
Proof.
  intros H. rewrite MarkupFacts.escapeHTML_chars.
  now apply EscapeFacts.escapeChars_plain.
Qed.

Lemma benign_parts e :
  benign e = true ->
  isValidTagName (tag e) = true
  /\ forallb plain (classes e) = true
  /\ forallb (fun kv => safe_name_test (fst kv) && plain (snd kv))
             (entries (attributes e)) = true
  /\ plain (text_or_empty (text e)) = true.
Proof.
  unfold benign. rewrite !andb_true_iff. tauto.
Qed.

Lemma map_plain l : forallb plain l = true -> map escapeHTML l = l.
Proof.
  induction l as [|x l IH]; [reflexivity|]. cbn [forallb map].
  intros H. apply andb_prop in H. destruct H as [Hx Hl].
  now rewrite (plain_escapeHTML x Hx), (IH Hl).
Qed.

Lemma fold_attrs_benign o :
  forallb (fun kv => safe_name_test (fst kv) && plain (snd kv)) o = true ->
  forall acc,
    fold_left
      (fun attrs kv =>
         if safe_name_test (fst kv)
         then push attrs
                (escapeHTML (fst kv) ++ "=" ++ quot ++ escapeHTML (snd kv)
                 ++ quot)%string
         else attrs) o acc
    = fold_left
        (fun attrs kv =>
           push attrs (fst kv ++ "=" ++ quot ++ snd kv ++ quot)%string)
        o acc.
Proof.
  induction o as [|[k v] o IH]; intros H acc; [reflexivity|].
  cbn [forallb fst snd] in H. apply andb_prop in H. destruct H as [Hkv Ho].
  apply andb_prop in Hkv. destruct Hkv as [Hk Hv].
  cbn [fold_left fst snd]. rewrite Hk.
  rewrite (MarkupFacts.safe_name_plain k Hk), (plain_escapeHTML v Hv).
  now apply IH.
Qed.

Lemma buildAttrs_benign e :
  benign e = true -> buildAttrs e = Unescaped.buildAttrs e.
Proof.
  intros H. apply benign_parts in H. destruct H as [_ [Hcl [Hat _]]].
  unfold buildAttrs, Unescaped.buildAttrs.
  rewrite (map_plain _ Hcl). now apply fold_attrs_benign.
Qed.

Lemma map_returning_markup {A : Type} (f : A -> option string)
  (g : A -> option Output) (xs : list A) :
  (forall x, In x xs -> f x = option_map markup (g x)) ->
  map_returning f xs = option_map (map markup) (map_returning g xs).
Proof.
  induction xs as [|x xs IH]; intros H; [reflexivity|].
  cbn [map_returning]. rewrite (H x (or_introl eq_refl)).
  destruct (g x) as [y|]; [|reflexivity]. cbn [option_map].
  rewrite IH; [|intros z Hz; apply H; now right].
  now destruct (map_returning g xs).
Qed.

Lemma map_returning_quiet {A : Type} (g : A -> option Output) (xs : list A) :
  (forall x o, In x xs -> g x = Some o -> warnings o = []) ->
  forall built,
    map_returning g xs = Some built -> List.concat (map warnings built) = [].
Proof.
  induction xs as [|x xs IH]; intros H built E.
  - injection E as <-. reflexivity.
  - cbn [map_returning] in E. destruct (g x) as [y|] eqn:Ey; [|discriminate].
    destruct (map_returning g xs) as [ys|] eqn:Eys; [|discriminate].
    injection E as <-. cbn [map List.concat].
    rewrite (H x y (or_introl eq_refl) Ey). cbn [app].
    apply IH; [|reflexivity]. intros z o Hz. apply H. now right.
Qed.

Lemma buildElement_benign elements :
  forallb benign elements = true ->
  forall fuel x,
    Unescaped.buildElement elements fuel x
    = option_map markup (buildElement elements fuel x)
    /\ forall o, buildElement elements fuel x = Some o -> warnings o = [].
Proof.
  intros Hb. induction fuel as [|fuel IH]; intros x.
  - split; [reflexivity | discriminate].
  - cbn [buildElement Unescaped.buildElement].
    destruct (findElement elements x) as [e|] eqn:He.
    2:{ split; [reflexivity|]. intros o E. now injection E as <-. }
    assert (Be : benign e = true).
    { apply TerminationFacts.findElement_In in He. destruct He as [Hin _].
      rewrite forallb_forall in Hb. now apply Hb. }
    pose proof (benign_parts e Be) as [Htag [_ [_ Htext]]].
    rewrite Htag. cbn [negb]. rewrite <- (buildAttrs_benign e Be).
    rewrite (map_returning_markup (Unescaped.buildElement elements fuel)
               (buildElement elements fuel));
      [|intros y _; apply IH].
    destruct (map_returning (buildElement elements fuel) (children e))
      as [built|] eqn:Eb; cbn [option_map].
    2:{ split; [reflexivity | discriminate]. }
    split.
    + cbn [markup fst]. now rewrite (plain_escapeHTML _ Htext).
    + intros o E. injection E as <-. cbn [warnings snd].
      apply (map_returning_quiet (buildElement elements fuel) (children e));
        [|exact Eb].
      intros y o _. apply IH.
Qed.

(** X12.  The two revisions of the serializer agree where nothing needs
    escaping: on a collection whose tags and attribute names pass the name
    test and whose classes, attribute values and texts hold none of the five
    characters that [escapeHTML] replaces, the revision without escaping
    returns the markup of the other one, and that one writes no warning. *)
Theorem revisions_agree_on_benign :
  forall (fuel : nat) (elements : list ElementRecord),
    forallb benign elements = true ->
    Unescaped.schemaToHTML fuel (JS.value elements)
    = option_map markup (schemaToHTML fuel (JS.value elements))
    /\ forall o,
         schemaToHTML fuel (JS.value elements) = Some o -> warnings o = [].
Proof.
  intros fuel elements Hb. unfold schemaToHTML, Unescaped.schemaToHTML.
  destruct (List.length elements =? 0)%nat.
  { split; [reflexivity|]. intros o E. now injection E as <-. }
  unfold buildRoots.
  rewrite (map_returning_markup
             (fun el => Unescaped.buildElement elements fuel (id el))
             (fun el => buildElement elements fuel (id el)));
    [|intros el _; apply (buildElement_benign elements Hb)].
  destruct (map_returning (fun el => buildElement elements fuel (id el))
              (rootElements elements)) as [built|] eqn:Eb; cbn [option_map].
  2:{ split; [reflexivity | discriminate]. }
  split; [reflexivity|].
  intros o E. injection E as <-. cbn [warnings snd].
  apply (map_returning_quiet (fun el => buildElement elements fuel (id el))
           (rootElements elements)); [|exact Eb].
  intros y o _. apply (buildElement_benign elements Hb).
Qed.

Lemma revisions_agree_on_benign_witness :
  Unescaped.schemaToHTML 4 (JS.value Showcase.menu)
  = option_map markup (schemaToHTML 4 (JS.value Showcase.menu))
  /\ forall o,
       schemaToHTML 4 (JS.value Showcase.menu) = Some o -> warnings o = [].
Proof.
  apply (revisions_agree_on_benign 4 Showcase.menu). reflexivity.
Defined.

End RevisionFacts.

Module CompositionFacts.
Import JS SchemaParser Editor Editing Preorder Reachability.

(** The serializer on what the extractor returns. *)

Lemma sorted_same_set (l1 : list nat) :
  forall l2,
    StronglySorted lt l1 -> StronglySorted lt l2 ->
    (forall x, In x l1 <-> In x l2) -> l1 = l2.
Proof.
  induction l1 as [|a l1 IH]; intros [|b l2] H1 H2 H.
  - reflexivity.
  - exfalso. apply (H b). now left.
  - exfalso. apply (H a). now left.
  - inversion H1 as [|? ? S1 F1]; subst. inversion H2 as [|? ? S2 F2]; subst.
    rewrite Forall_forall in F1, F2.
    assert (E : a = b).
    { destruct (proj1 (H a) (or_introl eq_refl)) as [E|Ha]; [now symmetry|].
      destruct (proj2 (H b) (or_introl eq_refl)) as [E|Hb]; [assumption|].
      apply F1 in Hb. apply F2 in Ha. lia. }
    subst b. f_equal. apply IH; try assumption.
    intros x. split; intros Hx.
    + destruct (proj1 (H x) (or_intror Hx)) as [E|Hx']; [|assumption].
      apply F1 in Hx. lia.
    + destruct (proj2 (H x) (or_intror Hx)) as [E|Hx']; [|assumption].
      apply F2 in Hx. lia.
Qed.

Lemma seq_sorted n : forall a, StronglySorted lt (seq a n).
Proof.
  induction n as [|n IH]; intros a; simpl; constructor; [apply IH|].
  apply Forall_forall. intros x Hx. apply in_seq in Hx. lia.
Qed.

Lemma filter_sorted (p : nat -> bool) (l : list nat) :
  StronglySorted lt l -> StronglySorted lt (filter p l).
Proof.
  induction 1 as [|a l S IH F]; simpl; [constructor|].
  destruct (p a); [|assumption]. constructor; [assumption|].
  rewrite Forall_forall in *. intros x Hx. apply filter_In in Hx.
  apply F. tauto.
Qed.

Lemma childOrdinals_sorted cs :
  forall base, StronglySorted lt (childOrdinals base cs).
Proof.
  induction cs as [|c cs IH]; intros base; [constructor|].
  cbn [childOrdinals]. destruct c as [t cl a kids|s|s]; cbn [DOM.isElement];
    try apply IH.
  constructor; [apply IH|].
  eapply Forall_impl; [|apply PreorderFacts.childOrdinals_above].
  intros k Hk. cbn beta in Hk. rewrite PreorderFacts.size_Element in Hk. lia.
Qed.

Lemma map_id_filter (p : string -> bool) (l : list ElementRecord) :
  map id (filter (fun el => p (id el)) l) = filter p (map id l).
Proof.
  induction l as [|e l IH]; simpl; [reflexivity|].
  destruct (p (id e)); simpl; now rewrite IH.
Qed.

Lemma filter_map_elementId (p : string -> bool) (l : list nat) :
  filter p (map elementId l) = map elementId (filter (fun k => p (elementId k)) l).
Proof.
  induction l as [|k l IH]; simpl; [reflexivity|].
  destruct (p (elementId k)); simpl; now rewrite IH.
Qed.

Section Extracted.

Variable parseFromString : string -> DOM.Node.

Lemma extracted_root_ids html :
  map id (rootElements (parseHTMLToSchema parseFromString html))
  = map elementId
      (childOrdinals 0 (DOM.childNodes (bodyOf parseFromString html))).
Proof.
  set (els := parseHTMLToSchema parseFromString html).
  set (cs := DOM.childNodes (bodyOf parseFromString html)).
  destruct (ForestFacts.recordsForest_references
              (bodyOf parseFromString html) cs)
    with (path := @nil nat) (j := 0) as [L [HL HP]].
  { apply Forall_forall. intros c _. apply ForestFacts.records_references. }
  assert (Hrec : els = recordsForest (bodyOf parseFromString html) [] cs 0).
  { exact (PreorderFacts.parseHTMLToSchema_records parseFromString html). }
  rewrite <- Hrec in HL.
  assert (Hlen : List.length els = sizes cs).
  { rewrite Hrec. apply PreorderFacts.recordsForest_length. }
  unfold rootElements.
  rewrite (map_id_filter (fun x => negb (set_has (childIds els) x)) els).
  rewrite (CollectionFacts.consecutive_parsed parseFromString html : map id els = _).
  rewrite filter_map_elementId. f_equal. fold els. rewrite Hlen.
  apply sorted_same_set.
  - apply filter_sorted, seq_sorted.
  - apply childOrdinals_sorted.
  - assert (Hnd : NoDup (childOrdinals 0 cs ++ L)).
    { eapply Permutation_NoDup; [apply Permutation_sym, HP | apply seq_NoDup]. }
    intros k. rewrite filter_In, negb_true_iff.
    assert (Hk : set_has (childIds els) (elementId k) = true <-> In k L).
    { rewrite SerializerFacts.set_has_In, SerializerFacts.childIds_In.
      rewrite <- in_flat_map, HL, in_map_iff. split.
      - intros [j [E Hj]]. apply ForestFacts.elementId_inj in E. now subst.
      - intros H. now exists k. }
    split.
    + intros [Hin Hno].
      assert (Hin' : In k (childOrdinals 0 cs ++ L)).
      { eapply Permutation_in; [apply Permutation_sym, HP | exact Hin]. }
      apply in_app_iff in Hin'. destruct Hin' as [H|H]; [assumption|].
      apply Hk in H. congruence.
    + intros Hin. split.
      * eapply Permutation_in; [exact HP|]. apply in_or_app. now left.
      * destruct (set_has (childIds els) (elementId k)) eqn:E; [|reflexivity].
        exfalso. pose proof (proj1 Hk eq_refl) as HinL.
        clear - Hnd Hin HinL.
        induction (childOrdinals 0 cs) as [|a l IH]; [contradiction|].
        cbn [app] in Hnd. inversion Hnd as [|? ? Hfresh Hnd']; subst.
        destruct Hin as [->|Hin]; [|now apply IH].
        apply Hfresh. apply in_or_app. now right.
Qed.

Lemma top_level_records node path cs :
  forall base,
    Forall2
      (fun k c =>
         base <= k
         /\ nth_error (recordsForest node path cs base) (k - base)
            = Some (recordAt (Some node) c path k))
      (childOrdinals base cs) (filter DOM.isElement cs).
Proof.
  induction cs as [|c cs IH]; intros base; [constructor|].
  cbn [childOrdinals filter recordsForest]. fold (recordsForest node path).
  destruct c as [t cl a kids|s|s]; cbn [DOM.isElement].
  - constructor.
    + split; [lia|]. rewrite Nat.sub_diag.
      now rewrite PreorderFacts.records_Element.
    + eapply Forall2_impl; [|apply IH].
      intros k c [Hk E]. cbn beta in *. split; [lia|].
      rewrite nth_error_app2; rewrite PreorderFacts.records_length; [|lia].
      rewrite <- E. f_equal. lia.
  - cbn [records size app]. rewrite Nat.add_0_r. apply IH.
  - cbn [records size app]. rewrite Nat.add_0_r. apply IH.
Qed.

Lemma Forall2_ids (els : list ElementRecord) :
  forall (l : list ElementRecord) (ks : list nat),
    map id l = map elementId ks -> Forall (fun r => In r els) l ->
    Forall2 (fun r k => In r els /\ id r = elementId k) l ks.
Proof.
  induction l as [|r l IH]; intros [|k ks] E F; try discriminate;
    [constructor|].
  injection E as E1 E2. inversion F; subst.
  constructor; [now split | now apply IH].
Qed.

Lemma Forall2_compose {A B C : Type} (R1 : A -> B -> Prop)
  (R2 : B -> C -> Prop) (l1 : list A) :
  forall l2 l3,
    Forall2 R1 l1 l2 -> Forall2 R2 l2 l3 ->
    Forall2 (fun a c => exists b, R1 a b /\ R2 b c) l1 l3.
Proof.
  induction l1 as [|a l1 IH]; intros l2 l3 H1 H2.
  - inversion H1; subst. inversion H2; subst. constructor.
  - inversion H1; subst. inversion H2; subst.
    constructor; [eexists; eauto | eapply IH; eauto].
Qed.

(** X13.  Root detection finds the top-level elements: the roots of an
    extracted collection are, one for one and in document order, the records
    of the element children of [body], each with a [path] of one position,
    its own. *)
Theorem extracted_roots_are_top_level :
  forall html : nullable string,
    Forall2
      (fun r c =>
         exists k,
           r = recordAt (Some (bodyOf parseFromString html)) c [] k
           /\ nth_error (parseHTMLToSchema parseFromString html) k = Some r)
      (rootElements (parseHTMLToSchema parseFromString html))
      (DOM.children (bodyOf parseFromString html)).
Proof.
  intros html.
  set (els := parseHTMLToSchema parseFromString html).
  set (body := bodyOf parseFromString html).
  assert (Hrec : els = recordsForest body [] (DOM.childNodes body) 0).
  { exact (PreorderFacts.parseHTMLToSchema_records parseFromString html). }
  pose proof (extracted_root_ids html) as Hids. fold els body in Hids.
  assert (Hin : Forall (fun r => In r els) (rootElements els)).
  { apply Forall_forall. intros r Hr. unfold rootElements in Hr.
    apply filter_In in Hr. tauto. }
  pose proof (Forall2_ids els _ _ Hids Hin) as H1.
  pose proof (top_level_records body [] (DOM.childNodes body) 0) as H2.
  eapply Forall2_impl; [|exact (Forall2_compose _ _ _ _ _ H1 H2)].
  intros r c [k [[Hr Hid] [_ Hk]]]. cbn beta in *.
  rewrite Nat.sub_0_r, <- Hrec in Hk. exists k.
  apply In_nth_error in Hr. destruct Hr as [i Hi].
  pose proof (CollectionFacts.consecutive_nth els i r
                (CollectionFacts.consecutive_parsed parseFromString html) Hi)
    as Hid'.
  rewrite Hid in Hid'. apply ForestFacts.elementId_inj in Hid'. subst i.
  split; congruence.
Qed.

(** X14.  The serializer returns on whatever the extractor returns, for
    every bound on the depth above the number of records: the markup is one
    line per element child of [body], in document order, each the markup
    built for the id of the record of that child; no other record starts a
    line. *)
Theorem parse_then_serialize :
  forall (html : nullable string) (fuel : nat),
    List.length (parseHTMLToSchema parseFromString html) < fuel ->
    exists built,
      map_returning
        (fun k => buildElement (parseHTMLToSchema parseFromString html) fuel
                    (elementId k))
        (childOrdinals 0 (DOM.childNodes (bodyOf parseFromString html)))
      = Some built
      /\ schemaToHTML fuel
           (JS.value (parseHTMLToSchema parseFromString html))
         = Some (join newline (map markup built),
                 List.concat (map warnings built)).
Proof.
  intros html fuel Hfuel.
  set (els := parseHTMLToSchema parseFromString html) in *.
  set (cs := DOM.childNodes (bodyOf parseFromString html)).
  pose proof (extracted_root_ids html) as Hids. fold els cs in Hids.
  assert (Ha : acyclic els)
    by exact (ForestFacts.extracted_acyclic parseFromString html).
  destruct (TerminationFacts.map_returning_Some
              (fun k => buildElement els fuel (elementId k))
              (childOrdinals 0 cs)) as [built E].
  { intros k _. now apply TerminationFacts.buildElement_returns. }
  exists built. split; [exact E|].
  assert (Eroots : map_returning (fun el => buildElement els fuel (id el))
                     (rootElements els) = Some built).
  { rewrite <- (RevisionFacts.map_returning_map id
                  (buildElement els fuel) (rootElements els)).
    rewrite Hids. now rewrite RevisionFacts.map_returning_map. }
  unfold schemaToHTML. destruct (List.length els =? 0)%nat eqn:El.
  - apply Nat.eqb_eq in El. apply length_zero_iff_nil in El.
    rewrite El in Eroots. cbn in Eroots. injection Eroots as <-. reflexivity.
  - unfold buildRoots. now rewrite Eroots.
Qed.

End Extracted.

Lemma parse_then_serialize_witness :
  exists built,
    map_returning
      (fun k => buildElement
                  (parseHTMLToSchema Showcase.menuParser
                     (JS.value Showcase.menuMarkup)) 4 (elementId k))
      (childOrdinals 0
         (DOM.childNodes
            (bodyOf Showcase.menuParser (JS.value Showcase.menuMarkup))))
    = Some built
    /\ schemaToHTML 4
         (JS.value (parseHTMLToSchema Showcase.menuParser
                      (JS.value Showcase.menuMarkup)))
       = Some (join newline (map markup built),
               List.concat (map warnings built)).
Proof.
  apply (parse_then_serialize Showcase.menuParser
           (JS.value Showcase.menuMarkup) 4).
  vm_compute. lia.
Defined.

End CompositionFacts.

Module RecordFacts.
Import JS SchemaParser Preorder Whitespace Paths.

(** The tag, the text and the path of an extracted record. *)

Lemma lower_not_capital c : is_capital (lower c) = false.
Proof. destruct c as [[] [] [] [] [] [] [] []]; reflexivity. Qed.

Lemma lower_lower c : lower (lower c) = lower c.
Proof. destruct c as [[] [] [] [] [] [] [] []]; reflexivity. Qed.

Lemma toLowerCase_no_capital s :
  string_forallb (fun c => negb (is_capital c)) (toLowerCase s) = true.
Proof.
  induction s as [|c s IH]; [reflexivity|].
  cbn [toLowerCase string_map string_forallb].
  rewrite lower_not_capital. exact IH.
Qed.

Lemma toLowerCase_twice s : toLowerCase (toLowerCase s) = toLowerCase s.
Proof.
  unfold toLowerCase. induction s as [|c s IH]; [reflexivity|].
  cbn [string_map]. now rewrite lower_lower, IH.
Qed.

Lemma trimStart_clean s :
  trimStart s = "" \/ starts_clean (trimStart s) = true.
Proof.
  induction s as [|c s IH]; [now left|]. cbn [trimStart].
  destruct (is_space c) eqn:E; [exact IH|]. right. cbn. now rewrite E.
Qed.

Lemma trimEnd_cons c s :
  trimEnd (String c s)
  = match trimEnd s with
    | EmptyString => if is_space c then EmptyString else String c EmptyString
    | t => String c t
    end.
Proof. reflexivity. Qed.

Lemma trimEnd_clean s : trimEnd s = "" \/ ends_clean (trimEnd s) = true.
Proof.
  induction s as [|c s IH]; [now left|]. rewrite trimEnd_cons.
  destruct (trimEnd s) as [|d t].
  - destruct (is_space c) eqn:E; [now left|]. right. cbn. now rewrite E.
  - right. destruct IH as [IH|IH]; [discriminate|]. exact IH.
Qed.

Lemma trimEnd_starts s :
  starts_clean s = true -> starts_clean (trimEnd s) = true.
Proof.
  destruct s as [|c s]; [discriminate|]. cbn [starts_clean]. intros H.
  rewrite trimEnd_cons. destruct (trimEnd s).
  - apply negb_true_iff in H. rewrite H. cbn. now rewrite H.
  - exact H.
Qed.

Lemma trim_tidy s : trim s = "" \/ tidy (trim s) = true.
Proof.
  unfold trim, tidy. destruct (trimStart_clean s) as [E|E].
  - left. now rewrite E.
  - destruct (trimEnd_clean (trimStart s)) as [E'|E']; [now left|].
    right. now rewrite (trimEnd_starts _ E), E'.
Qed.

Lemma trimStart_fixed s : starts_clean s = true -> trimStart s = s.
Proof.
  destruct s as [|c s]; [reflexivity|]. cbn. intros H.
  apply negb_true_iff in H. now rewrite H.
Qed.

Lemma trimEnd_fixed s : ends_clean s = true -> trimEnd s = s.
Proof.
  induction s as [|c s IH]; [reflexivity|]. intros H. rewrite trimEnd_cons.
  destruct s as [|d s].
  - cbn in *. apply negb_true_iff in H. now rewrite H.
  - rewrite IH by exact H. reflexivity.
Qed.

Lemma tidy_fixed s : tidy s = true -> trim s = s.
Proof.
  unfold tidy, trim. intros H. apply andb_prop in H. destruct H as [H1 H2].
  rewrite (trimStart_fixed s H1). now apply trimEnd_fixed.
Qed.

Lemma starts_clean_app s t :
  starts_clean s = true -> starts_clean (s ++ t) = true.
Proof. destruct s; [discriminate | trivial]. Qed.

Lemma ends_clean_app s t :
  t <> "" -> ends_clean (s ++ t) = ends_clean t.
Proof.
  intros Ht. induction s as [|c s IH]; [reflexivity|].
  cbn [append]. destruct (s ++ t)%string eqn:E.
  - destruct s; [cbn in E; congruence | discriminate].
  - change (ends_clean (String c (String a s0)))
      with (ends_clean (String a s0)).
    exact IH.
Qed.

Lemma join_tidy l :
  Forall (fun p => tidy p = true) l -> l <> [] ->
  tidy (join " " l) = true.
Proof.
  induction l as [|p l IH]; [congruence|]. intros H _.
  inversion H as [|? ? Hp Hl]; subst.
  rewrite ClassifierFacts.join_cons. destruct l as [|q l].
  - cbn [Classes.rest]. now rewrite MarkupFacts.append_empty_r.
  - cbn [Classes.rest]. specialize (IH Hl ltac:(discriminate)).
    unfold tidy in *. apply andb_prop in Hp. destruct Hp as [Hp1 Hp2].
    apply andb_prop in IH. destruct IH as [_ IH2].
    rewrite (starts_clean_app p _ Hp1). cbn [andb].
    rewrite ends_clean_app; [|discriminate].
    change (" " ++ join " " (q :: l))%string
      with (String " " (join " " (q :: l))).
    destruct (join " " (q :: l)) eqn:E; [discriminate IH2 | exact IH2].
Qed.

Lemma directText_tidy cs :
  directText cs = "" \/ tidy (directText cs) = true.
Proof.
  unfold directText.
  set (pieces := filter _ _).
  assert (H : Forall (fun p => tidy p = true) pieces).
  { apply Forall_forall. intros p Hp. unfold pieces in Hp.
    apply filter_In in Hp. destruct Hp as [Hin Hlen].
    apply in_map_iff in Hin. destruct Hin as [child [<- _]].
    destruct (trim_tidy (DOM.textContent child)) as [E|E]; [|exact E].
    rewrite E in Hlen. discriminate. }
  destruct pieces as [|p l] eqn:E; [now left|].
  right. apply join_tidy; [exact H | discriminate].
Qed.

Lemma directText_trimmed cs : trim (directText cs) = directText cs.
Proof.
  unfold directText.
  set (pieces := filter _ _).
  assert (H : Forall (fun p => tidy p = true) pieces).
  { apply Forall_forall. intros p Hp. unfold pieces in Hp.
    apply filter_In in Hp. destruct Hp as [Hin Hlen].
    apply in_map_iff in Hin. destruct Hin as [child [<- _]].
    destruct (trim_tidy (DOM.textContent child)) as [E|E]; [|exact E].
    rewrite E in Hlen. discriminate. }
  destruct pieces as [|p l] eqn:E; [reflexivity|].
  apply tidy_fixed, join_tidy; [exact H | discriminate].
Qed.

(** *** Paths *)

Lemma path_from_tops rs prefix base tops tops' i r :
  (forall k, In k tops -> In k tops') ->
  path_from rs prefix base tops i r -> path_from rs prefix base tops' i r.
Proof.
  intros Ht [Hid [[Hp Hin]|H]]; split; auto.
Qed.

Lemma forest_paths node cs :
  Forall paths_chained cs ->
  forall prefix base i r,
    nth_error (recordsForest node prefix cs base) i = Some r ->
    path_from (recordsForest node prefix cs base) prefix base
              (childOrdinals base cs) i r.
Proof.
  induction 1 as [|c cs Hc _ IH]; intros prefix base i r Hr.
  - now destruct i.
  - cbn [recordsForest childOrdinals] in *. fold (recordsForest node prefix) in *.
    pose proof (PreorderFacts.records_length c (Some node) prefix base) as Hlen.
    destruct (Nat.ltb_spec i (size c)) as [Hi|Hi].
    + rewrite nth_error_app1 in Hr by lia.
      destruct (Hc (Some node) prefix base i r Hr) as [Hid [[Hp Hin]|H]];
        (split; [assumption|]).
      * left. split; [assumption|].
        destruct c as [t cl a kids|s|s]; cbn [DOM.isElement];
          try (cbn in Hi; lia).
        destruct Hin as [<-|[]]. now left.
      * right. destruct H as [j [rj [Hj [Hrj H]]]]. exists j, rj.
        split; [assumption|]. split; [|assumption].
        rewrite nth_error_app1; [assumption | lia].
    + rewrite nth_error_app2 in Hr by lia. rewrite Hlen in Hr.
      pose proof (IH prefix (base + size c) (i - size c) r Hr) as HI.
      unfold path_from in HI.
      replace (base + size c + (i - size c)) with (base + i) in HI by lia.
      destruct HI as [Hid [[Hp Hin]|H]]; (split; [assumption|]).
      * left. split; [assumption|].
        destruct c as [t cl a kids|s|s]; cbn [DOM.isElement];
          [now right | |]; cbn [size] in Hin; now rewrite Nat.add_0_r in Hin.
      * right. destruct H as [j [rj [Hj [Hrj H]]]].
        exists (size c + j), rj. split; [lia|]. split; [|assumption].
        rewrite nth_error_app2; rewrite Hlen; [|lia].
        rewrite <- Hrj. f_equal. lia.
Qed.

Lemma records_paths n : paths_chained n.
Proof.
  induction n as [t cl a cs IH|s|s] using Trees.Node_tree_ind;
    intros parent prefix k i r Hr; try (now destruct i).
  rewrite PreorderFacts.records_Element in *.
  destruct i as [|i].
  - cbn in Hr. injection Hr as <-. split.
    + cbn. now rewrite Nat.add_0_r.
    + left. rewrite Nat.add_0_r. split; [reflexivity | now left].
  - cbn [nth_error] in Hr.
    destruct (forest_paths _ cs IH (prefix ++ [k]) (S k) i r Hr)
      as [Hid [[Hp Hin]|H]].
    all: replace (S k + i) with (k + S i) in * by lia.
    all: (split; [assumption|]); right.
    + exists 0. eexists. split; [lia|]. split; [reflexivity|].
      cbn [children path recordAt]. split; [|assumption].
      rewrite Hid. now apply in_map.
    + destruct H as [j [rj [Hj [Hrj H]]]]. exists (S j), rj.
      split; [lia|]. split; assumption.
Qed.

Section Extracted.

Variable parseFromString : string -> DOM.Node.

(** X15.  The [path] of an extracted record is a chain of positions from
    the top down to its own: the record of an element child of [body] has
    the path of its own position alone, and every other record has the path
    of the record that lists it as a child, which stands before it, followed
    by its own position. *)
Theorem extracted_paths_chain :
  forall (html : nullable string) (i : nat) (r : ElementRecord),
    nth_error (parseHTMLToSchema parseFromString html) i = Some r ->
    (path r = [i]
     /\ In i (childOrdinals 0
                (DOM.childNodes (bodyOf parseFromString html))))
    \/ exists j rj,
         j < i
         /\ nth_error (parseHTMLToSchema parseFromString html) j = Some rj
         /\ In (id r) (children rj)
         /\ path r = path rj ++ [i].
Proof.
  intros html i r Hr.
  pose proof (PreorderFacts.parseHTMLToSchema_records parseFromString html)
    as E. cbv beta in E. rewrite E in Hr |- *.
  destruct (forest_paths (bodyOf parseFromString html)
              (DOM.childNodes (bodyOf parseFromString html))) 
    with (prefix := @nil nat) (base := 0) (i := i) (r := r)
    as [_ H]; [|exact Hr|exact H].
  apply Forall_forall. intros c _. apply records_paths.
Qed.

(** X16.  Every extracted record has a tag that [toLowerCase] leaves as
    it is, without a capital letter, and a text that is defined and that
    [trim] leaves as it is: it is empty, or its first and its last character
    are no white space (TAB, LF, VT, FF, CR, SPACE, no-break space). *)
Theorem extracted_tag_and_text :
  forall html : nullable string,
    Forall
      (fun r =>
         toLowerCase (tag r) = tag r
         /\ string_forallb (fun c => negb (is_capital c)) (tag r) = true
         /\ exists t,
              text r = Some t /\ trim t = t /\ (t = "" \/ tidy t = true))
      (parseHTMLToSchema parseFromString html).
Proof.
  intros html. apply Forall_forall. intros r Hr.
  apply In_nth_error in Hr. destruct Hr as [i Hi].
  destruct (ForestFacts.extracted_record parseFromString html i r Hi)
    as [p [n [path' [_ ->]]]].
  cbn [tag text recordAt]. split; [|split].
  - apply toLowerCase_twice.
  - apply toLowerCase_no_capital.
  - eexists. split; [reflexivity|]. split.
    + apply directText_trimmed.
    + apply directText_tidy.
Qed.

End Extracted.

Lemma extracted_paths_chain_witness :
  let els :=
    parseHTMLToSchema Showcase.menuParser (JS.value Showcase.menuMarkup) in
  (path (nth 2 els Showcase.nobody) = [2]
   /\ In 2 (childOrdinals 0
              (DOM.childNodes
                 (bodyOf Showcase.menuParser
                    (JS.value Showcase.menuMarkup)))))
  \/ exists j rj,
       j < 2
       /\ nth_error els j = Some rj
       /\ In (id (nth 2 els Showcase.nobody)) (children rj)
       /\ path (nth 2 els Showcase.nobody) = path rj ++ [2].
Proof.
  apply (extracted_paths_chain Showcase.menuParser
           (JS.value Showcase.menuMarkup) 2).
  reflexivity.
Defined.

End RecordFacts.

Module InspectorFacts.
Import JS SchemaParser Editor Objects Editing Preorder Classes.

(** The states of the editor and the form of the inspector. *)

Lemma canonical_spread o : canonical (spread o) = true.
Proof.
  unfold spread.
  apply (ObjectFacts.fold_left_invariant (fun a => canonical a = true));
    [|reflexivity].
  intros a kv Ha. now apply ObjectFacts.canonical_define.
Qed.

Lemma token_classToken t : tokenb t = true -> classToken t = true.
Proof.
  intros H. apply FormFacts.classToken_parts. split.
  - now apply ClassifierFacts.token_nonempty.
  - exact (ClassifierFacts.token_spaceless t H).
Qed.

Lemma kept_form_update schema x f v :
  Forall (fun e => kept e = true) schema ->
  Forall (fun e => kept e = true) (handleFormUpdate schema x f v).
Proof.
  intros H. unfold handleFormUpdate. apply Forall_map.
  eapply Forall_impl; [|exact H]. intros el Hel. cbn beta.
  destruct (id el =? x); [|exact Hel].
  destruct (f =? "text"); [exact Hel|].
  unfold kept in *. apply andb_prop in Hel. destruct Hel as [Hcl Hat].
  destruct (f =? "classes").
  - cbn [classes attributes with_classes].
    now rewrite FormFacts.split_filter_tokens, Hat.
  - destruct (startsWith "attr_" f); [|now rewrite Hcl, Hat].
    cbn [classes attributes with_attributes]. rewrite Hcl.
    rewrite ObjectFacts.canonical_define; [reflexivity|].
    apply canonical_spread.
Qed.

Lemma kept_step schema schema' :
  step schema schema' ->
  Forall (fun e => kept e = true) schema ->
  Forall (fun e => kept e = true) schema'.
Proof.
  intros [x t|x f v|e He|x] H.
  - unfold updateElementText. apply Forall_map.
    eapply Forall_impl; [|exact H]. intros el Hel. cbn beta.
    destruct (id el =? x); exact Hel.
  - now apply kept_form_update.
  - unfold addRepeatableElement. apply Forall_app. split; [exact H|].
    constructor; [|constructor].
    rewrite Forall_forall in H. exact (H e He).
  - unfold removeElement. rewrite CollectionFacts.mapi_combine.
    apply Forall_map. apply Forall_forall. intros [el idx] Hin.
    apply in_combine_l in Hin. apply filter_In in Hin.
    rewrite Forall_forall in H. cbn [fst snd]. apply (H el). tauto.
Qed.

Section States.

Variable parseFromString : string -> DOM.Node.

(** Every class list of every document is a token list, as in a browser. *)
Hypothesis token_lists : forall s, documentOk (parseFromString s) = true.

Lemma kept_parsed html :
  Forall (fun e => kept e = true) (parseHTMLToSchema parseFromString html).
Proof.
  apply Forall_forall. intros r Hr. apply In_nth_error in Hr.
  destruct Hr as [i Hi].
  destruct (ForestFacts.extracted_record parseFromString html i r Hi)
    as [p [n [path' [Hn ->]]]].
  unfold kept. cbn [classes attributes recordAt].
  rewrite ObjectFacts.canonical_collectAttributes, andb_true_r.
  apply nth_error_In in Hn.
  pose proof (ClassifierFacts.preorderForest_ok
                (bodyOf parseFromString html)
                (token_lists (DOMString html))) as Hok.
  rewrite Forall_forall in Hok. destruct (Hok _ Hn) as [_ Hnode].
  cbn [snd] in Hnode. apply ClassifierFacts.documentOk_classList in Hnode.
  unfold classListOk in Hnode. apply andb_prop in Hnode.
  destruct Hnode as [Htok _]. apply forallb_forall. intros t Ht.
  rewrite forallb_forall in Htok. apply token_classToken. now apply Htok.
Qed.

Lemma kept_reachable schema :
  reachable parseFromString schema ->
  Forall (fun e => kept e = true) schema /\ consecutive schema.
Proof.
  induction 1 as [|html|s s' _ [IHk IHc] Hs].
  - split; [constructor | reflexivity].
  - split; [apply kept_parsed | apply CollectionFacts.consecutive_parsed].
  - split; [exact (kept_step s s' Hs IHk)
           | exact (CollectionFacts.consecutive_step s s' Hs IHc)].
Qed.

(** X17.  The form shows what it writes.  With a parser whose documents have
    token lists for class lists, in every collection that the editor can
    hold, for every record and every field that [generateFormFields] gives
    for it (read-only [tag] included): handing the value that the field
    shows back to [handleFormUpdate] leaves the collection as it is. *)
Theorem form_writeback :
  forall (schema : list ElementRecord) (e : ElementRecord) (f : Field),
    reachable parseFromString schema ->
    In e schema ->
    In f (generateFormFields e) ->
    handleFormUpdate schema (id e) (name f) (value f) = schema.
Proof.
  intros schema e f Hs He Hf.
  destruct (kept_reachable schema Hs) as [Hk Hc].
  rewrite Forall_forall in Hk. specialize (Hk e He). unfold kept in Hk.
  apply andb_prop in Hk. destruct Hk as [Hcl Hat].
  apply FormFacts.writeback_identity; try assumption.
  now apply CollectionFacts.consecutive_NoDup.
Qed.

End States.

Lemma form_writeback_witness :
  let schema :=
    handleFormUpdate
      (parseHTMLToSchema Showcase.menuParser (JS.value Showcase.menuMarkup))
      "element-1" "attr_title" "Up" in
  let e := nth 1 schema Showcase.nobody in
  let f := nth 4 (generateFormFields e) (Projection.tagField e) in
  handleFormUpdate schema (id e) (name f) (value f) = schema.
Proof.
  apply (form_writeback Showcase.menuParser).
  - intros s. unfold Showcase.menuParser.
    destruct (s =? Showcase.menuMarkup); reflexivity.
  - apply (reachable_step Showcase.menuParser
             (parseHTMLToSchema Showcase.menuParser
                (JS.value Showcase.menuMarkup)));
      [apply reachable_parsed | apply step_form].
  - right. left. reflexivity.
  - do 4 right. left. reflexivity.
Defined.

End InspectorFacts.

Module ConsistencyFacts.
Import JS SchemaParser Preorder Classes Samples.

(** The classifier on elements that look alike. *)

Lemma similarChildren_same parent n1 n2 :
  DOM.tagName n1 = DOM.tagName n2 ->
  sameClassSet (DOM.classList n1) (DOM.classList n2) = true ->
  similarChildren parent n1 = similarChildren parent n2.
Proof.
  intros Ht Hs. unfold similarChildren. apply filter_ext. intros c.
  rewrite Ht. f_equal. apply eq_true_iff_eq.
  rewrite ClassifierFacts.sameClassSet_iff in Hs.
  rewrite !ClassifierFacts.sameClassSet_iff.
  split; intros H x; [rewrite <- Hs | rewrite Hs]; apply H.
Qed.

(** X18.  The classifier treats like elements alike: below a parent whose
    children have token lists for class lists, two elements with the same
    tag name and the same set of classes, in whatever order, get the same
    answer, whatever their attributes, their text and their children. *)
Theorem similar_elements_classified_alike :
  forall parent n1 n2 : DOM.Node,
    Forall (fun c => classListOk (DOM.classList c) = true)
           (DOM.children parent) ->
    classListOk (DOM.classList n1) = true ->
    classListOk (DOM.classList n2) = true ->
    DOM.tagName n1 = DOM.tagName n2 ->
    sameClassSet (DOM.classList n1) (DOM.classList n2) = true ->
    isRepeatableElement (Some parent) n1
    = isRepeatableElement (Some parent) n2.
Proof.
  intros parent n1 n2 Hkids H1 H2 Ht Hs. apply eq_true_iff_eq.
  rewrite (ClassifierFacts.isRepeatableElement_rules parent n1 Hkids H1).
  rewrite (ClassifierFacts.isRepeatableElement_rules parent n2 Hkids H2).
  unfold Repeatable.
  rewrite (similarChildren_same parent n1 n2 Ht Hs), Ht. reflexivity.
Qed.

Lemma similar_elements_classified_alike_witness :
  isRepeatableElement (Some listDiv) (anchor ["x"; "y"] "x y" "1")
  = isRepeatableElement (Some listDiv) (anchor ["y"; "x"] "y x" "2").
Proof.
  apply (similar_elements_classified_alike listDiv
           (anchor ["x"; "y"] "x y" "1") (anchor ["y"; "x"] "y x" "2"));
    try reflexivity.
  repeat constructor.
Defined.

End ConsistencyFacts.

Module UnescapedFacts.
Import JS SchemaParser Reachability.

(** Termination of the serializer of the revision without escaping. *)

Section Chains.

Variable elements : list ElementRecord.

Lemma unescaped_stuck_chain fuel :
  forall x,
    Unescaped.buildElement elements fuel x = None ->
    exists l, List.length l = fuel /\ chain elements x l.
Proof.
  induction fuel as [|fuel IH]; intros x H.
  - exists []. split; [reflexivity | constructor].
  - cbn [Unescaped.buildElement] in H.
    destruct (findElement elements x) as [e|] eqn:Ef; [|discriminate].
    destruct (map_returning (Unescaped.buildElement elements fuel)
                (children e)) eqn:Eb; [discriminate|].
    apply TerminationFacts.map_returning_None in Eb.
    destruct Eb as [c [Hc Hnone]].
    destruct (IH c Hnone) as [l [Hlen Hl]].
    exists (x :: l). split; [simpl; now rewrite Hlen|].
    now apply (chain_step elements x e c l).
Qed.

Lemma unescaped_returns fuel x :
  acyclic elements -> List.length elements < fuel ->
  exists m, Unescaped.buildElement elements fuel x = Some m.
Proof.
  intros Ha Hf.
  destruct (Unescaped.buildElement elements fuel x) as [m|] eqn:E;
    [now exists m|].
  exfalso. destruct (unescaped_stuck_chain fuel x E) as [l [Hlen Hl]].
  pose proof (TerminationFacts.acyclic_chain_short elements x l Ha Hl). lia.
Qed.

Lemma unescaped_more_fuel fuel :
  forall x m,
    Unescaped.buildElement elements fuel x = Some m ->
    Unescaped.buildElement elements (S fuel) x = Some m.
Proof.
  induction fuel as [|fuel IH]; intros x m H; [discriminate|].
  cbn [Unescaped.buildElement] in H.
  change (Unescaped.buildElement elements (S (S fuel)) x)
    with (match findElement elements x with
          | None => Some ""
          | Some element =>
              match map_returning (Unescaped.buildElement elements (S fuel))
                      (children element) with
              | None => None
              | Some built =>
                  Some ("<" ++ tag element
                        ++ attrString (Unescaped.buildAttrs element) ++ ">"
                        ++ text_or_empty (text element) ++ join "" built
                        ++ "</" ++ tag element ++ ">")%string
              end
          end).
  destruct (findElement elements x) as [e|]; [|exact H].
  destruct (map_returning (Unescaped.buildElement elements fuel)
              (children e)) as [built|] eqn:Eb; [|discriminate].
  rewrite (TerminationFacts.map_returning_ext
             (Unescaped.buildElement elements fuel)
             (Unescaped.buildElement elements (S fuel))
             (children e) built); [exact H | | exact Eb].
  intros c y _. apply IH.
Qed.

Lemma unescaped_fuel_le fuel fuel' x m :
  fuel <= fuel' ->
  Unescaped.buildElement elements fuel x = Some m ->
  Unescaped.buildElement elements fuel' x = Some m.
Proof.
  induction 1 as [|fuel' _ IH]; intros H; [exact H|].
  apply unescaped_more_fuel. now apply IH.
Qed.

End Chains.

(** X19.  The revision of the serializer without escaping terminates as
    well: on a collection whose child references form no cycle there is one
    markup that every call allowed a recursion deeper than the number of
    records returns. *)
Theorem unescaped_serializer_terminates :
  forall elements : list ElementRecord,
    acyclic elements ->
    exists m : string,
      forall fuel,
        List.length elements < fuel ->
        Unescaped.schemaToHTML fuel (JS.value elements) = Some m.
Proof.
  intros elements Ha.
  destruct (TerminationFacts.map_returning_Some
              (fun el => Unescaped.buildElement elements
                           (S (List.length elements)) (id el))
              (rootElements elements)) as [built Hbuilt].
  { intros el _. apply unescaped_returns; [exact Ha | lia]. }
  destruct (List.length elements =? 0)%nat eqn:El.
  - exists "". intros fuel _. unfold Unescaped.schemaToHTML. now rewrite El.
  - exists (join newline built). intros fuel Hfuel.
    unfold Unescaped.schemaToHTML. rewrite El.
    rewrite (TerminationFacts.map_returning_ext
               (fun el => Unescaped.buildElement elements
                            (S (List.length elements)) (id el))
               (fun el => Unescaped.buildElement elements fuel (id el))
               (rootElements elements) built);
      [reflexivity | | exact Hbuilt].
    intros el m _ Hm.
    apply (unescaped_fuel_le elements (S (List.length elements)));
      [lia | exact Hm].
Qed.

Lemma unescaped_serializer_terminates_witness :
  exists m : string,
    forall fuel,
      List.length
        (parseHTMLToSchema Showcase.menuParser
           (JS.value Showcase.menuMarkup)) < fuel ->
      Unescaped.schemaToHTML fuel
        (JS.value (parseHTMLToSchema Showcase.menuParser
                     (JS.value Showcase.menuMarkup)))
      = Some m.
Proof.
  apply (unescaped_serializer_terminates
           (parseHTMLToSchema Showcase.menuParser
              (JS.value Showcase.menuMarkup))).
  exact (ForestFacts.extracted_acyclic Showcase.menuParser
           (JS.value Showcase.menuMarkup)).
Defined.

End UnescapedFacts.
